(** * sb3-js: the runtime orchestrator, the abort-signal combinator and
    the shader wrapper

    A shallow embedding of [src/runtime.ts] (class [Runtime]), of
    [src/util/any-abort-signal.ts] (function [anyAbortSignal]) and of
    [src/renderer/shader.ts] (class [Shader]).

    JavaScript objects are identified by natural numbers (object identity);
    their mutable fields live in the state record.  Calls into collaborators
    whose code is outside these two files (the interpreter, the renderer, the
    DOM) are recorded, in program order, in an event trace.  JavaScript
    numbers are IEEE 754 binary64 values, i.e. Rocq's primitive floats. *)

From Stdlib Require Import ZArith Floats Uint63 List Bool Lia String.
From stdpp Require Import base option functions list gmap sets strings.

Local Open Scope list_scope.

Set Warnings "-clear-no-such-hyp".

(** ** The parts of the JavaScript [Math] object that the runtime uses *)

Module JSMath.

Local Open Scope float_scope.

Definition NaN : float := PrimFloat.nan.

(** [Math.min(a, b)]: NaN when either argument is NaN; -0 counts as smaller
    than +0. *)
Definition min (a b : float) : float :=
  if PrimFloat.is_nan a || PrimFloat.is_nan b then NaN
  else if a <? b then a
  else if b <? a then b
  else match PrimFloat.classify a with
       | PZero => b
       | _ => a
       end.

(** [Math.max(a, b)]: NaN when either argument is NaN; +0 counts as larger
    than -0. *)
Definition max (a b : float) : float :=
  if PrimFloat.is_nan a || PrimFloat.is_nan b then NaN
  else if a <? b then b
  else if b <? a then a
  else match PrimFloat.classify a with
       | NZero => b
       | _ => a
       end.

(** The float that equals the integer [n], for [|n| < 2^53]. *)
Definition of_Z (n : Z) : float :=
  if (n <? 0)%Z then - PrimFloat.of_uint63 (Uint63.of_Z (- n))
  else PrimFloat.of_uint63 (Uint63.of_Z n).

(** [Math.round(x)]: NaN, infinities, zeros and integral values are returned
    as they are; otherwise the nearest integer, ties towards +infinity, and
    -0 for values in [-0.5, 0).  A finite float is [(-1)^s * m * 2^e]; for
    [e < 0] the result is [floor (x + 1/2)], computed exactly on integers. *)
Definition round (x : float) : float :=
  match Prim2SF x with
  | S754_finite s m e =>
      if (0 <=? e)%Z then x
      else
        let num := ((if s then - Z.pos m else Z.pos m) * 2 + 2 ^ (- e))%Z in
        let n := (num / 2 ^ (1 - e))%Z in
        if (n =? 0)%Z then (if s then (-0) else 0) else of_Z n
  | _ => x
  end.

(** Inclusive range test on numbers (false when anything is NaN). *)
Definition within (lo hi x : float) : bool := (lo <=? x) && (x <=? hi).

(** *** Order facts about floats, from the IEEE 754 specification *)

Lemma SFcompare_antisym x y :
  SFcompare y x = match SFcompare x y with
                  | Some c => Some (CompOpp c)
                  | None => None
                  end.
Proof.
  destruct x as [s1|s1| |s1 m1 e1], y as [s2|s2| |s2 m2 e2]; simpl;
    try reflexivity; try (destruct s1; reflexivity); try (destruct s2; reflexivity);
    try (destruct s1, s2; reflexivity).
  destruct s1, s2; simpl; try reflexivity; f_equal;
    rewrite (Z.compare_antisym e1 e2); destruct (e1 ?= e2)%Z; simpl; try reflexivity.
  - f_equal. exact (eq_sym (Pos.compare_cont_antisym m1 m2 Eq)).
  - exact (eq_sym (Pos.compare_cont_antisym m1 m2 Eq)).
Qed.

Lemma SFcompare_opp x y : SFcompare (SFopp x) (SFopp y) = SFcompare y x.
Proof.
  rewrite (SFcompare_antisym x y).
  destruct x as [s1|s1| |s1 m1 e1], y as [s2|s2| |s2 m2 e2]; simpl;
    try reflexivity; try (destruct s1; reflexivity); try (destruct s2; reflexivity);
    try (destruct s1, s2; reflexivity).
  destruct s1, s2; simpl; try reflexivity; f_equal;
    destruct (e1 ?= e2)%Z; simpl; try reflexivity.
  by destruct (Pos.compare_cont Eq m1 m2).
Qed.

Lemma SFcompare_None x y :
  SFcompare x y = None → x = S754_nan ∨ y = S754_nan.
Proof.
  destruct x as [s1|s1| |s1 m1 e1], y as [s2|s2| |s2 m2 e2]; simpl;
    intros H; try discriminate; auto.
Qed.

Lemma not_nan_SF a : PrimFloat.is_nan a = false → Prim2SF a ≠ S754_nan.
Proof.
  unfold PrimFloat.is_nan. rewrite FloatAxioms.eqb_spec. unfold SFeqb.
  intros H E. rewrite E in H. discriminate.
Qed.

Lemma leb_refl a : PrimFloat.is_nan a = false → (a <=? a) = true.
Proof.
  unfold PrimFloat.is_nan. rewrite FloatAxioms.eqb_spec, FloatAxioms.leb_spec. unfold SFeqb, SFleb.
  destruct (SFcompare (Prim2SF a) (Prim2SF a)) as [[]|]; simpl; congruence.
Qed.

Lemma ltb_leb a b : (a <? b) = true → (a <=? b) = true.
Proof.
  rewrite FloatAxioms.ltb_spec, FloatAxioms.leb_spec. unfold SFltb, SFleb.
  destruct (SFcompare (Prim2SF a) (Prim2SF b)) as [[]|]; congruence.
Qed.

Lemma ltb_false_leb a b :
  PrimFloat.is_nan a = false → PrimFloat.is_nan b = false →
  (a <? b) = false → (b <=? a) = true.
Proof.
  intros Ha Hb. rewrite FloatAxioms.ltb_spec, FloatAxioms.leb_spec. unfold SFltb, SFleb.
  rewrite (SFcompare_antisym (Prim2SF a) (Prim2SF b)).
  destruct (SFcompare (Prim2SF a) (Prim2SF b)) as [[]|] eqn:E; simpl; try congruence.
  destruct (SFcompare_None _ _ E) as [H|H]; [by apply not_nan_SF in Ha|by apply not_nan_SF in Hb].
Qed.

Lemma min_spec a b :
  PrimFloat.is_nan a = false → PrimFloat.is_nan b = false →
  (min a b = a ∨ min a b = b) ∧ (min a b <=? a) = true ∧ (min a b <=? b) = true.
Proof.
  intros Ha Hb. unfold min. rewrite Ha, Hb. simpl.
  destruct (a <? b) eqn:Hab.
  { split; [by left|]. split; [by apply leb_refl|by apply ltb_leb]. }
  destruct (b <? a) eqn:Hba.
  { split; [by right|]. split; [by apply ltb_leb|by apply leb_refl]. }
  destruct (PrimFloat.classify a).
  all: try (split; [by left|]; split; [by apply leb_refl|by apply ltb_false_leb]).
  split; [by right|]. split; [by apply ltb_false_leb|by apply leb_refl].
Qed.

Lemma max_spec a b :
  PrimFloat.is_nan a = false → PrimFloat.is_nan b = false →
  (max a b = a ∨ max a b = b) ∧ (a <=? max a b) = true ∧ (b <=? max a b) = true.
Proof.
  intros Ha Hb. unfold max. rewrite Ha, Hb. simpl.
  destruct (a <? b) eqn:Hab.
  { split; [by right|]. split; [by apply ltb_leb|by apply leb_refl]. }
  destruct (b <? a) eqn:Hba.
  { split; [by left|]. split; [by apply leb_refl|by apply ltb_leb]. }
  destruct (PrimFloat.classify a).
  all: try (split; [by left|]; split; [by apply leb_refl|by apply ltb_false_leb]).
  split; [by right|]. split; [by apply ltb_false_leb|by apply leb_refl].
Qed.

(** [max lo (min hi v)] is NaN exactly when [v] is, and lies in [[lo, hi]]
    otherwise. *)
Lemma clamp_spec lo hi v :
  PrimFloat.is_nan lo = false → PrimFloat.is_nan hi = false → (lo <=? hi) = true →
  if PrimFloat.is_nan v
  then PrimFloat.is_nan (max lo (min hi v)) = true
  else within lo hi (max lo (min hi v)) = true.
Proof.
  intros Hlo Hhi Hle. destruct (PrimFloat.is_nan v) eqn:Hv.
  - unfold min. rewrite Hv, orb_true_r. unfold max.
    replace (PrimFloat.is_nan NaN) with true by reflexivity.
    rewrite orb_true_r. reflexivity.
  - destruct (min_spec hi v Hhi Hv) as (Hm & Hmhi & _).
    assert (Hmn : PrimFloat.is_nan (min hi v) = false) by (destruct Hm as [->| ->]; done).
    destruct (max_spec lo (min hi v) Hlo Hmn) as (Hx & Hlox & _).
    unfold within. rewrite Hlox. simpl.
    destruct Hx as [->| ->]; done.
Qed.

Lemma opp_within lo hi y :
  within lo hi y = true → within (- hi) (- lo) (- y) = true.
Proof.
  unfold within. rewrite !andb_true_iff, !FloatAxioms.leb_spec, !FloatAxioms.opp_spec. unfold SFleb.
  rewrite !SFcompare_opp. tauto.
Qed.

Lemma opp_nan y : PrimFloat.is_nan y = true → PrimFloat.is_nan (- y) = true.
Proof.
  unfold PrimFloat.is_nan. rewrite !FloatAxioms.eqb_spec, !FloatAxioms.opp_spec. unfold SFeqb.
  by rewrite SFcompare_opp.
Qed.

End JSMath.


(** ** The abort-signal combinator *)

Module AnyAbortSignal.

(** An [AbortController] and its [signal] share one identity. *)
Abbreviation SignalId := nat.

(** A callback registered for ['abort'] on a signal: the [onAbort] closure of
    one call of [anyAbortSignal] (it captures that call's [controller] and
    [signals]), or a callback of other code, which is taken not to touch any
    signal. *)
Inductive Listener :=
| OnAbort (controller : SignalId) (signals : list (option SignalId))
| Other (id : nat).

#[global] Instance Listener_eq_dec : EqDecision Listener.
Proof. solve_decision. Defined.

Record SignalState := mkSignal {
  aborted : bool;                 (* signal.aborted *)
  listeners : list Listener       (* the signal's 'abort' listeners, in order *)
}.

Record World := mkWorld {
  signals : SignalId → SignalState;
  nextSignal : nat;               (* the identity of the next signal made *)
  fired : list SignalId           (* the 'abort' events dispatched, oldest first *)
}.

Definition update (x : SignalId) (f : SignalState → SignalState) (w : World) : World :=
  mkWorld (<[x := f (signals w x)]> (signals w)) (nextSignal w) (fired w).

(** [signal.addEventListener('abort', l)]: a callback that is already
    registered is not registered again. *)
Definition addEventListener (x : SignalId) (l : Listener) (w : World) : World :=
  update x (λ st, if decide (l ∈ listeners st) then st
                  else mkSignal (aborted st) (listeners st ++ [l])) w.

(** [signal.removeEventListener('abort', l)] *)
Definition removeEventListener (x : SignalId) (l : Listener) (w : World) : World :=
  update x (λ st, mkSignal (aborted st) (filter (λ l', l' ≠ l) (listeners st))) w.

(** The cleanup loop of [onAbort]; [signal?.] skips null entries. *)
Definition cleanup (l : Listener) (sigs : list (option SignalId)) (w : World) : World :=
  foldl (λ acc o, match o with
                  | Some x => removeEventListener x l acc
                  | None => acc
                  end) w sigs.

(** The signal [x] is aborted: nothing if it already is; otherwise it is
    marked, its ['abort'] event is dispatched, and the listeners it had at that
    moment run in order, each unless removed meanwhile.  An [onAbort] closure
    calls [controller.abort()], which is this same function on the derived
    signal, and then cleans up.  Derived signals are younger than their inputs,
    so [nextSignal w - x] nested calls suffice for [x]: that is the [fuel]. *)
Fixpoint abort (fuel : nat) (x : SignalId) (w : World) : World :=
  match fuel with
  | 0 => w
  | S fuel =>
      if aborted (signals w x) then w
      else
        let w1 := mkWorld (<[x := mkSignal true (listeners (signals w x))]> (signals w))
                          (nextSignal w) (fired w ++ [x]) in
        foldl (λ acc l,
                 if decide (l ∈ listeners (signals acc x)) then
                   match l with
                   | OnAbort c sigs => cleanup l sigs (abort fuel c acc)
                   | Other _ => acc
                   end
                 else acc)
              w1 (listeners (signals w x))
  end.

(** [x] fires, or [controller.abort()] for the controller [x]. *)
Definition fire (x : SignalId) (w : World) : World :=
  abort (nextSignal w - x) x w.

(** [function onAbort()] of the call with controller [c] and inputs [sigs]. *)
Definition onAbort (c : SignalId) (sigs : list (option SignalId)) (w : World) : World :=
  cleanup (OnAbort c sigs) sigs (fire c w).

(** The second loop of [anyAbortSignal], over the inputs [rest] still to
    visit: it stops ([break]) at the first input that has already fired. *)
Fixpoint subscribe (c : SignalId) (sigs rest : list (option SignalId)) (w : World)
  : World :=
  match rest with
  | [] => w
  | None :: rest => subscribe c sigs rest w
  | Some x :: rest =>
      if aborted (signals w x) then onAbort c sigs w
      else subscribe c sigs rest (addEventListener x (OnAbort c sigs) w)
  end.

(** [anyAbortSignal(...signals)]: returns [controller.signal]. *)
Definition anyAbortSignal (sigs : list (option SignalId)) (w : World) : SignalId * World :=
  let c := nextSignal w in
  let w0 := mkWorld (<[c := mkSignal false []]> (signals w)) (S c) (fired w) in
  (c, subscribe c sigs sigs w0).

(** What happens after a combination: signals fire, further combinations
    are made, other code registers callbacks. *)
Inductive Op :=
| Fire (x : SignalId)
| Combine (sigs : list (option SignalId))
| Listen (x : SignalId) (id : nat).

Definition apply (o : Op) (w : World) : World :=
  match o with
  | Fire x => fire x w
  | Combine sigs => (anyAbortSignal sigs w).2
  | Listen x id => addEventListener x (Other id) w
  end.

Definition run (ops : list Op) (w : World) : World :=
  foldl (λ acc o, apply o acc) w ops.

(** *** Well-formed worlds *)

Definition flag (w : World) (x : SignalId) : bool := aborted (signals w x).
Definition lst (w : World) (x : SignalId) : list Listener := listeners (signals w x).

(** An [onAbort] closure hangs only on inputs of its call, which are older
    than the call's controller; each signal's ['abort'] event has been
    dispatched once if the signal is aborted and never otherwise; signals not
    yet made have neither fired nor listeners. *)
Record wf (w : World) : Prop := mkWf {
  wf_listeners : ∀ x c sigs, OnAbort c sigs ∈ lst w x →
                   Some x ∈ sigs ∧ x < c ∧ c < nextSignal w;
  wf_fired : ∀ x, length (filter (λ y, y = x) (fired w)) = if flag w x then 1 else 0;
  wf_unborn : ∀ x, nextSignal w ≤ x → flag w x = false ∧ lst w x = []
}.

Lemma lst_update x f w y :
  lst (update x f w) y = if decide (x = y) then listeners (f (signals w x)) else lst w y.
Proof.
  unfold lst, update. simpl. case_decide as H.
  - subst. by rewrite fn_lookup_insert.
  - by rewrite fn_lookup_insert_ne.
Qed.

Lemma flag_update x f w y :
  flag (update x f w) y = if decide (x = y) then aborted (f (signals w x)) else flag w y.
Proof.
  unfold flag, update. simpl. case_decide as H.
  - subst. by rewrite fn_lookup_insert.
  - by rewrite fn_lookup_insert_ne.
Qed.

Lemma lst_remove x l w y :
  lst (removeEventListener x l w) y
  = if decide (x = y) then filter (λ l', l' ≠ l) (lst w y) else lst w y.
Proof. unfold removeEventListener. rewrite lst_update. by case_decide; subst. Qed.

Lemma flag_remove x l w y : flag (removeEventListener x l w) y = flag w y.
Proof. unfold removeEventListener. rewrite flag_update. by case_decide; subst. Qed.

Lemma lst_add x l w y :
  lst (addEventListener x l w) y
  = if decide (x = y) then (if decide (l ∈ lst w y) then lst w y else lst w y ++ [l])
    else lst w y.
Proof.
  unfold addEventListener. rewrite lst_update. case_decide; [subst|done].
  unfold lst. by case_decide.
Qed.

Lemma flag_add x l w y : flag (addEventListener x l w) y = flag w y.
Proof.
  unfold addEventListener. rewrite flag_update. case_decide; [subst|done].
  unfold flag. by case_decide.
Qed.

Lemma cleanup_spec l sigs w :
  nextSignal (cleanup l sigs w) = nextSignal w ∧
  fired (cleanup l sigs w) = fired w ∧
  (∀ y, flag (cleanup l sigs w) y = flag w y) ∧
  (∀ y, lst (cleanup l sigs w) y
        = if decide (Some y ∈ sigs) then filter (λ l', l' ≠ l) (lst w y) else lst w y).
Proof.
  unfold cleanup. revert w. induction sigs as [|[x|] sigs IH]; intros w; cbn [foldl].
  - repeat split; done.
  - destruct (IH (removeEventListener x l w)) as (Hn & Hf & Hfl & Hl).
    split; [done|]. split; [done|]. split.
    + intros y. by rewrite Hfl, flag_remove.
    + intros y. rewrite Hl, lst_remove.
      destruct (decide (x = y)) as [->|Hne].
      * rewrite (decide_True (P := Some y ∈ Some y :: sigs)) by left.
        case_decide; [|done]. rewrite list_filter_filter.
        apply list_filter_iff. tauto.
      * destruct (decide (Some y ∈ sigs)) as [Hin|Hout].
        -- by rewrite decide_True by (by right).
        -- rewrite decide_False; [done|]. rewrite elem_of_cons. naive_solver.
  - destruct (IH w) as (Hn & Hf & Hfl & Hl).
    repeat split; try done. intros y. rewrite Hl.
    destruct (decide (Some y ∈ sigs)) as [Hin|Hout].
    + by rewrite decide_True by (by right).
    + rewrite decide_False; [done|]. rewrite elem_of_cons. naive_solver.
Qed.

Lemma cleanup_wf l sigs w : wf w → wf (cleanup l sigs w).
Proof.
  intros [Hl Hf Hu]. destruct (cleanup_spec l sigs w) as (Hn & Hfi & Hfl & Hls).
  split.
  - intros x c sigs'. rewrite Hls, Hn. case_decide; [|apply Hl].
    intros [_ Hin]%list_elem_of_filter. by apply Hl.
  - intros x. rewrite Hfi, Hfl. apply Hf.
  - intros x. rewrite Hn, Hfl, Hls. intros Hx. destruct (Hu x Hx) as [-> ->].
    split; [done|]. by case_decide.
Qed.

(** The two halves of [abort]: marking the signal and dispatching its event,
    then calling one listener of the snapshot. *)
Definition mark (x : SignalId) (w : World) : World :=
  mkWorld (<[x := mkSignal true (listeners (signals w x))]> (signals w))
          (nextSignal w) (fired w ++ [x]).

Definition call (fuel : nat) (x : SignalId) (acc : World) (l : Listener) : World :=
  if decide (l ∈ listeners (signals acc x)) then
    match l with
    | OnAbort c sigs => cleanup l sigs (abort fuel c acc)
    | Other _ => acc
    end
  else acc.

Lemma abort_S fuel x w :
  abort (S fuel) x w
  = if flag w x then w else foldl (call fuel x) (mark x w) (lst w x).
Proof. reflexivity. Qed.

Lemma flag_mark x w y : flag (mark x w) y = if decide (x = y) then true else flag w y.
Proof.
  unfold flag, mark. simpl. case_decide as H.
  - subst. by rewrite fn_lookup_insert.
  - by rewrite fn_lookup_insert_ne.
Qed.

Lemma lst_mark x w y : lst (mark x w) y = lst w y.
Proof.
  unfold lst, mark. simpl. destruct (decide (x = y)) as [->|H].
  - by rewrite fn_lookup_insert.
  - by rewrite fn_lookup_insert_ne.
Qed.

Lemma mark_wf x w : wf w → flag w x = false → x < nextSignal w → wf (mark x w).
Proof.
  intros [Hl Hf Hu] Hx Hlt. split.
  - intros y c sigs. rewrite lst_mark. apply Hl.
  - intros y. rewrite flag_mark. simpl. rewrite filter_app, length_app, Hf.
    rewrite filter_cons, filter_nil. destruct (decide (x = y)) as [->|Hne].
    + by rewrite Hx.
    + simpl. lia.
  - intros y Hy. rewrite flag_mark, lst_mark. simpl in Hy.
    rewrite decide_False by lia. by apply Hu.
Qed.

Lemma foldl_invariant {A B} (P : A → Prop) (f : A → B → A) (l : list B) a :
  P a → (∀ a x, P a → P (f a x)) → P (foldl f a l).
Proof. intros Ha Hf. revert a Ha. induction l; simpl; auto. Qed.

(** What every abort keeps: well-formedness, the signals made so far, the
    signals already aborted; it registers no listener; and the signal aborted
    is aborted afterwards. *)
Lemma abort_wf fuel :
  ∀ y w, wf w → y < nextSignal w → nextSignal w - y ≤ fuel →
    wf (abort fuel y w) ∧ nextSignal (abort fuel y w) = nextSignal w ∧
    (∀ x, flag w x = true → flag (abort fuel y w) x = true) ∧
    (∀ x l, l ∈ lst (abort fuel y w) x → l ∈ lst w x) ∧
    flag (abort fuel y w) y = true.
Proof.
  induction fuel as [|fuel IH]; intros y w Hwf Hy Hfuel; [lia|].
  rewrite abort_S. destruct (flag w y) eqn:Hflag;
    [split; [done|]; split; [done|]; split; [done|]; split; done|].
  pose proof (mark_wf y w Hwf Hflag Hy) as Hwf1.
  apply (foldl_invariant (λ acc,
    wf acc ∧ nextSignal acc = nextSignal w ∧
    (∀ x, flag w x = true → flag acc x = true) ∧
    (∀ x l, l ∈ lst acc x → l ∈ lst w x) ∧ flag acc y = true)).
  - split; [done|]. split; [done|]. split; [|split].
    + intros x Hx. rewrite flag_mark. by case_decide.
    + intros x l. by rewrite lst_mark.
    + rewrite flag_mark. by rewrite decide_True.
  - intros acc l (Hacc & Hn & Hmono & Hsub & Hyy). unfold call.
    case_decide as Hin; [|done]. destruct l as [c sigs|id]; [|done].
    destruct (wf_listeners _ Hacc y c sigs Hin) as (_ & Hyc & Hc).
    destruct (IH c acc Hacc Hc ltac:(lia)) as (Hwf' & Hn' & Hmono' & Hsub' & _).
    destruct (cleanup_spec (OnAbort c sigs) sigs (abort fuel c acc))
      as (Hcn & _ & Hcf & Hcl).
    split; [by apply cleanup_wf|]. split; [congruence|]. split; [|split].
    + intros x Hx. rewrite Hcf. auto.
    + intros x l. rewrite Hcl. case_decide.
      * intros [_ H']%list_elem_of_filter. auto.
      * auto.
    + rewrite Hcf. auto.
Qed.

Lemma foldl_suffix_invariant {A B} (P : A → list B → Prop) (f : A → B → A)
    (l : list B) a :
  P a l → (∀ a x rest, P a (x :: rest) → P (f a x) rest) → P (foldl f a l) [].
Proof. intros Ha Hf. revert a Ha. induction l; simpl; auto. Qed.

(** *** One combination and its inputs *)

Section Combination.

(** The controller made by one call of [anyAbortSignal], and the call's
    inputs. *)
Variable c : SignalId.
Variable sigs : list (option SignalId).

(** Every [onAbort] closure that aborts [c] is the one of this call. *)
Definition ours (w : World) : Prop :=
  ∀ x sigs', OnAbort c sigs' ∈ lst w x → sigs' = sigs.

(** The derived signal has not fired, and the closure listens on every
    input. *)
Definition pending (w : World) : Prop :=
  flag w c = false ∧ ∀ x, Some x ∈ sigs → OnAbort c sigs ∈ lst w x.

(** The derived signal has fired, because an input has, and the closure
    listens nowhere any more. *)
Definition settled (w : World) : Prop :=
  flag w c = true ∧ (∃ x, Some x ∈ sigs ∧ flag w x = true) ∧
  ∀ x, OnAbort c sigs ∉ lst w x.

Lemma ours_shrink w w' :
  (∀ x l, l ∈ lst w' x → l ∈ lst w x) → ours w → ours w'.
Proof. intros Hsub Ho x sigs' H. eapply Ho, Hsub, H. Qed.

Lemma settled_cleanup l sigs' w : settled w → settled (cleanup l sigs' w).
Proof.
  intros (Hc & [x [Hx Hfx]] & Hdet).
  destruct (cleanup_spec l sigs' w) as (_ & _ & Hfl & Hls).
  split; [by rewrite Hfl|]. split; [exists x; by rewrite Hfl|].
  intros y. rewrite Hls. case_decide; [|apply Hdet].
  intros [_ H']%list_elem_of_filter. by apply (Hdet y).
Qed.

Lemma pending_cleanup l sigs' w :
  l ≠ OnAbort c sigs → pending w → pending (cleanup l sigs' w).
Proof.
  intros Hne [Hc Hatt].
  destruct (cleanup_spec l sigs' w) as (_ & _ & Hfl & Hls).
  split; [by rewrite Hfl|]. intros x Hx. rewrite Hls. case_decide; [|by apply Hatt].
  apply list_elem_of_filter. split; [congruence|by apply Hatt].
Qed.

(** Aborting any other signal [y]: a settled combination stays settled; a
    pending one stays pending with all its inputs as they were, or else it
    settles. *)
Lemma abort_linked fuel :
  ∀ y w, wf w → ours w → y < nextSignal w → nextSignal w - y ≤ fuel → y ≠ c →
    (settled w → settled (abort fuel y w)) ∧
    (pending w →
       (pending (abort fuel y w) ∧
        ∀ x, Some x ∈ sigs → flag (abort fuel y w) x = flag w x) ∨
       settled (abort fuel y w)).
Proof.
  induction fuel as [|fuel IH]; intros y w Hwf Hours Hy Hfuel Hyc; [lia|].
  rewrite abort_S. destruct (flag w y) eqn:Hflag; [by split; [|left]|].
  pose proof (mark_wf y w Hwf Hflag Hy) as Hwf1.
  (* what holds between two listeners of the snapshot *)
  set (Q := λ (acc : World) (rest : list Listener),
    wf acc ∧ ours acc ∧ nextSignal acc = nextSignal w ∧ flag acc y = true ∧
    (settled w → settled acc) ∧
    (pending w →
       settled acc ∨
       (pending acc ∧ (∀ x, Some x ∈ sigs → x ≠ y → flag acc x = flag w x) ∧
        (Some y ∈ sigs → OnAbort c sigs ∈ rest)))).
  assert (HQ : Q (foldl (call fuel y) (mark y w) (lst w y)) []).
  { apply foldl_suffix_invariant.
    - split; [done|]. split; [by intros x s'; rewrite lst_mark; apply Hours|].
      split; [done|]. split; [by rewrite flag_mark, decide_True|]. split.
      + intros (Hc & [x [Hx Hfx]] & Hdet). split; [|split].
        * rewrite flag_mark. by case_decide.
        * exists x. split; [done|]. rewrite flag_mark. by case_decide.
        * intros x'. rewrite lst_mark. apply Hdet.
      + intros [Hc Hatt]. right. split; [split|split].
        * by rewrite flag_mark, decide_False.
        * intros x Hx. rewrite lst_mark. by apply Hatt.
        * intros x Hx Hne. by rewrite flag_mark, decide_False.
        * apply Hatt.
    - intros acc l rest (Hacc & Hoacc & Hn & Hyy & Hset & Hpen). unfold call.
      destruct (decide (l ∈ listeners (signals acc y))) as [Hin|Hout].
      + destruct l as [c' sigs'|id].
        * destruct (wf_listeners _ Hacc y c' sigs' Hin) as (Hysigs & Hyc' & Hc').
          destruct (abort_wf fuel c' acc Hacc Hc' ltac:(lia))
            as (Hwf' & Hn' & Hmono' & Hsub' & Hcc').
          destruct (cleanup_spec (OnAbort c' sigs') sigs' (abort fuel c' acc))
            as (Hcn & _ & Hcf & Hcl).
          assert (Hsubc : ∀ x l, l ∈ lst (cleanup (OnAbort c' sigs') sigs'
                                            (abort fuel c' acc)) x → l ∈ lst acc x).
          { intros x l. rewrite Hcl. case_decide; [|by apply Hsub'].
            intros [_ H']%list_elem_of_filter. by apply Hsub'. }
          split; [by apply cleanup_wf|]. split; [by eapply ours_shrink|].
          split; [congruence|]. split; [rewrite Hcf; auto|].
          destruct (decide (c' = c)) as [->|Hne].
          -- (* our own closure runs: the derived signal fires, then cleanup *)
             pose proof (Hoacc y sigs' Hin) as ->.
             assert (Hnow : settled (cleanup (OnAbort c sigs) sigs (abort fuel c acc))).
             { split; [by rewrite Hcf|]. split.
               - exists y. split; [done|]. rewrite Hcf. auto.
               - intros x. rewrite Hcl. case_decide as Hx.
                 + intros [Hneq _]%list_elem_of_filter. done.
                 + intros H'. apply Hsub' in H'.
                   by destruct (wf_listeners _ Hacc x c sigs H') as (? & _). }
             split; [done|]. by left.
          -- (* the closure of another combination runs *)
             assert (Hlne : OnAbort c' sigs' ≠ OnAbort c sigs) by congruence.
             destruct (IH c' acc Hacc Hoacc Hc' ltac:(lia) Hne) as [IHs IHp].
             split.
             ++ intros Hs. by apply settled_cleanup, IHs, Hset.
             ++ intros Hp. destruct (Hpen Hp) as [Hs|(Hp' & Hsame & Hrest)].
                ** left. by apply settled_cleanup, IHs.
                ** destruct (IHp Hp') as [[Hp'' Hsame'']|Hs''].
                   --- right. split; [by apply pending_cleanup|]. split.
                       +++ intros x Hx Hxy. rewrite Hcf, Hsame'' by done. by apply Hsame.
                       +++ intros Hysig. specialize (Hrest Hysig).
                           apply elem_of_cons in Hrest as [?|?]; [congruence|done].
                   --- left. by apply settled_cleanup.
        * split; [done|]. split; [done|]. split; [done|]. split; [done|].
          split; [done|]. intros Hp. destruct (Hpen Hp) as [Hs|(Hp' & Hsame & Hrest)];
            [by left|right].
          split; [done|]. split; [done|]. intros Hysig. specialize (Hrest Hysig).
          apply elem_of_cons in Hrest as [?|?]; [congruence|done].
      + split; [done|]. split; [done|]. split; [done|]. split; [done|].
        split; [done|]. intros Hp. destruct (Hpen Hp) as [Hs|(Hp' & Hsame & Hrest)];
          [by left|right].
        split; [done|]. split; [done|]. intros Hysig. specialize (Hrest Hysig).
        apply elem_of_cons in Hrest as [<-|?]; [|done].
        destruct Hout. by apply Hp'. }
  destruct HQ as (_ & _ & _ & Hyy & Hset & Hpen). split; [done|].
  intros Hp. destruct (Hpen Hp) as [Hs|(Hp' & Hsame & Hrest)]; [by right|].
  destruct (decide (Some y ∈ sigs)) as [Hysig|Hysig].
  - specialize (Hrest Hysig). by apply not_elem_of_nil in Hrest.
  - left. split; [done|]. intros x Hx. apply Hsame; [done|]. by intros ->.
Qed.

(** The rest of the world is as it was, but for a closure of another
    controller [c'] and for the signal [c'] itself. *)
Definition others_kept (c' : SignalId) (w w' : World) : Prop :=
  (∀ x, x ≠ c' → flag w' x = flag w x) ∧
  (∀ x l, l ∈ lst w' x → l ∈ lst w x ∨ ∃ sigs', l = OnAbort c' sigs') ∧
  (∀ x l, l ∈ lst w x → (∀ sigs', l ≠ OnAbort c' sigs') → l ∈ lst w' x).

Lemma others_kept_linked c' w w' :
  c' ≠ c → (∀ x, Some x ∈ sigs → x ≠ c') → others_kept c' w w' →
  (ours w → ours w') ∧ (pending w → pending w') ∧ (settled w → settled w').
Proof.
  intros Hne Hsigs (Hfl & Hnew & Hold). split; [|split].
  - intros Ho x s' H. destruct (Hnew x _ H) as [H'|[s'' [= -> ->]]]; [by eapply Ho|done].
  - intros [Hc Hatt]. split; [by rewrite Hfl|]. intros x Hx. apply Hold; [by apply Hatt|].
    congruence.
  - intros (Hc & [x [Hx Hfx]] & Hdet). split; [by rewrite Hfl|]. split.
    + exists x. split; [done|]. rewrite Hfl; [done|by apply Hsigs].
    + intros y H. destruct (Hnew y _ H) as [H'|[s'' [= -> ->]]]; [by apply (Hdet y)|done].
Qed.

End Combination.

(** *** The call itself *)

Lemma elem_of_lst_add x l w y l' :
  l' ∈ lst (addEventListener x l w) y ↔ l' ∈ lst w y ∨ (x = y ∧ l' = l).
Proof.
  rewrite lst_add. destruct (decide (x = y)) as [->|Hne]; [|naive_solver].
  case_decide as Hin.
  - split; [by left|]. intros [?|[_ ->]]; done.
  - rewrite elem_of_app, list_elem_of_singleton. naive_solver.
Qed.

Lemma addEventListener_wf x l w :
  wf w → x < nextSignal w →
  (∀ c sigs, l = OnAbort c sigs → Some x ∈ sigs ∧ x < c ∧ c < nextSignal w) →
  wf (addEventListener x l w).
Proof.
  intros [Hl Hf Hu] Hx Hnew. split.
  - intros y c sigs [H|[<- H]]%elem_of_lst_add; [by apply Hl|]. by apply Hnew.
  - intros y. rewrite flag_add. apply Hf.
  - intros y Hy. rewrite flag_add, lst_add. simpl in Hy.
    rewrite decide_False by lia. by apply Hu.
Qed.

(** A signal nobody listens on: aborting it marks it and dispatches. *)
Lemma abort_unheard fuel c w :
  flag w c = false → lst w c = [] → abort (S fuel) c w = mark c w.
Proof. intros Hf Hl. by rewrite abort_S, Hf, Hl. Qed.

(** The loop of [anyAbortSignal], from any point on: either an input that
    has already fired is met, and the call ends settled; or none is, and it
    ends pending, listening on every input. *)
Lemma subscribe_spec c sigs rest :
  ∀ w, wf w → ours c sigs w → c < nextSignal w → flag w c = false → lst w c = [] →
    (∀ x, Some x ∈ sigs → x < c) →
    (∀ x, Some x ∈ rest → Some x ∈ sigs) →
    (∀ x, Some x ∈ sigs →
          Some x ∈ rest ∨ (OnAbort c sigs ∈ lst w x ∧ flag w x = false)) →
    wf (subscribe c sigs rest w) ∧ ours c sigs (subscribe c sigs rest w) ∧
    nextSignal (subscribe c sigs rest w) = nextSignal w ∧
    (∀ x, x ≠ c → flag (subscribe c sigs rest w) x = flag w x) ∧
    (∀ x l, l ∈ lst (subscribe c sigs rest w) x → l ∈ lst w x ∨ l = OnAbort c sigs) ∧
    (∀ x l, l ∈ lst w x → l ≠ OnAbort c sigs → l ∈ lst (subscribe c sigs rest w) x) ∧
    ((∃ x, Some x ∈ rest ∧ flag w x = true) → settled c sigs (subscribe c sigs rest w)) ∧
    ((∀ x, Some x ∈ rest → flag w x = false) → pending c sigs (subscribe c sigs rest w)).
Proof.
  induction rest as [|[x|] rest IH];
    intros w Hwf Hours Hc Hfc Hlc Hold Hsub Hvis; cbn [subscribe].
  - split; [done|]. split; [done|]. split; [done|]. split; [done|].
    split; [by left|]. split; [done|]. split.
    + intros (x & Hx & _). by apply not_elem_of_nil in Hx.
    + intros _. split; [done|]. intros x Hx.
      destruct (Hvis x Hx) as [H|[H _]]; [by apply not_elem_of_nil in H|done].
  - change (aborted (signals w x)) with (flag w x).
    assert (Hxs : Some x ∈ sigs) by (apply Hsub; left).
    destruct (flag w x) eqn:Hfx.
    + (* an input that has already fired: onAbort, then break *)
      unfold onAbort, fire.
      destruct (nextSignal w - c) as [|fuel] eqn:Hfuel; [lia|].
      rewrite abort_unheard by done.
      assert (Hfc' : flag w c = false) by done.
      pose proof (mark_wf c w Hwf Hfc' Hc) as Hwf'.
      destruct (cleanup_spec (OnAbort c sigs) sigs (mark c w)) as (Hcn & _ & Hcf & Hcl).
      split; [by apply cleanup_wf|]. split.
      { intros y s'. rewrite Hcl, !lst_mark. case_decide; [|apply Hours].
        intros [_ H']%list_elem_of_filter. by eapply Hours. }
      split; [done|]. split.
      { intros y Hy. by rewrite Hcf, flag_mark, decide_False. }
      split.
      { intros y l. rewrite Hcl, lst_mark. case_decide; [|by left].
        intros [_ H']%list_elem_of_filter. by left. }
      split.
      { intros y l Hin Hne. rewrite Hcl, lst_mark. case_decide; [|done].
        by apply list_elem_of_filter. }
      split.
      * intros _. split; [by rewrite Hcf, flag_mark, decide_True|]. split.
        -- exists x. split; [done|]. rewrite Hcf, flag_mark. by case_decide.
        -- intros y. rewrite Hcl, lst_mark. case_decide as Hy.
           ++ intros [Hneq _]%list_elem_of_filter. done.
           ++ intros H'. by destruct (wf_listeners _ Hwf y c sigs H') as (? & _).
      * intros Hall. rewrite Hall in Hfx; [done|left].
    + (* the closure is registered on the input, and the loop goes on *)
      pose proof (Hold x Hxs) as Hxc.
      assert (Hwf1 : wf (addEventListener x (OnAbort c sigs) w)).
      { apply addEventListener_wf; [done|lia|]. by intros c' s' [= <- <-]. }
      destruct (IH (addEventListener x (OnAbort c sigs) w)) as
        (Hwf' & Hours' & Hn' & Hfl' & Hnew' & Hkept' & Hset' & Hpen'); try done.
      * intros y s' [H|[_ [= ->]]]%elem_of_lst_add; [by eapply Hours|done].
      * by rewrite flag_add.
      * rewrite lst_add, decide_False by lia. done.
      * intros y Hy. apply Hsub. by right.
      * intros y Hy. destruct (Hvis y Hy) as [[Heq|Hr]%elem_of_cons|[Hin Hfy]].
        -- injection Heq as ->. right. split; [|by rewrite flag_add].
           apply elem_of_lst_add. by right.
        -- by left.
        -- right. split; [|by rewrite flag_add]. apply elem_of_lst_add. by left.
      * split; [done|]. split; [done|]. split; [done|]. split.
        { intros y Hy. by rewrite Hfl', flag_add. }
        split.
        { intros y l Hin. destruct (Hnew' y l Hin) as [H|H]; [|by right].
          apply elem_of_lst_add in H as [H|[_ ->]]; [by left|by right]. }
        split.
        { intros y l Hin Hne. apply Hkept'; [|done]. apply elem_of_lst_add. by left. }
        split.
        -- intros (y & [Heq|Hy]%elem_of_cons & Hfy).
           ++ injection Heq as ->. congruence.
           ++ apply Hset'. exists y. by rewrite flag_add.
        -- intros Hall. apply Hpen'. intros y Hy. rewrite flag_add. apply Hall. by right.
  - destruct (IH w) as (Hwf' & Hours' & Hn' & Hfl' & Hnew' & Hkept' & Hset' & Hpen');
      try done.
    + intros y Hy. apply Hsub. by right.
    + intros y Hy. destruct (Hvis y Hy) as [[Heq|Hr]%elem_of_cons|H]; [done|by left|by right].
    + split; [done|]. split; [done|]. split; [done|]. split; [done|].
      split; [done|]. split; [done|]. split.
      * intros (y & [Heq|Hy]%elem_of_cons & Hfy); [done|]. apply Hset'. by exists y.
      * intros Hall. apply Hpen'. intros y Hy. apply Hall. by right.
Qed.

(** One call of [anyAbortSignal] on inputs that exist. *)
Lemma anyAbortSignal_spec sigs w :
  wf w → (∀ x, Some x ∈ sigs → x < nextSignal w) →
  let c := nextSignal w in
  let w' := (anyAbortSignal sigs w).2 in
  (anyAbortSignal sigs w).1 = c ∧
  wf w' ∧ ours c sigs w' ∧ nextSignal w' = S c ∧ others_kept c w w' ∧
  ((∃ x, Some x ∈ sigs ∧ flag w x = true) → settled c sigs w') ∧
  ((∀ x, Some x ∈ sigs → flag w x = false) → pending c sigs w').
Proof.
  intros Hwf Hexist c w'. split; [done|].
  set (w0 := mkWorld (<[c := mkSignal false []]> (signals w)) (S c) (fired w)).
  assert (Hl0 : ∀ y, lst w0 y = if decide (c = y) then [] else lst w y).
  { intros y. unfold lst, w0. simpl. case_decide as H.
    - subst y. by rewrite fn_lookup_insert.
    - by rewrite fn_lookup_insert_ne. }
  assert (Hf0 : ∀ y, flag w0 y = flag w y).
  { intros y. unfold flag, w0. simpl. destruct (decide (c = y)) as [<-|H].
    - rewrite fn_lookup_insert. simpl. symmetry. by apply (wf_unborn _ Hwf c).
    - by rewrite fn_lookup_insert_ne. }
  assert (Hsub0 : ∀ y l, l ∈ lst w0 y → l ∈ lst w y).
  { intros y l. rewrite Hl0. case_decide; [by intros ?%not_elem_of_nil|done]. }
  assert (Hwf0 : wf w0).
  { split.
    - intros y c' s' H. apply Hsub0 in H.
      destruct (wf_listeners _ Hwf y c' s' H) as (? & ? & ?).
      split; [done|]. split; [done|]. simpl. unfold c. lia.
    - intros y. rewrite Hf0. apply (wf_fired _ Hwf).
    - intros y Hy. simpl in Hy. rewrite Hf0, Hl0, decide_False by lia.
      apply (wf_unborn _ Hwf). unfold c in Hy. lia. }
  assert (Hours0 : ours c sigs w0).
  { intros y s' H. apply Hsub0 in H.
    destruct (wf_listeners _ Hwf y c s' H) as (_ & _ & ?). unfold c in *. lia. }
  destruct (subscribe_spec c sigs sigs w0) as
    (Hwf' & Hours' & Hn' & Hfl' & Hnew' & Hkept' & Hset' & Hpen'); try done.
  - simpl. lia.
  - rewrite Hf0. by apply (wf_unborn _ Hwf c).
  - by rewrite Hl0, decide_True.
  - by left.
  - split; [done|]. split; [done|]. split; [done|]. split.
    { split; [|split].
      - intros y Hy. unfold w'. simpl. fold c w0. by rewrite Hfl', Hf0.
      - intros y l Hin. destruct (Hnew' y l Hin) as [H| ->]; [left; by apply Hsub0|].
        right. by exists sigs.
      - intros y l Hin Hne. apply Hkept'; [|apply Hne].
        rewrite Hl0. case_decide as Hy; [|done]. subst y.
        destruct (wf_unborn _ Hwf c) as [_ Hnil]; [done|].
        rewrite Hnil in Hin. by apply not_elem_of_nil in Hin. }
    split.
    + intros (x & Hx & Hfx). apply Hset'. exists x. by rewrite Hf0.
    + intros Hall. apply Hpen'. intros x Hx. rewrite Hf0. by apply Hall.
Qed.

(** *** Runs *)

(** A world with [n] signals, none fired, none listened to. *)
Definition initial (n : nat) : World := mkWorld (λ _, mkSignal false []) n [].

Definition exists_before (n : nat) (o : option SignalId) : bool :=
  match o with
  | Some x => x <? n
  | None => true
  end.

(** Signals are combined and listened to once they exist; [n] counts the
    signals made so far. *)
Fixpoint valid (n : nat) (ops : list Op) : bool :=
  match ops with
  | [] => true
  | Fire _ :: ops => valid n ops
  | Combine sigs :: ops => forallb (exists_before n) sigs && valid (S n) ops
  | Listen x _ :: ops => (x <? n) && valid n ops
  end.

(** The controller [c] is a local of the call that made it: nobody else
    calls [c.abort()]. *)
Definition private (c : SignalId) (ops : list Op) : bool :=
  forallb (λ o, match o with
                | Fire y => negb (y =? c)
                | _ => true
                end) ops.

Lemma wf_initial n : wf (initial n).
Proof.
  split.
  - intros x c sigs H. by apply not_elem_of_nil in H.
  - done.
  - done.
Qed.

Lemma exists_before_spec n sigs :
  forallb (exists_before n) sigs = true → ∀ x, Some x ∈ sigs → x < n.
Proof.
  rewrite forallb_forall. intros H x Hx.
  specialize (H (Some x)). simpl in H. apply Nat.ltb_lt, H.
  by apply list_elem_of_In.
Qed.

Lemma fire_unborn y w : nextSignal w ≤ y → fire y w = w.
Proof. intros H. unfold fire. by replace (nextSignal w - y) with 0 by lia. Qed.

Lemma apply_wf o w :
  wf w → valid (nextSignal w) [o] = true →
  wf (apply o w) ∧ valid (nextSignal (apply o w)) = valid
    (match o with Combine _ => S (nextSignal w) | _ => nextSignal w end).
Proof.
  intros Hwf Hv. destruct o as [y|sigs|x id]; simpl in Hv.
  - simpl. destruct (decide (y < nextSignal w)) as [Hy|Hy].
    + unfold fire. destruct (abort_wf (nextSignal w - y) y w Hwf Hy ltac:(lia))
        as (Hwf' & -> & _). done.
    + rewrite fire_unborn by lia. done.
  - apply andb_true_iff in Hv as [Hv _].
    destruct (anyAbortSignal_spec sigs w Hwf (exists_before_spec _ _ Hv))
      as (_ & Hwf' & _ & Hn & _).
    unfold apply. by rewrite Hn.
  - apply andb_true_iff in Hv as [Hv%Nat.ltb_lt _]. split; [|done].
    by apply addEventListener_wf.
Qed.

Lemma valid_cons o ops n :
  valid n (o :: ops)
  = valid n [o] && valid (match o with Combine _ => S n | _ => n end) ops.
Proof. destruct o; simpl; by rewrite ?andb_true_r. Qed.

(** Every world made by a valid run from an initial one is well formed. *)
Lemma run_wf ops : ∀ w, wf w → valid (nextSignal w) ops = true → wf (run ops w).
Proof.
  induction ops as [|o ops IH]; intros w Hwf Hv; [done|].
  rewrite valid_cons in Hv. apply andb_true_iff in Hv as [Ho Hops].
  destruct (apply_wf o w Hwf Ho) as [Hwf' Hn]. unfold run. cbn [foldl].
  apply IH; [done|]. by rewrite Hn.
Qed.

Lemma fired_input_dec (sigs : list (option SignalId)) w :
  (∃ x, Some x ∈ sigs ∧ flag w x = true) ∨ (∀ x, Some x ∈ sigs → flag w x = false).
Proof.
  induction sigs as [|[x|] sigs [(y & Hy & Hfy)|IH]].
  - right. by intros x ?%not_elem_of_nil.
  - left. exists y. split; [by right|done].
  - destruct (flag w x) eqn:Hfx.
    + left. exists x. split; [by left|done].
    + right. intros y [[= ->]|Hy]%elem_of_cons; [done|by apply IH].
  - left. exists y. split; [by right|done].
  - right. intros y [?|Hy]%elem_of_cons; [done|by apply IH].
Qed.

Section Linked.

Variable c : SignalId.
Variable sigs : list (option SignalId).

(** The state of one combination at any moment after its call: settled, or
    pending with no input fired. *)
Definition linked (w : World) : Prop :=
  ours c sigs w ∧ c < nextSignal w ∧ (∀ x, Some x ∈ sigs → x < c) ∧
  (settled c sigs w ∨ (pending c sigs w ∧ ∀ x, Some x ∈ sigs → flag w x = false)).

Lemma apply_linked o w :
  wf w → linked w → valid (nextSignal w) [o] = true → private c [o] = true →
  linked (apply o w).
Proof.
  intros Hwf (Hours & Hc & Hold & Hst) Hv Hp. destruct o as [y|sigs'|x id]; simpl in Hv, Hp.
  - simpl. destruct (decide (y < nextSignal w)) as [Hy|Hy];
      [|rewrite fire_unborn by lia; done].
    rewrite andb_true_r in Hp. apply negb_true_iff, Nat.eqb_neq in Hp.
    unfold fire.
    destruct (abort_wf (nextSignal w - y) y w Hwf Hy ltac:(lia))
      as (_ & Hn & _ & Hsub & _).
    destruct (abort_linked c sigs (nextSignal w - y) y w Hwf Hours Hy ltac:(lia) Hp)
      as [Hs Hpe].
    split; [by eapply ours_shrink|]. split; [lia|]. split; [done|].
    destruct Hst as [Hset|[Hpen Hnone]]; [left; by apply Hs|].
    destruct (Hpe Hpen) as [[Hpen' Hsame]|Hset']; [right|by left].
    split; [done|]. intros x Hx. rewrite Hsame by done. by apply Hnone.
  - apply andb_true_iff in Hv as [Hv _].
    destruct (anyAbortSignal_spec sigs' w Hwf (exists_before_spec _ _ Hv))
      as (_ & _ & _ & Hn & Hkept & _).
    assert (Hne : nextSignal w ≠ c) by lia.
    assert (Hins : ∀ x, Some x ∈ sigs → x ≠ nextSignal w).
    { intros x Hx. specialize (Hold x Hx). lia. }
    destruct (others_kept_linked c sigs _ _ _ Hne Hins Hkept) as (Ho & Hpe & Hs).
    unfold apply. split; [by apply Ho|]. split; [lia|]. split; [done|].
    destruct Hst as [Hset|[Hpen Hnone]]; [left; by apply Hs|right].
    split; [by apply Hpe|]. intros x Hx. destruct Hkept as (Hfl & _).
    rewrite Hfl by (by apply Hins). by apply Hnone.
  - simpl. split; [|split; [done|split; [done|]]].
    + intros y s' [H|[_ [=]]]%elem_of_lst_add. by eapply Hours.
    + destruct Hst as [(Hfc & [z [Hz Hfz]] & Hdet)|[[Hfc Hatt] Hnone]]; [left|right].
      * split; [by rewrite flag_add|]. split; [exists z; by rewrite flag_add|].
        intros y [H|[_ [=]]]%elem_of_lst_add. by apply (Hdet y).
      * split; [split|].
        -- by rewrite flag_add.
        -- intros y Hy. apply elem_of_lst_add. left. by apply Hatt.
        -- intros y Hy. rewrite flag_add. by apply Hnone.
Qed.

Lemma run_linked ops :
  ∀ w, wf w → linked w → valid (nextSignal w) ops = true → private c ops = true →
    wf (run ops w) ∧ linked (run ops w).
Proof.
  induction ops as [|o ops IH]; intros w Hwf Hl Hv Hp; [done|].
  rewrite valid_cons in Hv. apply andb_true_iff in Hv as [Ho Hops].
  replace (private c (o :: ops)) with (private c [o] && private c ops) in Hp
    by (unfold private; simpl; by rewrite andb_true_r).
  apply andb_true_iff in Hp as [Hpo Hpops].
  destruct (apply_wf o w Hwf Ho) as [Hwf' Hn]. unfold run. cbn [foldl].
  apply IH; [done|by apply apply_linked|by rewrite Hn|done].
Qed.

(** What a linked combination shows to an observer. *)
Lemma linked_observed w :
  wf w → linked w →
  (flag w c = true ↔ ∃ x, Some x ∈ sigs ∧ flag w x = true) ∧
  length (filter (λ y, y = c) (fired w)) = (if flag w c then 1 else 0) ∧
  (flag w c = true → ∀ x, OnAbort c sigs ∉ lst w x).
Proof.
  intros Hwf (_ & _ & _ & Hst). split; [|split].
  - destruct Hst as [(Hfc & Hex & _)|[[Hfc _] Hnone]]; [done|].
    split; [congruence|]. intros (x & Hx & Hfx). rewrite Hnone in Hfx; done.
  - apply (wf_fired _ Hwf).
  - destruct Hst as [(_ & _ & Hdet)|[[Hfc _] _]]; [done|congruence].
Qed.

End Linked.

(** C5.  [anyAbortSignal], called on any list of existing or null inputs in
    a well-formed world, returns a derived signal [c] such that: on return, [c]
    has already fired exactly when some input had; and, after any further run
    of events in which only the call's own closure aborts [c], the signal [c]
    has fired if and only if some input has, its ['abort'] event has been
    dispatched once if it has fired and never otherwise, and once it has fired
    the closure is registered on no signal at all. *)
Theorem anyAbortSignal_fires_once_with_first_input
    (sigs : list (option SignalId)) (w : World) (ops : list Op) :
  wf w → (∀ x, Some x ∈ sigs → x < nextSignal w) →
  valid (S (nextSignal w)) ops = true →
  private (anyAbortSignal sigs w).1 ops = true →
  let c := (anyAbortSignal sigs w).1 in
  let w1 := (anyAbortSignal sigs w).2 in
  let w2 := run ops w1 in
  (flag w1 c = true ↔ ∃ x, Some x ∈ sigs ∧ flag w x = true) ∧
  (flag w2 c = true ↔ ∃ x, Some x ∈ sigs ∧ flag w2 x = true) ∧
  length (filter (λ y, y = c) (fired w2)) = (if flag w2 c then 1 else 0) ∧
  (flag w2 c = true → ∀ x, OnAbort c sigs ∉ lst w2 x).
Proof.
  intros Hwf Hexist Hv Hp c w1 w2.
  destruct (anyAbortSignal_spec sigs w Hwf Hexist)
    as (Hc & Hwf1 & Hours & Hn & Hkept & Hset & Hpen).
  fold w1 in Hwf1, Hours, Hn, Hkept, Hset, Hpen.
  assert (Hl1 : linked c sigs w1 ∧
                (flag w1 c = true ↔ ∃ x, Some x ∈ sigs ∧ flag w x = true)).
  { unfold linked. destruct (fired_input_dec sigs w) as [Hex|Hnone].
    - pose proof (Hset Hex) as Hs. split; [|by destruct Hs as (? & _)].
      split; [done|]. split; [unfold c; simpl; lia|]. split; [done|]. by left.
    - pose proof (Hpen Hnone) as Hpe. split.
      + split; [done|]. split; [unfold c; simpl; lia|]. split; [done|]. right.
        split; [done|]. intros x Hx. destruct Hkept as (Hfl & _).
        rewrite Hfl; [by apply Hnone|]. specialize (Hexist x Hx). lia.
      + destruct Hpe as [Hfc _]. split; [unfold c in *; simpl in *; congruence|].
        intros (x & Hx & Hfx). rewrite Hnone in Hfx; done. }
  destruct Hl1 as [Hl1 Hsync]. split; [done|].
  destruct (run_linked c sigs ops w1 Hwf1 Hl1) as [Hwf2 Hl2];
    [by rewrite Hn|done|].
  by apply linked_observed.
Qed.

(** A run: two signals [0] and [1] exist; they are combined with a null
    entry into the signal [2]; other code listens on [0]; [1] fires; the
    derived signal is itself combined with [0] into the signal [3], which is
    thus born fired; then [0] fires, and [1] is aborted a second time. *)
Definition demoInputs : list (option SignalId) := [Some 0; None; Some 1].

Definition demoOps : list Op :=
  [Listen 0 5; Fire 1; Combine [Some 2; Some 0]; Fire 0; Fire 1].

Example demo_fired :
  fired (run demoOps (anyAbortSignal demoInputs (initial 2)).2) = [1; 2; 3; 0].
Proof. vm_compute. reflexivity. Qed.

Example demo_pending_on_return :
  flag (anyAbortSignal demoInputs (initial 2)).2 2 = false ∧
  lst (anyAbortSignal demoInputs (initial 2)).2 0 = [OnAbort 2 demoInputs] ∧
  lst (anyAbortSignal demoInputs (initial 2)).2 1 = [OnAbort 2 demoInputs].
Proof. vm_compute. done. Qed.

Lemma anyAbortSignal_fires_once_demo :
  let c := (anyAbortSignal demoInputs (initial 2)).1 in
  let w2 := run demoOps (anyAbortSignal demoInputs (initial 2)).2 in
  c = 2 ∧ fired w2 = [1; 2; 3; 0] ∧
  (flag w2 c = true ↔ ∃ x, Some x ∈ demoInputs ∧ flag w2 x = true) ∧
  length (filter (λ y, y = c) (fired w2)) = (if flag w2 c then 1 else 0) ∧
  (flag w2 c = true → ∀ x, OnAbort c demoInputs ∉ lst w2 x).
Proof.
  pose proof (anyAbortSignal_fires_once_with_first_input demoInputs (initial 2) demoOps
                (wf_initial 2) (exists_before_spec 2 demoInputs eq_refl)
                eq_refl eq_refl) as H.
  cbv zeta in *. destruct H as (_ & Hiff & Hone & Hdet).
  split; [reflexivity|]. split; [exact demo_fired|].
  split; [exact Hiff|]. split; [exact Hone|exact Hdet].
Defined.

(** *** What one call leaves behind *)

Lemma filter_absent (l : Listener) (ls : list Listener) :
  l ∉ ls → filter (λ l', l' ≠ l) ls = ls.
Proof.
  induction ls as [|a ls IH]; [done|]. intros [Hne Hls]%not_elem_of_cons.
  rewrite filter_cons, decide_True by done. by rewrite IH.
Qed.

Lemma filter_appended (l : Listener) (ls : list Listener) :
  l ∉ ls → filter (λ l', l' ≠ l) (ls ++ [l]) = ls.
Proof.
  intros H. rewrite filter_app, filter_absent by done.
  rewrite filter_cons, decide_False by (by intros ?). by rewrite filter_nil, app_nil_r.
Qed.

(** The loop of [anyAbortSignal] from any point on, listener list by
    listener list: [seen] are the inputs visited so far, [w0] is the world in
    which the loop started. *)
Lemma subscribe_exact c sigs (w0 : World) rest :
  (∀ x, OnAbort c sigs ∉ lst w0 x) → flag w0 c = false → lst w0 c = [] →
  c < nextSignal w0 → Some c ∉ sigs →
  ∀ seen w,
    sigs = seen ++ rest →
    (∀ x, lst w x = if decide (Some x ∈ seen) then lst w0 x ++ [OnAbort c sigs]
                    else lst w0 x) →
    (∀ x, flag w x = flag w0 x) → fired w = fired w0 → nextSignal w = nextSignal w0 →
    nextSignal (subscribe c sigs rest w) = nextSignal w0 ∧
    ((∃ x, Some x ∈ rest ∧ flag w0 x = true) →
       (∀ x, lst (subscribe c sigs rest w) x = lst w0 x) ∧
       (∀ x, flag (subscribe c sigs rest w) x = if decide (x = c) then true else flag w0 x) ∧
       fired (subscribe c sigs rest w) = fired w0 ++ [c]) ∧
    ((∀ x, Some x ∈ rest → flag w0 x = false) →
       (∀ x, lst (subscribe c sigs rest w) x
             = if decide (Some x ∈ sigs) then lst w0 x ++ [OnAbort c sigs] else lst w0 x) ∧
       (∀ x, flag (subscribe c sigs rest w) x = flag w0 x) ∧
       fired (subscribe c sigs rest w) = fired w0).
Proof.
  intros Hfresh Hfc Hlc Hc Hcs.
  induction rest as [|[x|] rest IH]; intros seen w Hsplit Hl Hf Hfi Hn; cbn [subscribe].
  - rewrite app_nil_r in Hsplit. subst seen. split; [done|]. split.
    + intros (x & Hx & _). by apply not_elem_of_nil in Hx.
    + by intros _.
  - change (aborted (signals w x)) with (flag w x). rewrite Hf.
    destruct (flag w0 x) eqn:Hfx.
    + (* an input that has already fired *)
      unfold onAbort, fire. rewrite Hn.
      destruct (nextSignal w0 - c) as [|fuel] eqn:Hfuel; [lia|].
      assert (Hlwc : lst w c = []).
      { rewrite Hl, decide_False; [done|]. intros H. apply Hcs. rewrite Hsplit.
        apply elem_of_app. by left. }
      rewrite abort_unheard by (by rewrite ?Hf).
      destruct (cleanup_spec (OnAbort c sigs) sigs (mark c w)) as (Hcn & Hcfi & Hcf & Hcl).
      split; [by rewrite Hcn|]. split.
      * intros _. split; [|split].
        -- intros y. rewrite Hcl, lst_mark, Hl.
           destruct (decide (Some y ∈ seen)) as [Hy|Hy].
           ++ rewrite decide_True by (rewrite Hsplit; apply elem_of_app; by left).
              by apply filter_appended.
           ++ case_decide; [|done]. by apply filter_absent.
        -- intros y. rewrite Hcf, flag_mark, Hf. by repeat case_decide.
        -- rewrite Hcfi. simpl. by rewrite Hfi.
      * intros Hall. rewrite Hall in Hfx; [done|left].
    + (* the closure is registered, unless it is already *)
      destruct (IH (seen ++ [Some x]) (addEventListener x (OnAbort c sigs) w))
        as (Hn' & Hab' & Hpe').
      * by rewrite <- app_assoc.
      * intros y. rewrite lst_add, Hl.
        destruct (decide (x = y)) as [->|Hne].
        -- rewrite (decide_True (P := Some y ∈ seen ++ [Some y]))
             by (apply elem_of_app; right; left).
           destruct (decide (Some y ∈ seen)) as [Hy|Hy].
           ++ rewrite decide_True; [done|]. apply elem_of_app. right. left.
           ++ by rewrite decide_False by apply Hfresh.
        -- destruct (decide (Some y ∈ seen)) as [Hy|Hy].
           ++ rewrite decide_True; [done|]. apply elem_of_app. by left.
           ++ rewrite decide_False; [done|].
              intros [?|[=]%list_elem_of_singleton]%elem_of_app; done.
      * intros y. by rewrite flag_add.
      * done.
      * done.
      * split; [done|]. split.
        -- intros (y & [[= ->]|Hy]%elem_of_cons & Hfy); [congruence|].
           apply Hab'. by exists y.
        -- intros Hall. apply Hpe'. intros y Hy. apply Hall. by right.
  - destruct (IH (seen ++ [None]) w) as (Hn' & Hab' & Hpe'); try done.
    + by rewrite <- app_assoc.
    + intros y. rewrite Hl.
      destruct (decide (Some y ∈ seen)) as [Hy|Hy].
      * rewrite decide_True; [done|]. apply elem_of_app. by left.
      * rewrite decide_False; [done|].
        intros [?|[=]%list_elem_of_singleton]%elem_of_app; done.
    + split; [done|]. split.
      * intros (y & [[=]|Hy]%elem_of_cons & Hfy). apply Hab'. by exists y.
      * intros Hall. apply Hpe'. intros y Hy. apply Hall. by right.
Qed.

(** The world in which the loop starts: the one of the call, with the new
    controller. *)
Lemma anyAbortSignal_exact sigs w :
  wf w → (∀ x, Some x ∈ sigs → x < nextSignal w) →
  let c := nextSignal w in
  let w' := (anyAbortSignal sigs w).2 in
  nextSignal w' = S c ∧
  ((∃ x, Some x ∈ sigs ∧ flag w x = true) →
     (∀ x, lst w' x = lst w x) ∧
     (∀ x, flag w' x = if decide (x = c) then true else flag w x) ∧
     fired w' = fired w ++ [c]) ∧
  ((∀ x, Some x ∈ sigs → flag w x = false) →
     (∀ x, lst w' x = if decide (Some x ∈ sigs) then lst w x ++ [OnAbort c sigs]
                      else lst w x) ∧
     (∀ x, flag w' x = flag w x) ∧
     fired w' = fired w).
Proof.
  intros Hwf Hexist c w'.
  set (w0 := mkWorld (<[c := mkSignal false []]> (signals w)) (S c) (fired w)).
  assert (Hl0 : ∀ y, lst w0 y = lst w y).
  { intros y. unfold lst, w0. simpl. destruct (decide (c = y)) as [<-|H].
    - rewrite fn_lookup_insert. simpl. symmetry. by apply (wf_unborn _ Hwf c).
    - by rewrite fn_lookup_insert_ne. }
  assert (Hf0 : ∀ y, flag w0 y = flag w y).
  { intros y. unfold flag, w0. simpl. destruct (decide (c = y)) as [<-|H].
    - rewrite fn_lookup_insert. simpl. symmetry. by apply (wf_unborn _ Hwf c).
    - by rewrite fn_lookup_insert_ne. }
  destruct (subscribe_exact c sigs w0 sigs) with (seen := @nil (option SignalId)) (w := w0)
    as (Hn & Hab & Hpe).
  - intros x H. rewrite Hl0 in H.
    destruct (wf_listeners _ Hwf x c sigs H) as (_ & _ & ?). unfold c in *. lia.
  - rewrite Hf0. by apply (wf_unborn _ Hwf c).
  - rewrite Hl0. by apply (wf_unborn _ Hwf c).
  - simpl. lia.
  - intros H. specialize (Hexist c H). unfold c in *. lia.
  - done.
  - intros x. rewrite decide_False; [done|]. by intros ?%not_elem_of_nil.
  - done.
  - done.
  - done.
  - split; [done|]. split.
    + intros (x & Hx & Hfx). destruct Hab as (H1 & H2 & H3); [exists x; by rewrite Hf0|].
      split; [|split].
      * intros y. unfold w'. simpl. fold c w0. by rewrite H1.
      * intros y. unfold w'. simpl. fold c w0. by rewrite H2, Hf0.
      * done.
    + intros Hall. destruct Hpe as (H1 & H2 & H3); [intros x Hx; rewrite Hf0; by apply Hall|].
      split; [|split].
      * intros y. unfold w'. simpl. fold c w0. by rewrite H1, Hl0.
      * intros y. unfold w'. simpl. fold c w0. by rewrite H2.
      * done.
Qed.

(** X3. If some input has already fired when [anyAbortSignal] is called,
    the call leaves every signal's listener list exactly as it was (the
    closure registered on the inputs visited before the fired one is removed
    again, and no other listener is touched), fires no signal but the new
    one, and dispatches one ['abort'] event, the new signal's. *)
Theorem anyAbortSignal_on_fired_input_restores_listeners
    (sigs : list (option SignalId)) (w : World) :
  wf w → (∀ x, Some x ∈ sigs → x < nextSignal w) →
  (∃ x, Some x ∈ sigs ∧ flag w x = true) →
  let c := nextSignal w in
  let w' := (anyAbortSignal sigs w).2 in
  (anyAbortSignal sigs w).1 = c ∧
  (∀ x, lst w' x = lst w x) ∧
  (∀ x, flag w' x = if decide (x = c) then true else flag w x) ∧
  fired w' = fired w ++ [c].
Proof.
  intros Hwf Hexist Hfired c w'.
  destruct (anyAbortSignal_exact sigs w Hwf Hexist) as (_ & Hab & _).
  split; [done|]. by apply Hab.
Qed.

(** X4. If no input has fired when [anyAbortSignal] is called, the call
    fires nothing and dispatches nothing, and it registers its closure exactly
    once on every signal that occurs among the inputs, after the listeners the
    signal already has, however often the signal occurs; the listeners of all
    other signals stay as they are. *)
Theorem anyAbortSignal_registers_once_per_input
    (sigs : list (option SignalId)) (w : World) :
  wf w → (∀ x, Some x ∈ sigs → x < nextSignal w) →
  (∀ x, Some x ∈ sigs → flag w x = false) →
  let c := nextSignal w in
  let w' := (anyAbortSignal sigs w).2 in
  (anyAbortSignal sigs w).1 = c ∧
  (∀ x, lst w' x = if decide (Some x ∈ sigs) then lst w x ++ [OnAbort c sigs]
                   else lst w x) ∧
  (∀ x, flag w' x = flag w x) ∧
  fired w' = fired w.
Proof.
  intros Hwf Hexist Hnone c w'.
  destruct (anyAbortSignal_exact sigs w Hwf Hexist) as (_ & _ & Hpe).
  split; [done|]. by apply Hpe.
Qed.

(** *** Combinations of combinations *)

Lemma exists_before_intro n (sigs : list (option SignalId)) :
  (∀ x, Some x ∈ sigs → x < n) → forallb (exists_before n) sigs = true.
Proof.
  intros H. apply forallb_forall. intros [x|] Hx; [|done].
  apply Nat.ltb_lt, H. by apply list_elem_of_In.
Qed.

Lemma anyAbortSignal_linked sigs w :
  wf w → (∀ x, Some x ∈ sigs → x < nextSignal w) →
  wf (anyAbortSignal sigs w).2 ∧
  nextSignal (anyAbortSignal sigs w).2 = S (nextSignal w) ∧
  linked (nextSignal w) sigs (anyAbortSignal sigs w).2.
Proof.
  intros Hwf Hexist.
  destruct (anyAbortSignal_spec sigs w Hwf Hexist)
    as (_ & Hwf1 & Hours & Hn & Hkept & Hset & Hpen).
  split; [done|]. split; [done|].
  split; [done|]. split; [rewrite Hn; lia|]. split; [done|].
  destruct (fired_input_dec sigs w) as [Hex|Hnone]; [left; by apply Hset|right].
  split; [by apply Hpen|]. intros x Hx. destruct Hkept as (Hfl & _).
  rewrite Hfl; [by apply Hnone|]. specialize (Hexist x Hx). lia.
Qed.

(** X5. A combination used as an input of another one: the signal of
    [anyAbortSignal(anyAbortSignal(...as), ...bs)] has fired, after any run of
    events, exactly when one of the [as] or of the [bs] has. *)
Theorem nested_combination_fires_with_any_leaf
    (inner bs : list (option SignalId)) (w : World) (ops : list Op) :
  wf w →
  (∀ x, Some x ∈ inner → x < nextSignal w) → (∀ x, Some x ∈ bs → x < nextSignal w) →
  valid (S (S (nextSignal w))) ops = true →
  private (nextSignal w) ops = true → private (S (nextSignal w)) ops = true →
  let c1 := (anyAbortSignal inner w).1 in
  let w1 := (anyAbortSignal inner w).2 in
  let c2 := (anyAbortSignal (Some c1 :: bs) w1).1 in
  let w2 := (anyAbortSignal (Some c1 :: bs) w1).2 in
  let w3 := run ops w2 in
  flag w3 c2 = true ↔ ∃ x, Some x ∈ inner ++ bs ∧ flag w3 x = true.
Proof.
  intros Hwf Hin Hbs Hv Hp1 Hp2 c1 w1 c2 w2 w3.
  destruct (anyAbortSignal_linked inner w Hwf Hin) as (Hwf1 & Hn1 & Hl1).
  fold w1 in Hwf1, Hn1, Hl1. change (nextSignal w) with c1 in *.
  assert (Hexist2 : ∀ x, Some x ∈ Some c1 :: bs → x < nextSignal w1).
  { intros x [[= ->]|Hx]%elem_of_cons; rewrite Hn1; [lia|]. specialize (Hbs x Hx). lia. }
  destruct (anyAbortSignal_linked (Some c1 :: bs) w1 Hwf1 Hexist2) as (Hwf2 & Hn2 & Hl2).
  fold w2 in Hwf2, Hn2, Hl2.
  assert (Hc2 : c2 = S c1) by (unfold c2; simpl; by rewrite Hn1).
  rewrite Hn1 in Hl2, Hn2. rewrite <- Hc2 in Hl2.
  assert (Hl1' : linked c1 inner w2).
  { apply (apply_linked c1 inner (Combine (Some c1 :: bs)) w1 Hwf1 Hl1); [|done].
    cbn [valid]. rewrite andb_true_r. by apply exists_before_intro. }
  destruct (run_linked c1 inner ops w2 Hwf2 Hl1') as [Hwf3 Hl13]; [by rewrite Hn2|done|].
  destruct (run_linked c2 (Some c1 :: bs) ops w2 Hwf2 Hl2) as [_ Hl23];
    [by rewrite Hn2|by rewrite Hc2|].
  fold w3 in Hwf3, Hl13, Hl23.
  destruct (linked_observed c1 inner w3 Hwf3 Hl13) as (Hiff1 & _).
  destruct (linked_observed c2 (Some c1 :: bs) w3 Hwf3 Hl23) as (Hiff2 & _).
  rewrite Hiff2. split.
  - intros (x & [[= ->]|Hx]%elem_of_cons & Hfx).
    + apply Hiff1 in Hfx as (y & Hy & Hfy). exists y. split; [|done].
      apply elem_of_app. by left.
    + exists x. split; [|done]. apply elem_of_app. by right.
  - intros (x & [Hx|Hx]%elem_of_app & Hfx).
    + exists c1. split; [left|]. apply Hiff1. by exists x.
    + exists x. split; [by right|done].
Qed.

(** *** The calls at concrete worlds *)

(** Other code listens on [0], and [1] has fired. *)
Definition demoFired : World := run [Listen 0 5; Fire 1] (initial 2).

Example demoFired_state :
  flag demoFired 1 = true ∧ lst demoFired 0 = [Other 5] ∧ fired demoFired = [1] ∧
  nextSignal demoFired = 2.
Proof. vm_compute. done. Qed.

Lemma demoInputs_exist : ∀ x, Some x ∈ demoInputs → x < 2.
Proof. exact (exists_before_spec 2 demoInputs eq_refl). Qed.

Lemma anyAbortSignal_on_fired_input_demo :
  (∀ x, lst (anyAbortSignal demoInputs demoFired).2 x = lst demoFired x) ∧
  fired (anyAbortSignal demoInputs demoFired).2 = fired demoFired ++ [nextSignal demoFired].
Proof.
  destruct demoFired_state as (Hf1 & _ & _ & Hn).
  assert (Hwf : wf demoFired) by (apply run_wf; [apply wf_initial|reflexivity]).
  assert (Hexist : ∀ x, Some x ∈ demoInputs → x < nextSignal demoFired)
    by (rewrite Hn; exact demoInputs_exist).
  assert (Hfired : ∃ x, Some x ∈ demoInputs ∧ flag demoFired x = true).
  { exists 1. split; [|exact Hf1]. right. right. left. }
  destruct (anyAbortSignal_on_fired_input_restores_listeners demoInputs demoFired
              Hwf Hexist Hfired) as (_ & Hl & _ & Hfi).
  split; [exact Hl|exact Hfi].
Defined.

Lemma anyAbortSignal_registers_once_demo :
  (∀ x, lst (anyAbortSignal [Some 0; Some 0; None] (initial 2)).2 x
        = if decide (Some x ∈ [Some 0; Some 0; None])
          then lst (initial 2) x ++ [OnAbort 2 [Some 0; Some 0; None]]
          else lst (initial 2) x) ∧
  fired (anyAbortSignal [Some 0; Some 0; None] (initial 2)).2 = [].
Proof.
  assert (Hexist : ∀ x, Some x ∈ [Some 0; Some 0; None] → x < nextSignal (initial 2))
    by exact (exists_before_spec 2 [Some 0; Some 0; None] eq_refl).
  assert (Hnone : ∀ x, Some x ∈ [Some 0; Some 0; None] → flag (initial 2) x = false)
    by done.
  destruct (anyAbortSignal_registers_once_per_input [Some 0; Some 0; None] (initial 2)
              (wf_initial 2) Hexist Hnone) as (_ & Hl & _ & Hfi).
  split; [exact Hl|exact Hfi].
Defined.

Example demo_nested_fired :
  flag (run [Fire 0] (anyAbortSignal [Some 2; Some 1]
                        (anyAbortSignal [Some 0] (initial 2)).2).2) 3 = true.
Proof. vm_compute. reflexivity. Qed.

Lemma nested_combination_demo :
  flag (run [Fire 0] (anyAbortSignal [Some 2; Some 1]
                        (anyAbortSignal [Some 0] (initial 2)).2).2) 3 = true ∧
  ∃ x, Some x ∈ [Some 0] ++ [Some 1] ∧
       flag (run [Fire 0] (anyAbortSignal [Some 2; Some 1]
                             (anyAbortSignal [Some 0] (initial 2)).2).2) x = true.
Proof.
  split; [exact demo_nested_fired|].
  apply (nested_combination_fires_with_any_leaf [Some 0] [Some 1] (initial 2) [Fire 0]
           (wf_initial 2) (exists_before_spec 2 [Some 0] eq_refl)
           (exists_before_spec 2 [Some 1] eq_refl) eq_refl eq_refl eq_refl).
  exact demo_nested_fired.
Defined.

End AnyAbortSignal.

(** ** The runtime *)

Module Runtime.

(** Object identities. *)
Abbreviation ProjectId := nat.
Abbreviation Monitor := nat.
Abbreviation Target := nat.
Abbreviation Block := nat.
Abbreviation StageId := nat.
Abbreviation RendererId := nat.
Abbreviation ViewId := nat.
Abbreviation TimerId := nat.
(** An [AbortController] and its [signal] share one identity. *)
Abbreviation Signal := nat.

(** Modelled from the spec: [Rectangle] (rectangle.ts is not among the
    sources).  [Rectangle.fromBounds(left, right, bottom, top)] stores the four
    bounds; the spec's "logical project-space width/height" are the extents
    [right - left] and [top - bottom]. *)
Record Rectangle := fromBounds {
  left : float;
  right : float;
  bottom : float;
  top : float
}.

Definition width (r : Rectangle) : float := (right r - left r)%float.
Definition height (r : Rectangle) : float := (top r - bottom r)%float.

(** [public stageBounds = Rectangle.fromBounds(-240, 240, -180, 180)] *)
Definition stageBounds : Rectangle :=
  fromBounds (-240)%float 240%float (-180)%float 180%float.

(** What [getBoundingClientRect()] returns, as far as the runtime reads it. *)
Record DOMRect := mkDOMRect {
  rect_left : float;
  rect_top : float;
  rect_width : float;
  rect_height : float
}.

Record PointerEvent := mkPointerEvent {
  clientX : float;
  clientY : float
}.

(** The fields of a [Monitor] that the runtime reads or writes. *)
Record MonitorData := mkMonitor {
  visible : bool;
  position : option (float * float);
  target : option Target;
  colorCategory : option string;        (* monitor.block.proto.colorCategory *)
  monitorSliderHandler : bool            (* is block.proto.monitorSliderHandler set *)
}.

(** One element of [project.monitors]. *)
Record MonitorEntry := mkEntry {
  monitor : Monitor;
  updateMonitorBlock : Block
}.

(** The fields of a [Project] that the runtime reads. *)
Record ProjectData := mkProject {
  monitorsOf : list MonitorEntry;       (* project.monitors *)
  stageOf : option Target;              (* project.stage *)
  targetsOf : list Target               (* project.targets *)
}.

(** Calls into collaborators, as they appear in the source. *)
Inductive Event :=
| EvInterpreterSetProject (p : option ProjectId)
| EvInterpreterSetRenderer (r : option RendererId)
| EvProjectRegister (p : ProjectId)
| EvProjectUnregister (p : ProjectId)
| EvSetInterval (t : TimerId)
| EvClearInterval (t : TimerId)
| EvStepThreads
| EvLaunch (b : Block) (t : Target)
| EvDraw (r : RendererId) (p : ProjectId)
| EvRendererCreate (r : RendererId) (st : StageId)
| EvRendererDestroy (r : RendererId)
| EvPenLayerClear (r : RendererId)
| EvAbort (c : Signal)
| EvCreateMonitorView (st : StageId) (v : ViewId)
| EvViewRemove (v : ViewId)
| EvViewUpdate (v : ViewId) (m : Monitor)
| EvViewSetColor (v : ViewId) (category : string)
| EvPreventDefault
| EvStartHats (key : string).

#[global] Instance Event_eq_dec : EqDecision Event.
Proof. solve_decision. Defined.

Inductive Error :=
| CannotStepWithoutProject      (* 'Cannot step without a project' *)
| ProjectHasNoStage.            (* 'Project has no stage' *)

(** How a call ends: it returns, or it throws. *)
Inductive Outcome :=
| Returned
| Threw (e : Error).

(** The runtime instance ([this]), its [IO] object, and the part of the heap and
    of the DOM that it reaches. *)
Record State := mkState {
  project : option ProjectId;  (* this.project *)
  renderer : option RendererId;  (* this.renderer *)
  stage : option StageId;  (* this.stage *)
  monitorViews : gmap Monitor (ViewId * Signal);  (* this.monitorViews: monitor to {view, abort} *)
  steppingInterval : option TimerId;  (* this.steppingInterval *)
  unregisterPreviousProject : option (ProjectId * Signal);  (* the closure, as the [project] and [controller] it captures *)
  unsetPreviousStage : option (RendererId * option Signal);  (* the closure, as the [renderer] and the listeners' controller it captures *)
  keysDown : gset string;  (* this.io.keysDown *)
  mouseDown : bool;  (* this.io.mouseDown *)
  mousePosition : float * float;  (* this.io.mousePosition *)
  projectHeap : ProjectId -> ProjectData;  (* the Project objects *)
  monitorHeap : Monitor -> MonitorData;  (* the Monitor objects *)
  viewBounds : ViewId -> option Rectangle;  (* view.getBounds() *)
  viewLayout : ViewId -> list Rectangle -> float * float;  (* view.layout(rects) *)
  penLayers : RendererId -> bool;  (* does renderer.penLayer exist *)
  aborted : gset Signal;  (* the signals that have fired *)
  createListeners : list (ProjectId * Signal);  (* 'createmonitor' listeners on projects *)
  updateListeners : list (Monitor * Signal);  (* 'updatemonitor' listeners on monitors *)
  sliderListeners : list (ViewId * Signal);  (* 'sliderchange' listeners on views *)
  inputListeners : list (StageId * Signal);  (* the pointer and key listeners of a stage *)
  nextId : nat;  (* the next fresh object identity *)
  trace : list Event  (* calls into collaborators so far, oldest first *)
}.

Definition set_project (v : option ProjectId) (s : State) : State :=
  mkState v (renderer s) (stage s) (monitorViews s) (steppingInterval s)
    (unregisterPreviousProject s) (unsetPreviousStage s) (keysDown s) (mouseDown s)
    (mousePosition s) (projectHeap s) (monitorHeap s) (viewBounds s) (viewLayout s)
    (penLayers s) (aborted s) (createListeners s) (updateListeners s) (sliderListeners s)
    (inputListeners s) (nextId s) (trace s).

Definition set_renderer (v : option RendererId) (s : State) : State :=
  mkState (project s) v (stage s) (monitorViews s) (steppingInterval s)
    (unregisterPreviousProject s) (unsetPreviousStage s) (keysDown s) (mouseDown s)
    (mousePosition s) (projectHeap s) (monitorHeap s) (viewBounds s) (viewLayout s)
    (penLayers s) (aborted s) (createListeners s) (updateListeners s) (sliderListeners s)
    (inputListeners s) (nextId s) (trace s).

Definition set_stage (v : option StageId) (s : State) : State :=
  mkState (project s) (renderer s) v (monitorViews s) (steppingInterval s)
    (unregisterPreviousProject s) (unsetPreviousStage s) (keysDown s) (mouseDown s)
    (mousePosition s) (projectHeap s) (monitorHeap s) (viewBounds s) (viewLayout s)
    (penLayers s) (aborted s) (createListeners s) (updateListeners s) (sliderListeners s)
    (inputListeners s) (nextId s) (trace s).

Definition set_monitorViews (v : gmap Monitor (ViewId * Signal)) (s : State) : State :=
  mkState (project s) (renderer s) (stage s) v (steppingInterval s)
    (unregisterPreviousProject s) (unsetPreviousStage s) (keysDown s) (mouseDown s)
    (mousePosition s) (projectHeap s) (monitorHeap s) (viewBounds s) (viewLayout s)
    (penLayers s) (aborted s) (createListeners s) (updateListeners s) (sliderListeners s)
    (inputListeners s) (nextId s) (trace s).

Definition set_steppingInterval (v : option TimerId) (s : State) : State :=
  mkState (project s) (renderer s) (stage s) (monitorViews s) v
    (unregisterPreviousProject s) (unsetPreviousStage s) (keysDown s) (mouseDown s)
    (mousePosition s) (projectHeap s) (monitorHeap s) (viewBounds s) (viewLayout s)
    (penLayers s) (aborted s) (createListeners s) (updateListeners s) (sliderListeners s)
    (inputListeners s) (nextId s) (trace s).

Definition set_unregisterPreviousProject (v : option (ProjectId * Signal)) (s : State) : State :=
  mkState (project s) (renderer s) (stage s) (monitorViews s) (steppingInterval s) v
    (unsetPreviousStage s) (keysDown s) (mouseDown s) (mousePosition s) (projectHeap s)
    (monitorHeap s) (viewBounds s) (viewLayout s) (penLayers s) (aborted s)
    (createListeners s) (updateListeners s) (sliderListeners s) (inputListeners s) (nextId
    s) (trace s).

Definition set_unsetPreviousStage (v : option (RendererId * option Signal)) (s : State) : State :=
  mkState (project s) (renderer s) (stage s) (monitorViews s) (steppingInterval s)
    (unregisterPreviousProject s) v (keysDown s) (mouseDown s) (mousePosition s)
    (projectHeap s) (monitorHeap s) (viewBounds s) (viewLayout s) (penLayers s) (aborted
    s) (createListeners s) (updateListeners s) (sliderListeners s) (inputListeners s)
    (nextId s) (trace s).

Definition set_keysDown (v : gset string) (s : State) : State :=
  mkState (project s) (renderer s) (stage s) (monitorViews s) (steppingInterval s)
    (unregisterPreviousProject s) (unsetPreviousStage s) v (mouseDown s) (mousePosition s)
    (projectHeap s) (monitorHeap s) (viewBounds s) (viewLayout s) (penLayers s) (aborted
    s) (createListeners s) (updateListeners s) (sliderListeners s) (inputListeners s)
    (nextId s) (trace s).

Definition set_mouseDown (v : bool) (s : State) : State :=
  mkState (project s) (renderer s) (stage s) (monitorViews s) (steppingInterval s)
    (unregisterPreviousProject s) (unsetPreviousStage s) (keysDown s) v (mousePosition s)
    (projectHeap s) (monitorHeap s) (viewBounds s) (viewLayout s) (penLayers s) (aborted
    s) (createListeners s) (updateListeners s) (sliderListeners s) (inputListeners s)
    (nextId s) (trace s).

Definition set_mousePosition (v : float * float) (s : State) : State :=
  mkState (project s) (renderer s) (stage s) (monitorViews s) (steppingInterval s)
    (unregisterPreviousProject s) (unsetPreviousStage s) (keysDown s) (mouseDown s) v
    (projectHeap s) (monitorHeap s) (viewBounds s) (viewLayout s) (penLayers s) (aborted
    s) (createListeners s) (updateListeners s) (sliderListeners s) (inputListeners s)
    (nextId s) (trace s).

Definition set_projectHeap (v : ProjectId -> ProjectData) (s : State) : State :=
  mkState (project s) (renderer s) (stage s) (monitorViews s) (steppingInterval s)
    (unregisterPreviousProject s) (unsetPreviousStage s) (keysDown s) (mouseDown s)
    (mousePosition s) v (monitorHeap s) (viewBounds s) (viewLayout s) (penLayers s)
    (aborted s) (createListeners s) (updateListeners s) (sliderListeners s)
    (inputListeners s) (nextId s) (trace s).

Definition set_monitorHeap (v : Monitor -> MonitorData) (s : State) : State :=
  mkState (project s) (renderer s) (stage s) (monitorViews s) (steppingInterval s)
    (unregisterPreviousProject s) (unsetPreviousStage s) (keysDown s) (mouseDown s)
    (mousePosition s) (projectHeap s) v (viewBounds s) (viewLayout s) (penLayers s)
    (aborted s) (createListeners s) (updateListeners s) (sliderListeners s)
    (inputListeners s) (nextId s) (trace s).

Definition set_viewBounds (v : ViewId -> option Rectangle) (s : State) : State :=
  mkState (project s) (renderer s) (stage s) (monitorViews s) (steppingInterval s)
    (unregisterPreviousProject s) (unsetPreviousStage s) (keysDown s) (mouseDown s)
    (mousePosition s) (projectHeap s) (monitorHeap s) v (viewLayout s) (penLayers s)
    (aborted s) (createListeners s) (updateListeners s) (sliderListeners s)
    (inputListeners s) (nextId s) (trace s).

Definition set_viewLayout (v : ViewId -> list Rectangle -> float * float) (s : State) : State :=
  mkState (project s) (renderer s) (stage s) (monitorViews s) (steppingInterval s)
    (unregisterPreviousProject s) (unsetPreviousStage s) (keysDown s) (mouseDown s)
    (mousePosition s) (projectHeap s) (monitorHeap s) (viewBounds s) v (penLayers s)
    (aborted s) (createListeners s) (updateListeners s) (sliderListeners s)
    (inputListeners s) (nextId s) (trace s).

Definition set_penLayers (v : RendererId -> bool) (s : State) : State :=
  mkState (project s) (renderer s) (stage s) (monitorViews s) (steppingInterval s)
    (unregisterPreviousProject s) (unsetPreviousStage s) (keysDown s) (mouseDown s)
    (mousePosition s) (projectHeap s) (monitorHeap s) (viewBounds s) (viewLayout s) v
    (aborted s) (createListeners s) (updateListeners s) (sliderListeners s)
    (inputListeners s) (nextId s) (trace s).

Definition set_aborted (v : gset Signal) (s : State) : State :=
  mkState (project s) (renderer s) (stage s) (monitorViews s) (steppingInterval s)
    (unregisterPreviousProject s) (unsetPreviousStage s) (keysDown s) (mouseDown s)
    (mousePosition s) (projectHeap s) (monitorHeap s) (viewBounds s) (viewLayout s)
    (penLayers s) v (createListeners s) (updateListeners s) (sliderListeners s)
    (inputListeners s) (nextId s) (trace s).

Definition set_createListeners (v : list (ProjectId * Signal)) (s : State) : State :=
  mkState (project s) (renderer s) (stage s) (monitorViews s) (steppingInterval s)
    (unregisterPreviousProject s) (unsetPreviousStage s) (keysDown s) (mouseDown s)
    (mousePosition s) (projectHeap s) (monitorHeap s) (viewBounds s) (viewLayout s)
    (penLayers s) (aborted s) v (updateListeners s) (sliderListeners s) (inputListeners s)
    (nextId s) (trace s).

Definition set_updateListeners (v : list (Monitor * Signal)) (s : State) : State :=
  mkState (project s) (renderer s) (stage s) (monitorViews s) (steppingInterval s)
    (unregisterPreviousProject s) (unsetPreviousStage s) (keysDown s) (mouseDown s)
    (mousePosition s) (projectHeap s) (monitorHeap s) (viewBounds s) (viewLayout s)
    (penLayers s) (aborted s) (createListeners s) v (sliderListeners s) (inputListeners s)
    (nextId s) (trace s).

Definition set_sliderListeners (v : list (ViewId * Signal)) (s : State) : State :=
  mkState (project s) (renderer s) (stage s) (monitorViews s) (steppingInterval s)
    (unregisterPreviousProject s) (unsetPreviousStage s) (keysDown s) (mouseDown s)
    (mousePosition s) (projectHeap s) (monitorHeap s) (viewBounds s) (viewLayout s)
    (penLayers s) (aborted s) (createListeners s) (updateListeners s) v (inputListeners s)
    (nextId s) (trace s).

Definition set_inputListeners (v : list (StageId * Signal)) (s : State) : State :=
  mkState (project s) (renderer s) (stage s) (monitorViews s) (steppingInterval s)
    (unregisterPreviousProject s) (unsetPreviousStage s) (keysDown s) (mouseDown s)
    (mousePosition s) (projectHeap s) (monitorHeap s) (viewBounds s) (viewLayout s)
    (penLayers s) (aborted s) (createListeners s) (updateListeners s) (sliderListeners s)
    v (nextId s) (trace s).

Definition set_nextId (v : nat) (s : State) : State :=
  mkState (project s) (renderer s) (stage s) (monitorViews s) (steppingInterval s)
    (unregisterPreviousProject s) (unsetPreviousStage s) (keysDown s) (mouseDown s)
    (mousePosition s) (projectHeap s) (monitorHeap s) (viewBounds s) (viewLayout s)
    (penLayers s) (aborted s) (createListeners s) (updateListeners s) (sliderListeners s)
    (inputListeners s) v (trace s).

Definition set_trace (v : list Event) (s : State) : State :=
  mkState (project s) (renderer s) (stage s) (monitorViews s) (steppingInterval s)
    (unregisterPreviousProject s) (unsetPreviousStage s) (keysDown s) (mouseDown s)
    (mousePosition s) (projectHeap s) (monitorHeap s) (viewBounds s) (viewLayout s)
    (penLayers s) (aborted s) (createListeners s) (updateListeners s) (sliderListeners s)
    (inputListeners s) (nextId s) v.

(** *** Platform primitives *)

Definition emit (e : Event) (s : State) : State :=
  set_trace (trace s ++ [e]) s.

(** [new AbortController()], [setInterval(...)], [new Renderer(...)],
    [createMonitorView()]: each returns an object not seen before. *)
Definition alloc (s : State) : nat * State :=
  (nextId s, set_nextId (S (nextId s)) s).

Definition without {A} (c : Signal) (ls : list (A * Signal)) : list (A * Signal) :=
  filter (λ l, l.2 ≠ c) ls.

(** [controller.abort()]: nothing if the signal has already fired; otherwise
    the signal fires and every listener that was registered with
    [{signal}] is removed from its event target. *)
Definition abort (c : Signal) (s : State) : State :=
  if decide (c ∈ aborted s) then s
  else
    emit (EvAbort c)
      (set_inputListeners (without c (inputListeners s))
      (set_sliderListeners (without c (sliderListeners s))
      (set_updateListeners (without c (updateListeners s))
      (set_createListeners (without c (createListeners s))
      (set_aborted ({[c]} ∪ aborted s) s))))).

(** [target.addEventListener(type, callback, {signal})] with a callback that
    is a new function object: a no-op if the signal has already fired. *)
Definition addListener {A} (l : A * Signal) (ls : list (A * Signal)) (s : State)
  : list (A * Signal) :=
  if decide (l.2 ∈ aborted s) then ls else ls ++ [l].

(** *** Methods of [Runtime] *)

(** [private removeMonitorView(monitor)] *)
Definition removeMonitorView (m : Monitor) (s : State) : State :=
  match monitorViews s !! m with
  | Some (view, ab) =>
      let s1 := emit (EvViewRemove view) s in
      let s2 := abort ab s1 in
      set_monitorViews (delete m (monitorViews s2)) s2
  | None => s
  end.

(** The [monitorRects] collected in [handleMonitorUpdated]. *)
Definition monitorRects (p : ProjectId) (m : Monitor) (s : State) : list Rectangle :=
  foldl (λ acc e,
           if decide (monitor e = m) then acc
           else match monitorViews s !! monitor e with
                | None => acc
                | Some (v, _) =>
                    match viewBounds s v with
                    | Some bounds => acc ++ [bounds]
                    | None => acc
                    end
                end)
        [] (monitorsOf (projectHeap s p)).

(** Modelled from the spec: [monitor.update({position})] (monitor.ts is not
    among the sources): "assign that position back onto the Monitor". *)
Definition monitor_update_position (m : Monitor) (pos : float * float) (s : State)
  : State :=
  let d := monitorHeap s m in
  set_monitorHeap
    (<[m := mkMonitor (visible d) (Some pos) (target d) (colorCategory d)
                      (monitorSliderHandler d)]> (monitorHeap s)) s.

(** The "fetch or create the view" step of [handleMonitorUpdated]: the view
    tracked for the monitor, or a new one, tracked from now on, with its
    ['sliderchange'] listener in a scope of its own. *)
Definition fetchOrCreateView (st : StageId) (m : Monitor) (s : State) : ViewId * State :=
  match monitorViews s !! m with
  | Some (view, _) => (view, s)
  | None =>
      let '(view, sa) := alloc s in
      let sb := emit (EvCreateMonitorView st view) sa in
      let '(ab, sc) := alloc sb in
      let sd := set_monitorViews (<[m := (view, ab)]> (monitorViews sc)) sc in
      (view, set_sliderListeners (addListener (view, ab) (sliderListeners sd) sd) sd)
  end.

(** The rest of [handleMonitorUpdated]: render, place the monitor if it has
    no position yet and render again, then colour the view. *)
Definition renderView (p : ProjectId) (m : Monitor) (view : ViewId) (s1 : State) : State :=
  let s2 := emit (EvViewUpdate view m) s1 in
  let s3 :=
    match position (monitorHeap s2 m) with
    | Some _ => s2
    | None =>
        let rects := monitorRects p m s2 in
        let sa := monitor_update_position m (viewLayout s2 view rects) s2 in
        emit (EvViewUpdate view m) sa
    end in
  match colorCategory (monitorHeap s3 m) with
  | Some category => emit (EvViewSetColor view category) s3
  | None => s3
  end.

(** [private handleMonitorUpdated(monitor)] *)
Definition handleMonitorUpdated (m : Monitor) (s : State) : State :=
  match project s, stage s with
  | Some p, Some st =>
      if negb (visible (monitorHeap s m)) then removeMonitorView m s
      else
        (* Fetch or create the view for this monitor *)
        let '(view, s1) := fetchOrCreateView st m s in
        renderView p m view s1
  | _, _ => s
  end.

(** [private handleMonitorCreated(signal, event)], with [event.monitor = m] *)
Definition handleMonitorCreated (signal : Signal) (m : Monitor) (s : State) : State :=
  match stage s with
  | None => s
  | Some _ => set_updateListeners (addListener (m, signal) (updateListeners s) s) s
  end.

(** [public stop()] *)
Definition stop (s : State) : State :=
  match steppingInterval s with
  | None => s
  | Some t => set_steppingInterval None (emit (EvClearInterval t) s)
  end.

(** The body of the closure stored in [unregisterPreviousProject]. *)
Definition unregisterProject (p : ProjectId) (controller : Signal) (s : State) : State :=
  let s1 := set_project None s in
  let s2 := stop s1 in
  let s3 := foldl (λ acc e, removeMonitorView (monitor e) acc) s2
                  (monitorsOf (projectHeap s2 p)) in
  let s4 := match renderer s3 with
            | Some r => if penLayers s3 r then emit (EvPenLayerClear r) s3 else s3
            | None => s3
            end in
  let s5 := emit (EvProjectUnregister p) s4 in
  let s6 := abort controller s5 in
  emit (EvInterpreterSetProject None) s6.

(** The first statement of [setProject]: run and clear the stored closure. *)
Definition teardownProject (s : State) : State :=
  match unregisterPreviousProject s with
  | Some (p0, c0) => set_unregisterPreviousProject None (unregisterProject p0 c0 s)
  | None => s
  end.

(** [setProject] for a non-null project, up to and including
    [project.addEventListener('createmonitor', ...)]: returns the new
    controller. *)
Definition subscribeProject (p : ProjectId) (s : State) : Signal * State :=
  let s1 := emit (EvInterpreterSetProject (Some p)) s in
  let '(controller, s2) := alloc s1 in
  (controller,
   set_createListeners (addListener (p, controller) (createListeners s2) s2) s2).

(** The rest of [setProject], for a non-null project. *)
Definition bindProject (p : ProjectId) (s : State) : State :=
  let '(controller, s3) := subscribeProject p s in
  let s4 := foldl (λ acc e, handleMonitorCreated controller (monitor e) acc) s3
                  (monitorsOf (projectHeap s3 p)) in
  let s5 := emit (EvProjectRegister p) s4 in
  set_unregisterPreviousProject (Some (p, controller)) s5.

(** [public setProject(project)] *)
Definition setProject (proj : option ProjectId) (s : State) : State :=
  let s1 := teardownProject s in
  let s2 := set_project proj s1 in
  match proj with
  | None => s2
  | Some p => bindProject p s2
  end.

(** [public destroy()] *)
Definition destroy (s : State) : State := setProject None s.

(** [private setupEventListeners(stage)]: returns the teardown closure, as the
    controller it captures ([None] for the empty closure). *)
Definition setupEventListeners (st : StageId) (s : State) : option Signal * State :=
  match renderer s with
  | None => (None, s)
  | Some _ =>
      let '(c, s1) := alloc s in
      (Some c, set_inputListeners (addListener (st, c) (inputListeners s1) s1) s1)
  end.

(** The body of the closure stored in [unsetPreviousStage]. *)
Definition unsetStage (r : RendererId) (listeners : option Signal) (s : State) : State :=
  let s1 := set_renderer None s in
  let s2 := emit (EvInterpreterSetRenderer None) s1 in
  let s3 := set_stage None s2 in
  let s4 := emit (EvRendererDestroy r) s3 in
  match listeners with
  | Some c => abort c s4
  | None => s4
  end.

(** [public attachStage(stage)] *)
Definition attachStage (stg : option StageId) (s : State) : State :=
  let s1 := match unsetPreviousStage s with
            | Some (r, ls) => set_unsetPreviousStage None (unsetStage r ls s)
            | None => s
            end in
  match stg with
  | None => s1
  | Some st =>
      let '(r, s2) := alloc s1 in
      let s3 := set_renderer (Some r) (emit (EvRendererCreate r st) s2) in
      let s4 := emit (EvInterpreterSetRenderer (Some r)) s3 in
      let '(teardownEventListeners, s5) := setupEventListeners st s4 in
      let s6 := set_stage (Some st) s5 in
      set_unsetPreviousStage (Some (r, teardownEventListeners)) s6
  end.

(** [private stepMonitors()] *)
Definition stepMonitors (s : State) : State * Outcome :=
  match project s with
  | None => (s, Returned)
  | Some p =>
      match stageOf (projectHeap s p) with
      | None => (s, Threw ProjectHasNoStage)
      | Some stg =>
          (foldl (λ acc e,
                    let d := monitorHeap acc (monitor e) in
                    if negb (visible d) then acc
                    else emit (EvLaunch (updateMonitorBlock e) (default stg (target d))) acc)
                 s (monitorsOf (projectHeap s p)),
           Returned)
      end
  end.

(** [private step()] *)
Definition step (s : State) : State * Outcome :=
  match project s with
  | None => (s, Threw CannotStepWithoutProject)
  | Some p =>
      let s1 := emit EvStepThreads s in
      (* Step monitors after threads to capture the latest values *)
      match stepMonitors s1 with
      | (s2, Threw e) => (s2, Threw e)
      | (s2, Returned) =>
          match renderer s2 with
          | Some r => (emit (EvDraw r p) s2, Returned)
          | None => (s2, Returned)
          end
      end
  end.

(** [public start()] *)
Definition start (s : State) : State * Outcome :=
  match steppingInterval s with
  | Some _ => (s, Returned)
  | None =>
      let '(t, s1) := alloc s in
      let s2 := set_steppingInterval (Some t) (emit (EvSetInterval t) s1) in
      (* Step once immediately *)
      step s2
  end.

(** *** The input listeners installed by [setupEventListeners] *)

(** [stageCoordsFromPointerEvent(event)], with [rect] the value of
    [stage.getBoundingClientRect()]. *)
Definition stageCoordsFromPointerEvent (event : PointerEvent) (rect : DOMRect)
  : float * float :=
  let x := ((clientX event - rect_left rect) * (width stageBounds / rect_width rect))%float in
  let y := ((clientY event - rect_top rect) * (height stageBounds / rect_height rect))%float in
  let x := JSMath.max (left stageBounds)
             (JSMath.min (right stageBounds) (JSMath.round (x + left stageBounds)%float)) in
  let y := JSMath.max (bottom stageBounds)
             (JSMath.min (top stageBounds) (JSMath.round (y + bottom stageBounds)%float)) in
  (x, (- y)%float).

(** The ['pointermove'] listener. *)
Definition pointermove (event : PointerEvent) (rect : DOMRect) (s : State) : State :=
  set_mousePosition (stageCoordsFromPointerEvent event rect) s.

(** The ['pointerup'] listener. *)
Definition pointerup (s : State) : State := set_mouseDown false s.

Section Keys.

(** [IO.domToScratchKey] (io.ts is not among the sources): the translation of
    a DOM key name, [None] for [null]. *)
Variable domToScratchKey : string -> option string.

(** The ['keydown'] listener, for an event with [event.key = k]. *)
Definition keydown (k : string) (s : State) : State :=
  match domToScratchKey k with
  | None => s
  | Some key =>
      let s1 := emit EvPreventDefault s in
      let s2 := set_keysDown ({[key]} ∪ keysDown s1) s1 in
      emit (EvStartHats key) s2
  end.

(** The ['keyup'] listener, for an event with [event.key = k]. *)
Definition keyup (k : string) (s : State) : State :=
  match domToScratchKey k with
  | None => s
  | Some key => set_keysDown (keysDown s ∖ {[key]}) s
  end.

(** *** The runtime in its environment

    What the host and the project do to the runtime: calls of its public
    methods, timer callbacks, notifications and input events.  Notifications
    reach only the listeners that are still registered. *)

Inductive Op :=
| CallSetProject (p : option ProjectId)
| CallAttachStage (st : option StageId)
| CallStart
| CallStop
| CallDestroy
| TimerFires (t : TimerId)
| ProjectCreatesMonitor (p : ProjectId) (e : MonitorEntry)
| MonitorUpdates (m : Monitor) (d : MonitorData)
| KeyDown (st : StageId) (k : string)
| KeyUp (k : string)
| PointerMove (event : PointerEvent) (rect : DOMRect)
| PointerUp.

(** Dispatch of ['updatemonitor'] on monitor [m]: the listeners registered when
    the dispatch starts are called in order, unless removed meanwhile. *)
Definition dispatchUpdate (m : Monitor) (s : State) : State :=
  foldl (λ acc l,
           if decide (l.1 = m ∧ l ∈ updateListeners acc)
           then handleMonitorUpdated m acc else acc)
        s (updateListeners s).

(** Dispatch of ['createmonitor'] on project [p] for monitor [m]. *)
Definition dispatchCreate (p : ProjectId) (m : Monitor) (s : State) : State :=
  foldl (λ acc l,
           if decide (l.1 = p ∧ l ∈ createListeners acc)
           then handleMonitorCreated l.2 m acc else acc)
        s (createListeners s).

(** Modelled from the spec: the Project declares a monitor (project.ts is not
    among the sources): the monitor joins the project's monitor collection and
    is announced "via a creation notification". *)
Definition projectCreatesMonitor (p : ProjectId) (e : MonitorEntry) (s : State) : State :=
  let d := projectHeap s p in
  let s1 := set_projectHeap
              (<[p := mkProject (monitorsOf d ++ [e]) (stageOf d) (targetsOf d)]>
                 (projectHeap s)) s in
  dispatchCreate p (monitor e) s1.

(** Modelled from the spec: "a Monitor announces a change" (monitor.ts is not
    among the sources): its fields take their new values, then its
    ['updatemonitor'] listeners are notified. *)
Definition monitorUpdates (m : Monitor) (d : MonitorData) (s : State) : State :=
  dispatchUpdate m (set_monitorHeap (<[m := d]> (monitorHeap s)) s).

(** A listener group of [setupEventListeners] is alive for stage [st]. *)
Definition listening (st : StageId) (s : State) : bool :=
  bool_decide (st ∈ (inputListeners s).*1).

Definition apply (o : Op) (s : State) : State :=
  match o with
  | CallSetProject p => setProject p s
  | CallAttachStage st => attachStage st s
  | CallStart => (start s).1
  | CallStop => stop s
  | CallDestroy => destroy s
  | TimerFires t =>
      if decide (steppingInterval s = Some t) then (step s).1 else s
  | ProjectCreatesMonitor p e => projectCreatesMonitor p e s
  | MonitorUpdates m d => monitorUpdates m d s
  | KeyDown st k => if listening st s then keydown k s else s
  | KeyUp k =>
      foldl (λ acc _, keyup k acc) s (inputListeners s)
  | PointerMove event rect =>
      foldl (λ acc _, pointermove event rect acc) s (inputListeners s)
  | PointerUp =>
      foldl (λ acc _, pointerup acc) s (inputListeners s)
  end.

Definition run (ops : list Op) (s : State) : State :=
  foldl (λ acc o, apply o acc) s ops.

End Keys.

(** A runtime just constructed: nothing bound, no timer, nothing held, in an
    arbitrary heap. *)
Definition initial (ph : ProjectId -> ProjectData) (mh : Monitor -> MonitorData)
    (vb : ViewId -> option Rectangle) (vl : ViewId -> list Rectangle -> float * float)
    (pl : RendererId -> bool) : State :=
  mkState None None None ∅ None None None ∅ false (0%float, 0%float)
          ph mh vb vl pl ∅ [] [] [] [] 0 [].

(** *** Reading traces *)

Definition is_timer_start (e : Event) : bool :=
  match e with EvSetInterval _ => true | _ => false end.

Definition is_step_threads (e : Event) : bool :=
  match e with EvStepThreads => true | _ => false end.

Definition is_launch (e : Event) : bool :=
  match e with EvLaunch _ _ => true | _ => false end.


Definition count (P : Event -> bool) (evs : list Event) : nat :=
  length (filter (λ e, P e = true) evs).

(** The value-computing scripts that one tick launches: one per visible
    monitor, in collection order, on the monitor's target or on the stage. *)
Definition launches (s : State) (p : ProjectId) (stg : Target) : list Event :=
  omap (λ e, let d := monitorHeap s (monitor e) in
             if visible d
             then Some (EvLaunch (updateMonitorBlock e) (default stg (target d)))
             else None)
       (monitorsOf (projectHeap s p)).



(** [emits evs s]: the state [s] after the calls [evs] were recorded. *)
Definition emits (evs : list Event) (s : State) : State :=
  set_trace (trace s ++ evs) s.

(** *** Basic facts *)

Lemma emits_nil s : emits [] s = s.
Proof. destruct s; unfold emits, set_trace; simpl. by rewrite app_nil_r. Qed.

Lemma emit_emits e evs s : emit e (emits evs s) = emits (evs ++ [e]) s.
Proof. unfold emit, emits, set_trace; simpl. by rewrite app_assoc. Qed.

Lemma emits_emits evs1 evs2 s : emits evs2 (emits evs1 s) = emits (evs1 ++ evs2) s.
Proof. unfold emits, set_trace; simpl. by rewrite app_assoc. Qed.

Lemma emit_as_emits e s : emit e s = emits [e] s.
Proof. reflexivity. Qed.

Lemma stepMonitors_loop stg l s :
  foldl (λ acc e,
           let d := monitorHeap acc (monitor e) in
           if negb (visible d) then acc
           else emit (EvLaunch (updateMonitorBlock e) (default stg (target d))) acc)
        s l
  = emits (omap (λ e, let d := monitorHeap s (monitor e) in
                      if visible d
                      then Some (EvLaunch (updateMonitorBlock e) (default stg (target d)))
                      else None) l) s.
Proof.
  revert s. induction l as [|e l IH]; intros s; simpl.
  - by rewrite emits_nil.
  - rewrite IH. destruct (visible (monitorHeap s (monitor e))) eqn:Hv; simpl.
    + rewrite emit_as_emits, emits_emits. reflexivity.
    + reflexivity.
Qed.

Lemma stepMonitors_bound s p stg :
  project s = Some p → stageOf (projectHeap s p) = Some stg →
  stepMonitors s = (emits (launches s p stg) s, Returned).
Proof.
  intros Hp Hs. unfold stepMonitors. rewrite Hp, Hs.
  by rewrite stepMonitors_loop.
Qed.

Lemma Forall_launches s p stg : Forall (λ e, is_launch e = true) (launches s p stg).
Proof.
  unfold launches. induction (monitorsOf (projectHeap s p)) as [|e l IH]; simpl.
  - constructor.
  - destruct (visible (monitorHeap s (monitor e))); simpl; [constructor|]; done.
Qed.

(** What one call of [step] records, by cases on how it ends. *)
Lemma step_events s :
  match project s with
  | None => step s = (s, Threw CannotStepWithoutProject)
  | Some p =>
      match stageOf (projectHeap s p) with
      | None => step s = (emits [EvStepThreads] s, Threw ProjectHasNoStage)
      | Some stg =>
          step s = (emits (EvStepThreads :: launches s p stg ++
                             match renderer s with
                             | Some r => [EvDraw r p]
                             | None => []
                             end) s, Returned)
      end
  end.
Proof.
  unfold step. destruct (project s) as [p|] eqn:Hp; [|done].
  destruct (stageOf (projectHeap s p)) as [stg|] eqn:Hs.
  - rewrite (stepMonitors_bound _ p stg) by done.
    change (renderer (emits _ (emit EvStepThreads s))) with (renderer s).
    change (launches (emit EvStepThreads s) p stg) with (launches s p stg).
    rewrite emit_as_emits, emits_emits.
    destruct (renderer s) as [r|].
    + by rewrite emit_emits, <- app_assoc.
    + by rewrite app_nil_r.
  - unfold stepMonitors. simpl. rewrite Hp, Hs. done.
Qed.

Lemma count_app P l1 l2 : count P (l1 ++ l2) = count P l1 + count P l2.
Proof. unfold count. by rewrite filter_app, length_app. Qed.

Lemma count_zero P l : Forall (λ e, P e = false) l → count P l = 0.
Proof.
  unfold count. induction 1 as [|e l He _ IH]; [done|].
  rewrite filter_cons. destruct (decide (P e = true)); [congruence|done].
Qed.





(** *** The scheduling loop *)

Lemma step_summary s :
  ∃ evs, (step s).1 = emits evs s ∧
         count is_timer_start evs = 0 ∧
         count is_step_threads evs = (if project s is Some _ then 1 else 0).
Proof.
  pose proof (step_events s) as H.
  destruct (project s) as [p|]; [destruct (stageOf (projectHeap s p)) as [stg|]|];
    rewrite H; simpl.
  - eexists; split; [reflexivity|].
    change (EvStepThreads :: ?l) with ([EvStepThreads] ++ l).
    rewrite !count_app.
    rewrite !(count_zero _ (launches s p stg)).
    + destruct (renderer s); split; reflexivity.
    + eapply Forall_impl; [apply Forall_launches|]. intros []; simpl; congruence.
    + eapply Forall_impl; [apply Forall_launches|]. intros []; simpl; congruence.
  - eexists; split; [reflexivity|]. split; reflexivity.
  - exists []. rewrite emits_nil. repeat split.
Qed.

(** C6. [start()] while the loop is running is a no-op.  From the stopped
    state, [start()] schedules the recurring timer and then performs exactly
    one tick at once: it ends as that one call of [step] ends, one
    [setInterval] is recorded, and (when a project is bound, so that the tick
    gets past its precondition) one script-stepping phase.  A second [start()]
    right after changes nothing: still one timer, still one immediate tick.
    [stop()] while the loop is not running is a no-op. *)
Theorem start_stop_idempotent (s : State) :
  (is_Some (steppingInterval s) → start s = (s, Returned)) ∧
  (steppingInterval s = None →
     ∃ t armed evs,
       steppingInterval armed = Some t ∧
       trace armed = trace s ++ [EvSetInterval t] ∧
       start s = step armed ∧
       steppingInterval (start s).1 = Some t ∧
       trace (start s).1 = trace s ++ EvSetInterval t :: evs ∧
       count is_timer_start (EvSetInterval t :: evs) = 1 ∧
       count is_step_threads (EvSetInterval t :: evs) = (if project s is Some _ then 1 else 0) ∧
       start (start s).1 = ((start s).1, Returned)) ∧
  (steppingInterval s = None → stop s = s).
Proof.
  split; [|split].
  - intros [t Ht]. unfold start. by rewrite Ht.
  - intros Hnone. unfold start. rewrite Hnone. simpl.
    set (armed := set_steppingInterval (Some (nextId s))
                    (emit (EvSetInterval (nextId s)) (set_nextId (S (nextId s)) s))).
    destruct (step_summary armed) as (evs & Hst & Htimers & Hticks).
    exists (nextId s), armed, evs.
    assert (Hrun : steppingInterval (step armed).1 = Some (nextId s))
      by (by rewrite Hst).
    split; [done|]. split; [done|]. split; [done|]. split; [done|].
    split; [rewrite Hst; simpl; by rewrite <- app_assoc|].
    split; [|split].
    + change (EvSetInterval (nextId s) :: evs) with ([EvSetInterval (nextId s)] ++ evs).
      rewrite count_app. by rewrite Htimers.
    + change (EvSetInterval (nextId s) :: evs) with ([EvSetInterval (nextId s)] ++ evs).
      rewrite count_app. by rewrite Hticks.
    + by rewrite Hrun.
  - intros Hnone. unfold stop. by rewrite Hnone.
Qed.

(** C7. A tick while no project is bound throws ['Cannot step without a
    project'] and does nothing else (also when the tick is the immediate one of
    [start()]); stepping monitors while the bound project has no stage target
    throws ['Project has no stage'], for any monitor collection, and this ends
    the tick after its script-stepping phase: nothing is launched or drawn. *)
Theorem tick_preconditions_throw (s : State) :
  (project s = None →
     step s = (s, Threw CannotStepWithoutProject) ∧
     (steppingInterval s = None → (start s).2 = Threw CannotStepWithoutProject)) ∧
  (∀ p, project s = Some p → stageOf (projectHeap s p) = None →
     stepMonitors s = (s, Threw ProjectHasNoStage) ∧
     step s = (emit EvStepThreads s, Threw ProjectHasNoStage)).
Proof.
  split.
  - intros Hp. split.
    + unfold step. by rewrite Hp.
    + intros Ht. unfold start. rewrite Ht. simpl. unfold step. simpl. by rewrite Hp.
  - intros p Hp Hs. split.
    + unfold stepMonitors. by rewrite Hp, Hs.
    + pose proof (step_events s) as H. by rewrite Hp, Hs in H.
Qed.

(** *** Keys *)

(** A key-down or key-up event whose key the translation
    does not recognize leaves the whole state as it was: nothing is held or
    released, the default behaviour is not suppressed and no script-start
    request is issued (the trace is part of the state). *)
Lemma unrecognized_key_ignored (domToScratchKey : string → option string)
    (k : string) (s : State) :
  domToScratchKey k = None →
  keydown domToScratchKey k s = s ∧ keyup domToScratchKey k s = s.
Proof. intros Hk. unfold keydown, keyup. by rewrite Hk. Qed.

(** What a press followed by the matching release does to the keys held. *)
Lemma press_release_keys (domToScratchKey : string → option string)
    (k key : string) (s : State) :
  domToScratchKey k = Some key →
  keysDown (keyup domToScratchKey k (keydown domToScratchKey k s))
  = keysDown s ∖ {[key]}.
Proof.
  intros Hk. unfold keydown, keyup. rewrite Hk. simpl. set_solver.
Qed.

(** C8, amended. For a recognized key that is not held already, a key-down
    event followed by the matching key-up event leaves the set of keys held
    as it was before the press (for a key already held the release removes it:
    see [press_release_keys]); an unrecognized key changes no state at all. *)
Theorem key_round_trip (domToScratchKey : string → option string)
    (k : string) (s : State) :
  (∀ key, domToScratchKey k = Some key → key ∉ keysDown s →
     keysDown (keyup domToScratchKey k (keydown domToScratchKey k s)) = keysDown s) ∧
  (domToScratchKey k = None →
     keydown domToScratchKey k s = s ∧ keyup domToScratchKey k s = s).
Proof.
  split.
  - intros key Hk Hnot. rewrite (press_release_keys _ _ key) by done. set_solver.
  - apply unrecognized_key_ignored.
Qed.

(** *** Pointer coordinates *)

(** Whatever the event and the rectangle, each computed coordinate either is
    NaN or lies within the stage bounds, ends included. *)
Lemma stageCoords_bounds_or_NaN (event : PointerEvent) (rect : DOMRect) :
  let c := stageCoordsFromPointerEvent event rect in
  (PrimFloat.is_nan c.1 = true ∨
   JSMath.within (left stageBounds) (right stageBounds) c.1 = true) ∧
  (PrimFloat.is_nan c.2 = true ∨
   JSMath.within (bottom stageBounds) (top stageBounds) c.2 = true).
Proof.
  unfold stageCoordsFromPointerEvent. cbv zeta. simpl fst. simpl snd. split.
  - match goal with |- context [JSMath.max ?lo (JSMath.min ?hi ?v)] =>
      pose proof (JSMath.clamp_spec lo hi v eq_refl eq_refl eq_refl) as H;
      destruct (PrimFloat.is_nan v); auto
    end.
  - match goal with |- context [JSMath.max ?lo (JSMath.min ?hi ?v)] =>
      pose proof (JSMath.clamp_spec lo hi v eq_refl eq_refl eq_refl) as H;
      destruct (PrimFloat.is_nan v)
    end.
    + left. by apply JSMath.opp_nan.
    + right. by apply JSMath.opp_within in H.
Qed.

(** The scenario of the specification: with the stage shown at its natural
    size at the top left of the viewport, a pointer at client (0, 0) is at
    project coordinates (-240, 180). *)
Lemma stageCoords_top_left_corner :
  stageCoordsFromPointerEvent (mkPointerEvent 0 0) (mkDOMRect 0 0 480 360)
  = ((-240)%float, 180%float).
Proof. vm_compute. reflexivity. Qed.

(** C3, at the failing input. For a stage whose bounding rectangle is empty
    (all of [left], [top], [width], [height] are 0, as for an element that is
    not rendered) and a pointer event at client (0, 0), both computed
    coordinates are NaN: [0 * (480 / 0)] is [0 * Infinity], and the clamp with
    [Math.min] and [Math.max] lets NaN through.  Neither coordinate lies
    within the stage bounds. *)
Theorem stageCoords_empty_rect_NaN :
  let c := stageCoordsFromPointerEvent (mkPointerEvent 0 0) (mkDOMRect 0 0 0 0) in
  PrimFloat.is_nan c.1 = true ∧ PrimFloat.is_nan c.2 = true ∧
  JSMath.within (left stageBounds) (right stageBounds) c.1 = false ∧
  JSMath.within (bottom stageBounds) (top stageBounds) c.2 = false.
Proof. vm_compute. repeat split. Qed.

(** *** Well-formed runtime states *)

(** The monitors in project [p]'s collection. *)
Definition monitorsIn (s : State) (p : ProjectId) : list Monitor :=
  monitor <$> monitorsOf (projectHeap s p).

(** What holds of every state the runtime can be in: objects made earlier
    are older than the next one; listeners hang on signals that have not
    fired; the bound project is the one whose teardown is stored; tracked
    views and registered listeners belong to the bound project. *)
Record Inv (s : State) : Prop := mkInv {
  inv_aborted_old : ∀ c, c ∈ aborted s → c < nextId s;
  inv_views_old : ∀ m v a, monitorViews s !! m = Some (v, a) → v < nextId s ∧ a < nextId s;
  inv_slider_old : ∀ l, l ∈ sliderListeners s → l.1 < nextId s ∧ l.2 < nextId s;
  inv_unset_old : ∀ r c, unsetPreviousStage s = Some (r, Some c) → c < nextId s;
  inv_unreg_old : ∀ p c, unregisterPreviousProject s = Some (p, c) → c < nextId s;
  inv_create_live : ∀ l, l ∈ createListeners s → l.2 ∉ aborted s;
  inv_update_live : ∀ l, l ∈ updateListeners s → l.2 ∉ aborted s;
  inv_bound : project s = fst <$> unregisterPreviousProject s;
  inv_views_tracked : ∀ m va, monitorViews s !! m = Some va →
    ∃ p, project s = Some p ∧ m ∈ monitorsIn s p;
  inv_update_listeners : ∀ m c, (m, c) ∈ updateListeners s →
    ∃ p, unregisterPreviousProject s = Some (p, c) ∧ m ∈ monitorsIn s p;
  inv_create_listeners : ∀ p c, (p, c) ∈ createListeners s →
    unregisterPreviousProject s = Some (p, c)
}.

(** The fields the invariant reads. *)
Definition same_bindings (s s' : State) : Prop :=
  aborted s' = aborted s ∧ monitorViews s' = monitorViews s ∧
  sliderListeners s' = sliderListeners s ∧
  unsetPreviousStage s' = unsetPreviousStage s ∧
  unregisterPreviousProject s' = unregisterPreviousProject s ∧
  createListeners s' = createListeners s ∧ updateListeners s' = updateListeners s ∧
  project s' = project s ∧ projectHeap s' = projectHeap s ∧
  nextId s ≤ nextId s'.

Lemma Inv_frame s s' : same_bindings s s' → Inv s → Inv s'.
Proof.
  intros (Ha & Hv & Hsl & Hus & Hur & Hc & Hu & Hp & Hh & Hn) [].
  unfold monitorsIn in *.
  split; unfold monitorsIn; rewrite ?Ha, ?Hv, ?Hsl, ?Hus, ?Hur, ?Hc, ?Hu, ?Hp, ?Hh; try done.
  - intros c Hc'. specialize (inv_aborted_old0 c Hc'). lia.
  - intros m v a H. specialize (inv_views_old0 m v a H). lia.
  - intros l H. specialize (inv_slider_old0 l H). lia.
  - intros r c H. specialize (inv_unset_old0 r c H). lia.
  - intros p c H. specialize (inv_unreg_old0 p c H). lia.
Qed.

Lemma same_bindings_refl s : same_bindings s s.
Proof. by repeat split. Qed.

Lemma same_bindings_trans s1 s2 s3 :
  same_bindings s1 s2 → same_bindings s2 s3 → same_bindings s1 s3.
Proof.
  intros (?&?&?&?&?&?&?&?&?&?) (?&?&?&?&?&?&?&?&?&?).
  repeat split; try congruence. lia.
Qed.

Lemma same_bindings_emits evs s : same_bindings s (emits evs s).
Proof. by repeat split. Qed.

Lemma Inv_emit e s : Inv s → Inv (emit e s).
Proof. apply Inv_frame. apply (same_bindings_emits [e]). Qed.

Lemma Inv_initial ph mh vb vl pl : Inv (initial ph mh vb vl pl).
Proof.
  split; simpl; try done; intros;
    match goal with
    | H : _ ∈ [] |- _ => by apply not_elem_of_nil in H
    | H : _ ∈ ∅ |- _ => by apply not_elem_of_empty in H
    | H : ∅ !! _ = Some _ |- _ => by rewrite lookup_empty in H
    end.
Qed.

Lemma elem_of_without {A} (c : Signal) (ls : list (A * Signal)) l :
  l ∈ without c ls ↔ l.2 ≠ c ∧ l ∈ ls.
Proof. unfold without. by rewrite list_elem_of_filter. Qed.

Lemma Inv_alloc s : Inv s → Inv (alloc s).2.
Proof. apply Inv_frame. repeat split; simpl; try done. lia. Qed.

Lemma Inv_abort c s : c < nextId s → Inv s → Inv (abort c s).
Proof.
  intros Hc HI. unfold abort. case_decide as Hin; [done|].
  apply Inv_emit. destruct HI. split; simpl; try done.
  - intros c' [->%elem_of_singleton|H]%elem_of_union; auto.
  - intros l [_ Hl]%elem_of_without. auto.
  - intros l [Hne Hl]%elem_of_without.
    intros [E%elem_of_singleton|H]%elem_of_union; [done|]. by eapply inv_create_live0.
  - intros l [Hne Hl]%elem_of_without.
    intros [E%elem_of_singleton|H]%elem_of_union; [done|]. by eapply inv_update_live0.
  - intros m c' [_ Hl]%elem_of_without. auto.
  - intros p c' [_ Hl]%elem_of_without. auto.
Qed.

Lemma Inv_delete_view m s :
  Inv s → Inv (set_monitorViews (delete m (monitorViews s)) s).
Proof.
  intros []. split; simpl; try done.
  - intros m' v a [_ H]%lookup_delete_Some. eauto.
  - intros m' va [_ H]%lookup_delete_Some. eauto.
Qed.

Lemma Inv_removeMonitorView m s : Inv s → Inv (removeMonitorView m s).
Proof.
  intros HI. unfold removeMonitorView.
  destruct (monitorViews s !! m) as [[v a]|] eqn:Hm; [|done].
  apply Inv_delete_view, Inv_abort, Inv_emit; [|done].
  simpl. by destruct (inv_views_old _ HI m v a Hm).
Qed.

Lemma fetchOrCreateView_Inv st m s :
  Inv s → (∃ p, project s = Some p ∧ m ∈ monitorsIn s p) →
  Inv (fetchOrCreateView st m s).2.
Proof.
  intros HI Hm. unfold fetchOrCreateView.
  destruct (monitorViews s !! m) as [[view ab0]|] eqn:Hv; [done|].
  destruct HI. cbn. split; simpl; try done.
  - intros c Hc. specialize (inv_aborted_old0 c Hc). lia.
  - intros m' v a [[-> [= <- <-]]|[_ H]]%lookup_insert_Some; [lia|].
    specialize (inv_views_old0 m' v a H). lia.
  - intros l. unfold addListener. simpl. case_decide.
    + intros H'. specialize (inv_slider_old0 l H'). lia.
    + intros [H'| ->%list_elem_of_singleton]%elem_of_app; simpl; [|lia].
      specialize (inv_slider_old0 l H'). lia.
  - intros r c H. specialize (inv_unset_old0 r c H). lia.
  - intros p c H. specialize (inv_unreg_old0 p c H). lia.
  - intros m' va [[-> _]|[_ H]]%lookup_insert_Some; eauto.
Qed.

Lemma same_bindings_position m pos s : same_bindings s (monitor_update_position m pos s).
Proof. by repeat split. Qed.

Lemma renderView_bindings p m view s : same_bindings s (renderView p m view s).
Proof.
  unfold renderView. cbv zeta.
  destruct (position _); destruct (colorCategory _);
    repeat first
      [ apply same_bindings_refl
      | eapply same_bindings_trans; [|apply (same_bindings_emits [_])]
      | eapply same_bindings_trans; [|apply same_bindings_position] ].
Qed.

Lemma handleMonitorUpdated_Inv m s :
  Inv s → (∀ p, project s = Some p → m ∈ monitorsIn s p) →
  Inv (handleMonitorUpdated m s).
Proof.
  intros HI Hm. unfold handleMonitorUpdated.
  destruct (project s) as [p|] eqn:Hp; [|done].
  destruct (stage s) as [st|] eqn:Hst; [|done].
  destruct (negb (visible (monitorHeap s m))); [by apply Inv_removeMonitorView|].
  pose proof (fetchOrCreateView_Inv st m s HI (ex_intro _ p (conj Hp (Hm p eq_refl)))) as HI'.
  destruct (fetchOrCreateView st m s) as [view s1]. simpl in HI'.
  eapply Inv_frame; [apply renderView_bindings|done].
Qed.

Lemma handleMonitorCreated_Inv c m s :
  Inv s → (∃ p, unregisterPreviousProject s = Some (p, c) ∧ m ∈ monitorsIn s p) →
  Inv (handleMonitorCreated c m s).
Proof.
  intros HI Hm. unfold handleMonitorCreated. destruct (stage s); [|done].
  unfold addListener. simpl. case_decide as Hc; [by destruct s|].
  destruct HI. split; simpl; try done.
  - intros l [H| ->%list_elem_of_singleton]%elem_of_app; auto.
  - intros m' c' [H| [= -> ->]%list_elem_of_singleton]%elem_of_app; auto.
Qed.

Lemma foldl_Inv {A} (f : State → A → State) (l : list A) s :
  (∀ acc x, Inv acc → Inv (f acc x)) → Inv s → Inv (foldl f s l).
Proof. intros Hf. revert s. induction l; simpl; auto. Qed.

Lemma dispatchUpdate_Inv m s : Inv s → Inv (dispatchUpdate m s).
Proof.
  intros HI. unfold dispatchUpdate. apply foldl_Inv; [|done].
  intros acc [m' c] Hacc. case_decide as Hl; [|done]. simpl in Hl. destruct Hl as [-> Hl].
  apply handleMonitorUpdated_Inv; [done|].
  intros p Hp. destruct (inv_update_listeners _ Hacc _ _ Hl) as (p' & Hu & Hin).
  rewrite (inv_bound _ Hacc), Hu in Hp. by simplify_eq/=.
Qed.

Lemma dispatchCreate_Inv p m s :
  Inv s → m ∈ monitorsIn s p → Inv (dispatchCreate p m s).
Proof.
  intros HI Hm. unfold dispatchCreate.
  assert (H : ∀ l acc, Inv acc ∧ projectHeap acc = projectHeap s →
    Inv (foldl (λ acc l, if decide (l.1 = p ∧ l ∈ createListeners acc)
                         then handleMonitorCreated l.2 m acc else acc) acc l) ).
  { induction l as [|[p' c] l IH]; intros acc [Hacc Hh]; simpl; [done|].
    apply IH. case_decide as Hl; [|done]. simpl in Hl. destruct Hl as [-> Hl]. split.
    - apply handleMonitorCreated_Inv; [done|]. exists p. split.
      + by apply (inv_create_listeners _ Hacc).
      + unfold monitorsIn in *. by rewrite Hh.
    - unfold handleMonitorCreated. by destruct (stage acc). }
  by apply H.
Qed.

(** *** Rebinding the project *)

(** The fields that removing views and firing signals leave alone. *)
Definition same_runtime (s s' : State) : Prop :=
  project s' = project s ∧ renderer s' = renderer s ∧ stage s' = stage s ∧
  steppingInterval s' = steppingInterval s ∧
  unregisterPreviousProject s' = unregisterPreviousProject s ∧
  unsetPreviousStage s' = unsetPreviousStage s ∧
  projectHeap s' = projectHeap s ∧ monitorHeap s' = monitorHeap s ∧
  penLayers s' = penLayers s ∧ nextId s' = nextId s ∧
  aborted s ⊆ aborted s'.

Lemma same_runtime_refl s : same_runtime s s.
Proof. by repeat split. Qed.

Lemma same_runtime_trans s1 s2 s3 :
  same_runtime s1 s2 → same_runtime s2 s3 → same_runtime s1 s3.
Proof.
  intros (?&?&?&?&?&?&?&?&?&?&?) (?&?&?&?&?&?&?&?&?&?&?).
  repeat split; try congruence. set_solver.
Qed.

Lemma same_runtime_emit e s : same_runtime s (emit e s).
Proof. by repeat split. Qed.

Lemma same_runtime_abort c s : same_runtime s (abort c s).
Proof.
  unfold abort. case_decide; [apply same_runtime_refl|].
  repeat split; simpl; try done. set_solver.
Qed.

Lemma abort_aborted c s : c ∈ aborted (abort c s).
Proof. unfold abort. case_decide; [done|]. simpl. set_solver. Qed.

Lemma abort_views c s : monitorViews (abort c s) = monitorViews s.
Proof. unfold abort. by case_decide. Qed.

Lemma removeMonitorView_views m s :
  monitorViews (removeMonitorView m s) = delete m (monitorViews s).
Proof.
  unfold removeMonitorView. destruct (monitorViews s !! m) as [[v a]|] eqn:Hm.
  - simpl. by rewrite abort_views.
  - by rewrite delete_id.
Qed.

Lemma same_runtime_removeMonitorView m s : same_runtime s (removeMonitorView m s).
Proof.
  unfold removeMonitorView. destruct (monitorViews s !! m) as [[v a]|]; [|apply same_runtime_refl].
  eapply same_runtime_trans; [apply (same_runtime_emit (EvViewRemove v))|].
  eapply same_runtime_trans; [apply (same_runtime_abort a)|].
  by repeat split.
Qed.

Lemma removeAll_spec (l : list MonitorEntry) s :
  let s' := foldl (λ acc e, removeMonitorView (monitor e) acc) s l in
  same_runtime s s' ∧
  (∀ m, monitorViews s' !! m =
        if decide (m ∈ monitor <$> l) then None else monitorViews s !! m).
Proof.
  revert s. induction l as [|e l IH]; intros s; simpl.
  - split; [apply same_runtime_refl|done].
  - destruct (IH (removeMonitorView (monitor e) s)) as [Hsame Hviews]. split.
    + eapply same_runtime_trans; [apply same_runtime_removeMonitorView|done].
    + intros m. rewrite Hviews, removeMonitorView_views.
      destruct (decide (m = monitor e)) as [->|Hne].
      * rewrite lookup_delete_eq. repeat case_decide; try done.
        all: match goal with H : ¬ (_ ∈ _ :: _) |- _ => destruct H; left end.
      * rewrite lookup_delete_ne by done.
        change (list_fmap MonitorEntry nat monitor l) with (monitor <$> l).
        repeat case_decide; try done; exfalso;
          rewrite elem_of_cons in *; naive_solver.
Qed.

(** [unregisterProject] after its first assignment ([this.project = null]),
    which none of the later statements reads. *)
Definition unregisterRest (p : ProjectId) (controller : Signal) (s : State) : State :=
  let s2 := stop s in
  let s3 := foldl (λ acc e, removeMonitorView (monitor e) acc) s2
                  (monitorsOf (projectHeap s2 p)) in
  let s4 := match renderer s3 with
            | Some r => if penLayers s3 r then emit (EvPenLayerClear r) s3 else s3
            | None => s3
            end in
  let s5 := emit (EvProjectUnregister p) s4 in
  let s6 := abort controller s5 in
  emit (EvInterpreterSetProject None) s6.

Lemma emit_set_project v e s : emit e (set_project v s) = set_project v (emit e s).
Proof. reflexivity. Qed.

Lemma abort_set_project v c s : abort c (set_project v s) = set_project v (abort c s).
Proof. unfold abort. simpl. by case_decide. Qed.

Lemma removeMonitorView_set_project v m s :
  removeMonitorView m (set_project v s) = set_project v (removeMonitorView m s).
Proof.
  unfold removeMonitorView. simpl. destruct (monitorViews s !! m) as [[view a]|]; [|done].
  change (emit (EvViewRemove view) (set_project v s))
    with (set_project v (emit (EvViewRemove view) s)).
  by rewrite abort_set_project.
Qed.

Lemma removeAll_set_project v (l : list MonitorEntry) s :
  foldl (λ acc e, removeMonitorView (monitor e) acc) (set_project v s) l
  = set_project v (foldl (λ acc e, removeMonitorView (monitor e) acc) s l).
Proof.
  revert s. induction l as [|e l IH]; intros s; simpl; [done|].
  by rewrite removeMonitorView_set_project, IH.
Qed.

Lemma unregisterProject_rest p c s :
  unregisterProject p c s = set_project None (unregisterRest p c s).
Proof.
  unfold unregisterProject, unregisterRest.
  assert (Hstop : stop (set_project None s) = set_project None (stop s)).
  { unfold stop. simpl. by destruct (steppingInterval s). }
  cbv zeta. rewrite Hstop.
  change (projectHeap (set_project None (stop s))) with (projectHeap (stop s)).
  rewrite removeAll_set_project.
  set (s3 := foldl _ (stop s) _).
  change (renderer (set_project None s3)) with (renderer s3).
  change (penLayers (set_project None s3)) with (penLayers s3).
  destruct (renderer s3) as [r|]; [destruct (penLayers s3 r)|];
    by rewrite !emit_set_project, abort_set_project.
Qed.

Lemma stop_fields s :
  steppingInterval (stop s) = None ∧ same_bindings s (stop s) ∧
  renderer (stop s) = renderer s ∧ stage (stop s) = stage s ∧
  penLayers (stop s) = penLayers s ∧ monitorHeap (stop s) = monitorHeap s.
Proof. unfold stop. destruct (steppingInterval s) eqn:E; by repeat split. Qed.

(** The state in which the previous project's teardown leaves the runtime. *)
Lemma unregisterRest_spec p0 c0 s :
  Inv s → unregisterPreviousProject s = Some (p0, c0) →
  let s' := unregisterRest p0 c0 s in
  Inv s' ∧ steppingInterval s' = None ∧ monitorViews s' = ∅ ∧
  updateListeners s' = [] ∧ createListeners s' = [] ∧ c0 ∈ aborted s' ∧
  nextId s' = nextId s ∧ renderer s' = renderer s ∧ stage s' = stage s ∧
  projectHeap s' = projectHeap s ∧ unsetPreviousStage s' = unsetPreviousStage s ∧
  unregisterPreviousProject s' = Some (p0, c0).
Proof.
  intros HI Hun. unfold unregisterRest. cbv zeta.
  destruct (stop_fields s) as (Ht2 & Hb2 & Hr2 & Hst2 & Hpl2 & Hmh2).
  pose proof (Inv_frame _ _ Hb2 HI) as HI2.
  destruct Hb2 as (Ha2 & Hv2 & _ & Hus2 & Hur2 & _ & _ & Hp2 & Hh2 & Hn2').
  assert (Hn2 : nextId (stop s) = nextId s)
    by (unfold stop; by destruct (steppingInterval s)).
  set (s2 := stop s) in *.
  destruct (removeAll_spec (monitorsOf (projectHeap s2 p0)) s2) as [Hsame3 Hv3].
  assert (HI3 : Inv (foldl (λ acc e, removeMonitorView (monitor e) acc) s2
                           (monitorsOf (projectHeap s2 p0))))
    by (apply foldl_Inv; [intros; by apply Inv_removeMonitorView|done]).
  set (s3 := foldl _ s2 _) in *.
  destruct Hsame3 as (Hp3 & Hr3 & Hst3 & Ht3 & Hur3 & Hus3 & Hh3 & _ & Hpl3 & Hn3 & _).
  set (s4 := match renderer s3 with
             | Some r => if penLayers s3 r then emit (EvPenLayerClear r) s3 else s3
             | None => s3
             end).
  assert (H4 : ∃ evs, s4 = emits evs s3).
  { unfold s4. destruct (renderer s3) as [r|]; [destruct (penLayers s3 r)|].
    - by exists [EvPenLayerClear r].
    - exists []. by rewrite emits_nil.
    - exists []. by rewrite emits_nil. }
  destruct H4 as [evs4 H4].
  assert (HI5 : Inv (emit (EvProjectUnregister p0) s4)).
  { apply Inv_emit. rewrite H4. by eapply Inv_frame; [apply same_bindings_emits|]. }
  assert (Hc0 : c0 < nextId (emit (EvProjectUnregister p0) s4)).
  { rewrite H4. simpl. rewrite Hn3, Hn2. by eapply inv_unreg_old. }
  pose proof (Inv_abort _ _ Hc0 HI5) as HI6.
  pose proof (same_runtime_abort c0 (emit (EvProjectUnregister p0) s4)) as Hsame6.
  pose proof (abort_aborted c0 (emit (EvProjectUnregister p0) s4)) as Hab6.
  pose proof (abort_views c0 (emit (EvProjectUnregister p0) s4)) as Hv6.
  set (s6 := abort c0 _) in *.
  destruct Hsame6 as (Hp6 & Hr6 & Hst6 & Ht6 & Hur6 & Hus6 & Hh6 & _ & Hpl6 & Hn6 & _).
  rewrite H4 in *. simpl in *.
  assert (Hun6 : unregisterPreviousProject s6 = Some (p0, c0))
    by (by rewrite Hur6, Hur3, Hur2).
  split; [by apply Inv_emit|].
  split; [by rewrite Ht6, Ht3|].
  split.
  { apply map_empty. intros m. rewrite Hv6, Hv3.
    case_decide as Hin; [done|]. rewrite Hv2.
    destruct (monitorViews s !! m) as [va|] eqn:Hm; [|done].
    destruct (inv_views_tracked _ HI m va Hm) as (p & Hp & Hmem).
    rewrite (inv_bound _ HI), Hun in Hp. simplify_eq/=.
    destruct Hin. unfold monitorsIn in Hmem. by rewrite Hh2. }
  split.
  { destruct (updateListeners s6) as [|[m c] l] eqn:Hl; [done|].
    destruct (inv_update_listeners _ HI6 m c) as (p & Hu & _); [rewrite Hl; left|].
    rewrite Hun6 in Hu. simplify_eq.
    destruct (inv_update_live _ HI6 (m, c)); [rewrite Hl; left|done]. }
  split.
  { destruct (createListeners s6) as [|[p c] l] eqn:Hl; [done|].
    pose proof (inv_create_listeners _ HI6 p c) as Hu.
    rewrite Hun6 in Hu. specialize (Hu ltac:(rewrite Hl; left)). simplify_eq.
    destruct (inv_create_live _ HI6 (p, c)); [rewrite Hl; left|done]. }
  split; [done|].
  split; [by rewrite Hn6, Hn3|].
  split; [by rewrite Hr6, Hr3|].
  split; [by rewrite Hst6, Hst3|].
  split; [by rewrite Hh6, Hh3|].
  split; [by rewrite Hus6, Hus3|done].
Qed.

(** A runtime with no project bound and nothing left of an earlier one. *)
Definition unbound (s : State) : Prop :=
  project s = None ∧ unregisterPreviousProject s = None ∧
  monitorViews s = ∅ ∧ updateListeners s = [] ∧ createListeners s = [].

Lemma teardownProject_spec s :
  Inv s →
  let s' := teardownProject s in
  Inv s' ∧ unbound s' ∧
  (∀ p0 c0, unregisterPreviousProject s = Some (p0, c0) →
     steppingInterval s' = None ∧ c0 ∈ aborted s') ∧
  nextId s' = nextId s ∧ renderer s' = renderer s ∧ stage s' = stage s ∧
  projectHeap s' = projectHeap s ∧ unsetPreviousStage s' = unsetPreviousStage s.
Proof.
  intros HI. unfold teardownProject.
  destruct (unregisterPreviousProject s) as [[p0 c0]|] eqn:Hun.
  - rewrite unregisterProject_rest.
    destruct (unregisterRest_spec p0 c0 s HI Hun)
      as (HI' & Ht & Hv & Hu & Hc & Hab & Hn & Hr & Hst & Hh & Hus & Hur).
    generalize dependent (unregisterRest p0 c0 s). intros s' HI' Ht Hv Hu Hc Hab Hn Hr Hst Hh Hus Hur.
    split.
    { destruct HI'. split; simpl; try done.
      - intros m va. by rewrite Hv, lookup_empty.
      - intros m c. rewrite Hu. by intros ?%not_elem_of_nil.
      - intros m c. rewrite Hc. by intros ?%not_elem_of_nil. }
    split; [by repeat split|].
    split; [intros ? ? [= <- <-]; by split|].
    by repeat split.
  - pose proof (inv_bound _ HI) as Hp. rewrite Hun in Hp. simpl in Hp.
    split; [done|]. split; [|split; [done|by repeat split]].
    split; [done|]. split; [done|]. split; [|split].
    + apply map_empty. intros m. destruct (monitorViews s !! m) as [va|] eqn:Hm; [|done].
      destruct (inv_views_tracked _ HI m va Hm) as (p & Hp' & _). congruence.
    + destruct (updateListeners s) as [|[m c] l] eqn:Hl; [done|].
      destruct (inv_update_listeners _ HI m c) as (p & Hu & _); [rewrite Hl; left|].
      congruence.
    + destruct (createListeners s) as [|[p c] l] eqn:Hl; [done|].
      pose proof (inv_create_listeners _ HI p c) as Hu.
      specialize (Hu ltac:(rewrite Hl; left)). congruence.
Qed.

Lemma handleMonitorCreated_eq c m s :
  handleMonitorCreated c m s =
  if decide (is_Some (stage s) ∧ c ∉ aborted s)
  then set_updateListeners (updateListeners s ++ [(m, c)]) s
  else s.
Proof.
  unfold handleMonitorCreated, addListener. cbn [snd].
  destruct (stage s) as [st|] eqn:Hst.
  - destruct (decide (c ∈ aborted s)) as [Hc|Hc].
    + rewrite decide_False by naive_solver. by destruct s.
    + by rewrite decide_True by (split; [by eexists|done]).
  - rewrite decide_False; [done|]. by intros [[] _].
Qed.

(** The replay loop of [setProject]: one ['updatemonitor'] listener per
    monitor of the collection, in order, if a stage is attached. *)
Lemma replay_created c (l : list MonitorEntry) s :
  foldl (λ acc e, handleMonitorCreated c (monitor e) acc) s l =
  if decide (is_Some (stage s) ∧ c ∉ aborted s)
  then set_updateListeners (updateListeners s ++ ((λ e, (monitor e, c)) <$> l)) s
  else s.
Proof.
  revert s. induction l as [|e l IH]; intros s.
  - simpl. case_decide; [|done]. destruct s; unfold set_updateListeners; simpl.
    by rewrite app_nil_r.
  - cbn [foldl]. rewrite IH, handleMonitorCreated_eq.
    destruct (decide (is_Some (stage s) ∧ c ∉ aborted s)) as [H|H].
    + cbn [stage aborted set_updateListeners]. rewrite decide_True by done.
      rewrite fmap_cons. unfold set_updateListeners. cbn.
      by rewrite <- app_assoc.
    + by rewrite decide_False by done.
Qed.

(** What [bindProject] leaves behind, for a runtime with nothing bound: a
    fresh controller, the ['createmonitor'] subscription, and (if a stage is
    attached) one ['updatemonitor'] listener per monitor of the project. *)
Lemma bindProject_fields p s :
  Inv s → unbound s →
  let s' := bindProject p (set_project (Some p) s) in
  let c := nextId s in
  project s' = Some p ∧ unregisterPreviousProject s' = Some (p, c) ∧
  createListeners s' = [(p, c)] ∧
  updateListeners s' = (if stage s is Some _
                        then (λ e, (monitor e, c)) <$> monitorsOf (projectHeap s p)
                        else []) ∧
  monitorViews s' = ∅ ∧ aborted s' = aborted s ∧ nextId s' = S (nextId s) ∧
  sliderListeners s' = sliderListeners s ∧
  unsetPreviousStage s' = unsetPreviousStage s ∧ projectHeap s' = projectHeap s ∧
  stage s' = stage s ∧ renderer s' = renderer s ∧
  steppingInterval s' = steppingInterval s ∧
  trace s' = trace s ++ [EvInterpreterSetProject (Some p); EvProjectRegister p].
Proof.
  intros HI (Hp & Hun & Hv & Hu & Hc). cbv zeta.
  assert (Hfresh : nextId s ∉ aborted s).
  { intros H. apply (inv_aborted_old _ HI) in H. lia. }
  unfold bindProject, subscribeProject. cbn [alloc]. rewrite replay_created.
  unfold addListener. cbn.
  destruct (decide (nextId s ∈ aborted s)) as [?|_]; [done|].
  rewrite Hu, Hc. cbn.
  destruct (stage s) as [st|] eqn:Hst.
  - destruct (decide (is_Some (Some st) ∧ nextId s ∉ aborted s)) as [_|H];
      [|destruct H; split; [by eexists|done]].
    cbn. repeat split; try done. by rewrite <- app_assoc.
  - destruct (decide (is_Some None ∧ nextId s ∉ aborted s)) as [[[x Hx] _]|_]; [done|].
    cbn. repeat split; try done. by rewrite <- app_assoc.
Qed.

Lemma bindProject_Inv p s :
  Inv s → unbound s → Inv (bindProject p (set_project (Some p) s)).
Proof.
  intros HI Hub.
  destruct (bindProject_fields p s HI Hub)
    as (Hp & Hun & Hc & Hu & Hv & Ha & Hn & Hsl & Hus & Hh & Hst & _).
  generalize dependent (bindProject p (set_project (Some p) s)).
  intros s' Hp Hun Hc Hu Hv Ha Hn Hsl Hus Hh Hst.
  assert (Hfresh : nextId s ∉ aborted s).
  { intros H. apply (inv_aborted_old _ HI) in H. lia. }
  destruct HI. split; unfold monitorsIn; rewrite ?Hp, ?Hun, ?Hc, ?Hu, ?Hv, ?Ha, ?Hn, ?Hsl, ?Hus, ?Hh.
  - intros c H. specialize (inv_aborted_old0 c H). lia.
  - intros m v a. by rewrite lookup_empty.
  - intros l H. specialize (inv_slider_old0 l H). lia.
  - intros r c H. specialize (inv_unset_old0 r c H). lia.
  - intros p' c [= <- <-]. lia.
  - intros l ->%list_elem_of_singleton. done.
  - intros [m c] Hl. destruct (stage s); [|by apply not_elem_of_nil in Hl].
    apply list_elem_of_fmap in Hl as (e & [= -> ->] & _). done.
  - done.
  - intros m va. by rewrite lookup_empty.
  - intros m c Hl. destruct (stage s); [|by apply not_elem_of_nil in Hl].
    apply list_elem_of_fmap in Hl as (e & [= -> ->] & He).
    exists p. split; [done|]. by apply list_elem_of_fmap_2.
  - intros p' c [= -> ->]%list_elem_of_singleton. done.
Qed.

Lemma setProject_Inv proj s : Inv s → Inv (setProject proj s).
Proof.
  intros HI. unfold setProject. cbv zeta.
  destruct (teardownProject_spec s HI) as (HI1 & Hub & _).
  destruct proj as [p|].
  - by apply bindProject_Inv.
  - destruct Hub as (Hp & _). eapply Inv_frame; [|exact HI1]. by repeat split.
Qed.

(** *** Every operation keeps the runtime well formed *)

Lemma attachStage_Inv stg s : Inv s → Inv (attachStage stg s).
Proof.
  intros HI. unfold attachStage.
  set (s1 := match unsetPreviousStage s with
             | Some (r, ls) => set_unsetPreviousStage None (unsetStage r ls s)
             | None => s
             end).
  assert (HI1 : Inv s1).
  { unfold s1. destruct (unsetPreviousStage s) as [[r ls]|] eqn:Hus; [|done].
    assert (HI' : Inv (unsetStage r ls s)).
    { unfold unsetStage. destruct ls as [c|].
      - apply Inv_abort; [simpl; by eapply inv_unset_old|].
        eapply Inv_frame; [|exact HI]. by repeat split.
      - eapply Inv_frame; [|exact HI]. by repeat split. }
    destruct HI'. by split. }
  clearbody s1. destruct stg as [st|]; [|done].
  unfold setupEventListeners. cbn.
  destruct HI1. split; simpl; try done.
  - intros c Hc. specialize (inv_aborted_old0 c Hc). lia.
  - intros m v a H. specialize (inv_views_old0 m v a H). lia.
  - intros l H. specialize (inv_slider_old0 l H). lia.
  - intros r c [= <- <-]. lia.
  - intros p c H. specialize (inv_unreg_old0 p c H). lia.
Qed.

Lemma step_same_bindings s : same_bindings s (step s).1.
Proof. destruct (step_summary s) as (evs & -> & _). apply same_bindings_emits. Qed.

Lemma start_Inv s : Inv s → Inv (start s).1.
Proof.
  intros HI. unfold start. destruct (steppingInterval s); [done|]. cbn.
  eapply Inv_frame; [apply step_same_bindings|].
  eapply Inv_frame; [|exact HI]. repeat split; simpl; try done. lia.
Qed.

Lemma apply_Inv domToScratchKey o s : Inv s → Inv (apply domToScratchKey o s).
Proof.
  intros HI. destruct o; simpl.
  - by apply setProject_Inv.
  - by apply attachStage_Inv.
  - by apply start_Inv.
  - destruct (stop_fields s) as (_ & H & _). by eapply Inv_frame.
  - by apply setProject_Inv.
  - case_decide; [|done]. eapply Inv_frame; [apply step_same_bindings|done].
  - unfold projectCreatesMonitor. apply dispatchCreate_Inv.
    + destruct HI. split; unfold monitorsIn; simpl; try done.
      * intros m va H. destruct (inv_views_tracked0 m va H) as (p' & Hp' & Hin).
        exists p'. split; [done|]. unfold monitorsIn in Hin.
        destruct (decide (p = p')) as [->|Hne].
        -- rewrite fn_lookup_insert. simpl. rewrite fmap_app. apply elem_of_app. by left.
        -- by rewrite fn_lookup_insert_ne.
      * intros m c H. destruct (inv_update_listeners0 m c H) as (p' & Hp' & Hin).
        exists p'. split; [done|]. unfold monitorsIn in Hin.
        destruct (decide (p = p')) as [->|Hne].
        -- rewrite fn_lookup_insert. simpl. rewrite fmap_app. apply elem_of_app. by left.
        -- by rewrite fn_lookup_insert_ne.
    + unfold monitorsIn. simpl. rewrite fn_lookup_insert. simpl.
      rewrite fmap_app. apply elem_of_app. right. by left.
  - unfold monitorUpdates. apply dispatchUpdate_Inv.
    eapply Inv_frame; [|exact HI]. by repeat split.
  - destruct (listening st s); [|done]. unfold keydown.
    destruct (domToScratchKey k); [|done].
    eapply Inv_frame; [|exact HI]. by repeat split.
  - apply foldl_Inv; [|done]. intros acc _ Hacc. unfold keyup.
    destruct (domToScratchKey k); [|done].
    eapply Inv_frame; [|exact Hacc]. by repeat split.
  - apply foldl_Inv; [|done]. intros acc _ Hacc.
    eapply Inv_frame; [|exact Hacc]. by repeat split.
  - apply foldl_Inv; [|done]. intros acc _ Hacc.
    eapply Inv_frame; [|exact Hacc]. by repeat split.
Qed.

Lemma run_Inv domToScratchKey ops s : Inv s → Inv (run domToScratchKey ops s).
Proof. unfold run. apply foldl_Inv. intros acc o. apply apply_Inv. Qed.

(** The states the runtime can be in: those that some sequence of calls and
    events produces from a newly constructed runtime. *)
Definition reachable (s : State) : Prop :=
  ∃ domToScratchKey ops ph mh vb vl pl,
    s = run domToScratchKey ops (initial ph mh vb vl pl).

Lemma reachable_Inv s : reachable s → Inv s.
Proof. intros (dk & ops & ph & mh & vb & vl & pl & ->). apply run_Inv, Inv_initial. Qed.

(** *** Project teardowns in the trace *)

Definition is_register (e : Event) : bool :=
  match e with EvProjectRegister _ => true | _ => false end.

Definition is_unregister (e : Event) : bool :=
  match e with EvProjectUnregister _ => true | _ => false end.

(** A teardown callback is pending from the moment [project.register()]
    returns it until it is called. *)
Definition pendingTeardowns (evs : list Event) : Z :=
  Z.of_nat (count is_register evs) - Z.of_nat (count is_unregister evs).

(** At every moment of the history [evs], no more than one teardown callback
    is pending (and never fewer than none). *)
Definition one_teardown_at_a_time (evs : list Event) : Prop :=
  ∀ pre, pre `prefix_of` evs → (0 ≤ pendingTeardowns pre ≤ 1)%Z.

(** Events that neither create nor run a teardown callback. *)
Definition quiet (e : Event) : Prop :=
  is_register e = false ∧ is_unregister e = false.

(** [s'] comes after [s] and only quiet events were recorded in between. *)
Definition quiet_step (s s' : State) : Prop :=
  ∃ evs, trace s' = trace s ++ evs ∧ Forall quiet evs.

Lemma quiet_refl s : quiet_step s s.
Proof. exists []. by rewrite app_nil_r. Qed.

Lemma quiet_trans s1 s2 s3 : quiet_step s1 s2 → quiet_step s2 s3 → quiet_step s1 s3.
Proof.
  intros (e1 & H1 & F1) (e2 & H2 & F2). exists (e1 ++ e2).
  split; [by rewrite H2, H1, app_assoc|by apply Forall_app].
Qed.

Lemma quiet_emits evs s : Forall quiet evs → quiet_step s (emits evs s).
Proof. intros H. by exists evs. Qed.

Lemma quiet_same s s' : trace s' = trace s → quiet_step s s'.
Proof. intros H. exists []. by rewrite app_nil_r. Qed.

Lemma quiet_abort c s : quiet_step s (abort c s).
Proof.
  unfold abort. case_decide; [apply quiet_refl|].
  exists [EvAbort c]. split; [done|]. by repeat constructor.
Qed.

Lemma quiet_removeMonitorView m s : quiet_step s (removeMonitorView m s).
Proof.
  unfold removeMonitorView. destruct (monitorViews s !! m) as [[v a]|]; [|apply quiet_refl].
  eapply quiet_trans; [|by apply quiet_same].
  eapply quiet_trans; [|apply quiet_abort].
  apply (quiet_emits [EvViewRemove v]). by repeat constructor.
Qed.

Lemma quiet_foldl {A} (f : State → A → State) (l : list A) s :
  (∀ acc x, quiet_step acc (f acc x)) → quiet_step s (foldl f s l).
Proof.
  intros Hf. revert s. induction l as [|x l IH]; intros s; simpl; [apply quiet_refl|].
  eapply quiet_trans; [apply Hf|apply IH].
Qed.

Lemma quiet_fetchOrCreateView st m s : quiet_step s (fetchOrCreateView st m s).2.
Proof.
  unfold fetchOrCreateView. destruct (monitorViews s !! m) as [[view ab0]|];
    [apply quiet_refl|].
  cbn. exists [EvCreateMonitorView st (nextId s)]. split; [done|]. by repeat constructor.
Qed.

Lemma quiet_emit e s : quiet e → quiet_step s (emit e s).
Proof. intros H. apply (quiet_emits [e]). by constructor. Qed.

Lemma quiet_position m pos s : quiet_step s (monitor_update_position m pos s).
Proof. by apply quiet_same. Qed.

Lemma quiet_renderView p m view s : quiet_step s (renderView p m view s).
Proof.
  unfold renderView. cbv zeta.
  destruct (position _); destruct (colorCategory _);
    repeat first
      [ apply quiet_refl
      | eapply quiet_trans; [|apply quiet_emit; by split]
      | eapply quiet_trans; [|apply quiet_position] ].
Qed.

Lemma quiet_handleMonitorUpdated m s : quiet_step s (handleMonitorUpdated m s).
Proof.
  unfold handleMonitorUpdated.
  destruct (project s) as [p|]; [|apply quiet_refl].
  destruct (stage s) as [st|]; [|apply quiet_refl].
  destruct (negb (visible (monitorHeap s m))); [apply quiet_removeMonitorView|].
  pose proof (quiet_fetchOrCreateView st m s) as H.
  destruct (fetchOrCreateView st m s) as [view s1]. simpl in H.
  eapply quiet_trans; [exact H|apply quiet_renderView].
Qed.

Lemma handleMonitorCreated_trace c m s : trace (handleMonitorCreated c m s) = trace s.
Proof. unfold handleMonitorCreated. by destruct (stage s). Qed.

Lemma quiet_stop s : quiet_step s (stop s).
Proof.
  unfold stop. destruct (steppingInterval s) as [t|]; [|apply quiet_refl].
  exists [EvClearInterval t]. split; [done|]. by repeat constructor.
Qed.

Lemma quiet_step_tick s : quiet_step s (step s).1.
Proof.
  pose proof (step_events s) as H.
  destruct (project s) as [p|]; [destruct (stageOf (projectHeap s p)) as [stg|]|];
    rewrite H; simpl.
  - apply quiet_emits. constructor; [done|]. apply Forall_app. split.
    + eapply Forall_impl; [apply Forall_launches|]. by intros [].
    + destruct (renderer s); by repeat constructor.
  - apply quiet_emits. by repeat constructor.
  - apply quiet_refl.
Qed.

Lemma quiet_attachStage stg s : quiet_step s (attachStage stg s).
Proof.
  unfold attachStage.
  set (s1 := match unsetPreviousStage s with
             | Some (r, ls) => set_unsetPreviousStage None (unsetStage r ls s)
             | None => s
             end).
  assert (H1 : quiet_step s s1).
  { unfold s1. destruct (unsetPreviousStage s) as [[r ls]|]; [|apply quiet_refl].
    eapply quiet_trans; [|by apply quiet_same]. unfold unsetStage.
    assert (H : quiet_step s (emit (EvRendererDestroy r) (set_stage None
                (emit (EvInterpreterSetRenderer None) (set_renderer None s))))).
    { unfold quiet_step. simpl. rewrite <- ?app_assoc. simpl.
      eexists; split; [reflexivity|by repeat constructor]. }
    destruct ls as [c|]; [|done]. eapply quiet_trans; [exact H|apply quiet_abort]. }
  clearbody s1. destruct stg as [st|]; [|done].
  eapply quiet_trans; [exact H1|]. unfold setupEventListeners. cbn.
  unfold quiet_step. simpl. rewrite <- ?app_assoc. simpl.
  eexists; split; [reflexivity|by repeat constructor].
Qed.

Lemma quiet_start s : quiet_step s (start s).1.
Proof.
  unfold start. destruct (steppingInterval s); [apply quiet_refl|]. cbn.
  eapply quiet_trans; [|apply quiet_step_tick].
  exists [EvSetInterval (nextId s)]. split; [done|]. by repeat constructor.
Qed.

(** A checker for [one_teardown_at_a_time]: it walks through the history with
    the number [n] of pending callbacks and gives up as soon as a second one
    is created or a missing one is run. *)
Fixpoint teardownsOK (n : nat) (evs : list Event) : option nat :=
  match evs with
  | [] => Some n
  | e :: evs =>
      if is_register e then
        match n with 0 => teardownsOK 1 evs | _ => None end
      else if is_unregister e then
        match n with 1 => teardownsOK 0 evs | _ => None end
      else teardownsOK n evs
  end.

Lemma teardownsOK_app n l1 l2 :
  teardownsOK n (l1 ++ l2) = teardownsOK n l1 ≫= λ k, teardownsOK k l2.
Proof.
  revert n. induction l1 as [|e l1 IH]; intros n; simpl; [done|].
  destruct (is_register e); [destruct n; [apply IH|done]|].
  destruct (is_unregister e); [destruct n as [|[|n]]; [done|apply IH|done]|].
  apply IH.
Qed.

Lemma teardownsOK_quiet n l : Forall quiet l → teardownsOK n l = Some n.
Proof.
  induction 1 as [|e l [H1 H2] _ IH]; simpl; [done|]. by rewrite H1, H2.
Qed.

Lemma pendingTeardowns_cons e l :
  pendingTeardowns (e :: l)
  = ((if is_register e then 1 else 0) - (if is_unregister e then 1 else 0)
     + pendingTeardowns l)%Z.
Proof.
  unfold pendingTeardowns, count. rewrite !filter_cons.
  destruct (is_register e), (is_unregister e); simpl;
    repeat case_decide; try done; simpl; lia.
Qed.

Lemma teardownsOK_sound n evs k :
  n ≤ 1 → teardownsOK n evs = Some k →
  k ≤ 1 ∧ (Z.of_nat n + pendingTeardowns evs = Z.of_nat k)%Z ∧
  ∀ pre, pre `prefix_of` evs → (0 ≤ Z.of_nat n + pendingTeardowns pre ≤ 1)%Z.
Proof.
  revert n. induction evs as [|e evs IH]; intros n Hn; simpl.
  - intros [= <-]. change (pendingTeardowns []) with 0%Z.
    split; [done|]. split; [lia|].
    intros pre ->%prefix_nil_inv. change (pendingTeardowns []) with 0%Z. lia.
  - intros H.
    assert (Hstep : ∃ n', n' ≤ 1 ∧ teardownsOK n' evs = Some k ∧
              (Z.of_nat n' = Z.of_nat n + (if is_register e then 1 else 0)
                             - (if is_unregister e then 1 else 0))%Z).
    { destruct e; simpl in *;
        try (exists n; split; [done|split; [done|lia]]).
      - destruct n; [|done]. exists 1. split; [lia|split; [done|lia]].
      - destruct n as [|[|n]]; try done. exists 0. split; [lia|split; [done|lia]]. }
    destruct Hstep as (n' & Hn' & Hk & Heq).
    destruct (IH n' Hn' Hk) as (Hk1 & Hsum & Hpre).
    split; [done|]. split; [rewrite pendingTeardowns_cons; lia|].
    intros [|e' pre] Hp.
    + change (pendingTeardowns []) with 0%Z. lia.
    + pose proof (prefix_cons_inv_1 _ _ _ _ Hp) as ->.
      apply prefix_cons_inv_2 in Hp. specialize (Hpre pre Hp).
      rewrite pendingTeardowns_cons. lia.
Qed.

(** The checker accepts the history, and what is pending at its end is the
    callback stored in [unregisterPreviousProject], if any. *)
Definition Pending (s : State) : Prop :=
  teardownsOK 0 (trace s)
  = Some (if unregisterPreviousProject s is Some _ then 1 else 0).

Lemma Pending_quiet s s' :
  quiet_step s s' → unregisterPreviousProject s' = unregisterPreviousProject s →
  Pending s → Pending s'.
Proof.
  intros (evs & Ht & Hq) Hun HP. unfold Pending in *.
  rewrite Ht, Hun, teardownsOK_app, HP. simpl. by apply teardownsOK_quiet.
Qed.

Lemma Pending_sound s :
  Pending s → one_teardown_at_a_time (trace s) ∧
  pendingTeardowns (trace s)
  = (if unregisterPreviousProject s is Some _ then 1 else 0)%Z.
Proof.
  intros HP. unfold Pending in HP.
  apply teardownsOK_sound in HP as (_ & Hsum & Hpre); [|lia].
  split.
  - intros pre Hp. specialize (Hpre pre Hp). lia.
  - destruct (unregisterPreviousProject s); lia.
Qed.

Lemma removeMonitorView_trace m s :
  trace (removeMonitorView m s) =
  trace s ++ match monitorViews s !! m with
             | Some (v, a) =>
                 EvViewRemove v :: (if decide (a ∈ aborted s) then [] else [EvAbort a])
             | None => []
             end.
Proof.
  unfold removeMonitorView. destruct (monitorViews s !! m) as [[v a]|].
  - unfold abort. simpl. case_decide; simpl; [done|]. by rewrite <- app_assoc.
  - by rewrite app_nil_r.
Qed.

Lemma removeAll_trace (l : list MonitorEntry) s :
  ∃ evs, trace (foldl (λ acc e, removeMonitorView (monitor e) acc) s l) = trace s ++ evs ∧
         Forall quiet evs ∧
         ∀ m v a, m ∈ monitor <$> l → monitorViews s !! m = Some (v, a) →
                  EvViewRemove v ∈ evs.
Proof.
  revert s. induction l as [|e l IH]; intros s.
  - exists []. split; [by rewrite app_nil_r|]. split; [done|].
    intros m v a Hm. by apply not_elem_of_nil in Hm.
  - cbn [foldl]. destruct (IH (removeMonitorView (monitor e) s)) as (evs & Ht & Hq & Hin).
    destruct (quiet_removeMonitorView (monitor e) s) as (evs0 & Ht0 & Hq0).
    exists (evs0 ++ evs). split; [by rewrite Ht, Ht0, app_assoc|].
    split; [by apply Forall_app|].
    intros m v a Hm Hv. rewrite fmap_cons in Hm. apply elem_of_cons in Hm.
    apply elem_of_app. destruct (decide (m = monitor e)) as [->|Hne].
    + left. rewrite removeMonitorView_trace, Hv in Ht0.
      apply app_inv_head in Ht0. rewrite <- Ht0. left.
    + right. destruct Hm as [?|Hm]; [done|]. apply (Hin m v a Hm).
      by rewrite removeMonitorView_views, lookup_delete_ne.
Qed.

(** The calls that the previous project's teardown makes, in order: the timer
    is cleared, the views of the project's monitors are removed and the pen
    layer is cleared, all before the project is unregistered; nothing in it
    creates, or runs, another teardown callback. *)
Lemma unregisterRest_trace p0 c0 s :
  ∃ pre post,
    trace (unregisterRest p0 c0 s) = trace s ++ pre ++ EvProjectUnregister p0 :: post ∧
    Forall quiet pre ∧ Forall quiet post ∧
    (∀ t, steppingInterval s = Some t → EvClearInterval t ∈ pre) ∧
    (∀ m v a, m ∈ monitorsIn s p0 → monitorViews s !! m = Some (v, a) →
       EvViewRemove v ∈ pre) ∧
    (∀ r, renderer s = Some r → penLayers s r = true → EvPenLayerClear r ∈ pre) ∧
    EvInterpreterSetProject None ∈ post.
Proof.
  unfold unregisterRest. cbv zeta.
  destruct (stop_fields s) as (_ & Hb2 & Hr2 & _ & Hpl2 & _).
  destruct Hb2 as (_ & Hv2 & _ & _ & _ & _ & _ & _ & Hh2 & _).
  assert (H2 : ∃ evs2, trace (stop s) = trace s ++ evs2 ∧ Forall quiet evs2 ∧
                       ∀ t, steppingInterval s = Some t → EvClearInterval t ∈ evs2).
  { unfold stop. destruct (steppingInterval s) as [t|].
    - exists [EvClearInterval t]. split; [done|]. split; [by repeat constructor|].
      intros ? [= <-]. left.
    - exists []. split; [by rewrite app_nil_r|]. split; [done|]. by intros. }
  destruct H2 as (evs2 & Ht2 & Hq2 & Hin2).
  set (s2 := stop s) in *. clearbody s2.
  destruct (removeAll_trace (monitorsOf (projectHeap s2 p0)) s2) as (evs3 & Ht3 & Hq3 & Hin3).
  destruct (removeAll_spec (monitorsOf (projectHeap s2 p0)) s2) as [Hsame3 _].
  destruct Hsame3 as (_ & Hr3 & _ & _ & _ & _ & _ & _ & Hpl3 & _).
  set (s3 := foldl _ s2 _) in *. clearbody s3.
  set (s4 := match renderer s3 with
             | Some r => if penLayers s3 r then emit (EvPenLayerClear r) s3 else s3
             | None => s3
             end).
  assert (H4 : ∃ evs4, trace s4 = trace s3 ++ evs4 ∧ Forall quiet evs4 ∧
                       ∀ r, renderer s = Some r → penLayers s r = true →
                            EvPenLayerClear r ∈ evs4).
  { unfold s4. rewrite Hr3, Hr2, Hpl3, Hpl2. destruct (renderer s) as [r|].
    - destruct (penLayers s r) eqn:Hpl.
      + exists [EvPenLayerClear r]. split; [done|]. split; [by repeat constructor|].
        intros ? [= <-] _. left.
      + exists []. split; [by rewrite app_nil_r|]. split; [done|].
        intros ? [= <-] ?. congruence.
    - exists []. split; [by rewrite app_nil_r|]. split; [done|]. by intros. }
  destruct H4 as (evs4 & Ht4 & Hq4 & Hin4). clearbody s4.
  destruct (quiet_abort c0 (emit (EvProjectUnregister p0) s4)) as (evs6 & Ht6 & Hq6).
  exists (evs2 ++ evs3 ++ evs4), (evs6 ++ [EvInterpreterSetProject None]).
  split.
  { simpl. rewrite Ht6. simpl. rewrite Ht4, Ht3, Ht2.
    rewrite <- !app_assoc. simpl. by rewrite <- ?app_assoc. }
  split; [apply Forall_app; split; [done|apply Forall_app; by split]|].
  split; [apply Forall_app; split; [done|by repeat constructor]|].
  split; [intros t Ht; apply elem_of_app; left; by apply Hin2|].
  split.
  { intros m v a Hm Hv. apply elem_of_app. right. apply elem_of_app. left.
    apply (Hin3 m v a).
    - unfold monitorsIn in Hm. by rewrite Hh2.
    - by rewrite Hv2. }
  split.
  { intros r Hr Hpl. apply elem_of_app. right. apply elem_of_app. right. by apply Hin4. }
  apply elem_of_app. right. left.
Qed.

Lemma setProject_Pending proj s : Inv s → Pending s → Pending (setProject proj s).
Proof.
  intros HI HP. unfold setProject. cbv zeta.
  destruct (teardownProject_spec s HI) as (HI1 & Hub & _).
  assert (HP1 : Pending (teardownProject s)).
  { unfold Pending in *. unfold teardownProject.
    destruct (unregisterPreviousProject s) as [[p0 c0]|] eqn:Hun; [|by rewrite Hun].
    rewrite unregisterProject_rest.
    change (trace (set_unregisterPreviousProject None
                     (set_project None (unregisterRest p0 c0 s))))
      with (trace (unregisterRest p0 c0 s)).
    destruct (unregisterRest_trace p0 c0 s) as (pre & post & -> & Hpre & Hpost & _).
    rewrite teardownsOK_app, HP. simpl.
    rewrite teardownsOK_app, (teardownsOK_quiet 1 pre) by done. simpl.
    by apply teardownsOK_quiet. }
  generalize dependent (teardownProject s). intros s1 HI1 Hub HP1.
  destruct proj as [p|].
  - destruct (bindProject_fields p s1 HI1 Hub) as (_ & Hun & _ & _ & _ & _ & _ & _ & _ & _ & _ & _ & _ & Ht).
    unfold Pending in *. rewrite Ht, Hun, teardownsOK_app, HP1.
    destruct Hub as (_ & -> & _). done.
  - done.
Qed.

(** Apart from [setProject], nothing touches the stored teardown callback. *)
Definition calm (s s' : State) : Prop :=
  quiet_step s s' ∧ unregisterPreviousProject s' = unregisterPreviousProject s.

Lemma calm_refl s : calm s s.
Proof. split; [apply quiet_refl|done]. Qed.

Lemma calm_trans s1 s2 s3 : calm s1 s2 → calm s2 s3 → calm s1 s3.
Proof. intros [Q1 U1] [Q2 U2]. split; [by eapply quiet_trans|congruence]. Qed.

Lemma calm_foldl {A} (f : State → A → State) (l : list A) s :
  (∀ acc x, calm acc (f acc x)) → calm s (foldl f s l).
Proof.
  intros Hf. revert s. induction l as [|x l IH]; intros s; simpl; [apply calm_refl|].
  eapply calm_trans; [apply Hf|apply IH].
Qed.

Lemma calm_handleMonitorUpdated m s : calm s (handleMonitorUpdated m s).
Proof.
  split; [apply quiet_handleMonitorUpdated|]. unfold handleMonitorUpdated.
  destruct (project s) as [p|]; [|done]. destruct (stage s) as [st|]; [|done].
  destruct (negb (visible (monitorHeap s m))).
  - by destruct (same_runtime_removeMonitorView m s) as (_ & _ & _ & _ & H & _).
  - assert (H : unregisterPreviousProject (fetchOrCreateView st m s).2
                = unregisterPreviousProject s).
    { unfold fetchOrCreateView. by destruct (monitorViews s !! m) as [[??]|]. }
    destruct (fetchOrCreateView st m s) as [view s1]. simpl in H.
    destruct (renderView_bindings p m view s1) as (_ & _ & _ & _ & H' & _). congruence.
Qed.

Lemma calm_handleMonitorCreated c m s : calm s (handleMonitorCreated c m s).
Proof.
  split; [apply quiet_same, handleMonitorCreated_trace|].
  unfold handleMonitorCreated. by destruct (stage s).
Qed.

Lemma calm_attachStage stg s : calm s (attachStage stg s).
Proof.
  split; [apply quiet_attachStage|]. unfold attachStage.
  set (s1 := match unsetPreviousStage s with
             | Some (r, ls) => set_unsetPreviousStage None (unsetStage r ls s)
             | None => s
             end).
  assert (H1 : unregisterPreviousProject s1 = unregisterPreviousProject s).
  { unfold s1. destruct (unsetPreviousStage s) as [[r [c|]]|]; try done.
    unfold unsetStage. simpl.
    by destruct (same_runtime_abort c (emit (EvRendererDestroy r) (set_stage None
         (emit (EvInterpreterSetRenderer None) (set_renderer None s)))))
      as (_ & _ & _ & _ & H & _). }
  clearbody s1. destruct stg as [st|]; [|done]. by rewrite <- H1.
Qed.

Lemma calm_step s : calm s (step s).1.
Proof.
  split; [apply quiet_step_tick|].
  by destruct (step_same_bindings s) as (_ & _ & _ & _ & H & _).
Qed.

Lemma apply_calm domToScratchKey o s :
  (∀ proj, o ≠ CallSetProject proj) → o ≠ CallDestroy →
  calm s (apply domToScratchKey o s).
Proof.
  intros Hset Hdestroy. destruct o; simpl; try done.
  - by destruct (Hset p).
  - apply calm_attachStage.
  - split; [apply quiet_start|]. unfold start.
    destruct (steppingInterval s); [done|]. cbn.
    by destruct (calm_step (set_steppingInterval (Some (nextId s))
         (emit (EvSetInterval (nextId s)) (set_nextId (S (nextId s)) s)))) as [_ ->].
  - split; [apply quiet_stop|]. unfold stop. by destruct (steppingInterval s).
  - case_decide; [apply calm_step|apply calm_refl].
  - unfold projectCreatesMonitor, dispatchCreate.
    eapply calm_trans; [|apply calm_foldl].
    + split; [by apply quiet_same|done].
    + intros acc l. case_decide; [apply calm_handleMonitorCreated|apply calm_refl].
  - unfold monitorUpdates, dispatchUpdate.
    eapply calm_trans; [|apply calm_foldl].
    + split; [by apply quiet_same|done].
    + intros acc l. case_decide; [apply calm_handleMonitorUpdated|apply calm_refl].
  - destruct (listening st s); [|apply calm_refl]. unfold keydown.
    destruct (domToScratchKey k) as [key|]; [|apply calm_refl].
    split; [|done]. exists [EvPreventDefault; EvStartHats key].
    split; [simpl; by rewrite <- app_assoc|by repeat constructor].
  - apply calm_foldl. intros acc _. unfold keyup.
    destruct (domToScratchKey k); [|apply calm_refl]. split; [by apply quiet_same|done].
  - apply calm_foldl. intros acc _. split; [by apply quiet_same|done].
  - apply calm_foldl. intros acc _. split; [by apply quiet_same|done].
Qed.

Lemma apply_Pending domToScratchKey o s :
  Inv s → Pending s → Pending (apply domToScratchKey o s).
Proof.
  intros HI HP.
  destruct o as [proj| | | | | | | | | | | ];
    try (by unfold apply, destroy; apply setProject_Pending);
    match goal with |- Pending (apply _ ?o _) =>
      destruct (apply_calm domToScratchKey o s ltac:(done) ltac:(done)) as [Hq Hu];
      exact (Pending_quiet _ _ Hq Hu HP)
    end.
Qed.

Lemma reachable_Pending s : reachable s → Pending s.
Proof.
  intros (dk & ops & ph & mh & vb & vl & pl & ->).
  assert (H : ∀ s0, Inv s0 → Pending s0 → Pending (run dk ops s0)).
  { induction ops as [|o ops IH]; intros s0 HI HP; [done|].
    apply IH; [by apply apply_Inv|by apply apply_Pending]. }
  apply H; [apply Inv_initial|done].
Qed.

(** *** C1: rebinding tears the previous project down first *)

(** What [setProject(proj)] does in state [s]: it passes through a state
    [mid] in which the previous project is gone altogether, and only then
    binds [proj]. *)
Definition teardown_then_bind (s : State) (proj : option ProjectId) : Prop :=
  ∃ mid tevs bevs,
    (* first the teardown, then the binding, and nothing else *)
    trace mid = trace s ++ tevs ∧
    trace (setProject proj s) = trace mid ++ bevs ∧
    (* between the two nothing is bound, no teardown callback is stored, no
       view is tracked and no monitor listener is registered *)
    project mid = None ∧ unregisterPreviousProject mid = None ∧
    monitorViews mid = ∅ ∧ updateListeners mid = [] ∧ createListeners mid = [] ∧
    (* the teardown of the previous project [p0], if there was one *)
    match unregisterPreviousProject s with
    | None => tevs = []
    | Some (p0, c0) =>
        project s = Some p0 ∧
        steppingInterval mid = None ∧ c0 ∈ aborted mid ∧
        ∃ pre post,
          tevs = pre ++ EvProjectUnregister p0 :: post ∧
          Forall quiet pre ∧ Forall quiet post ∧
          (∀ t, steppingInterval s = Some t → EvClearInterval t ∈ pre) ∧
          (∀ m v a, monitorViews s !! m = Some (v, a) → EvViewRemove v ∈ pre) ∧
          (∀ r, renderer s = Some r → penLayers s r = true →
             EvPenLayerClear r ∈ pre) ∧
          EvInterpreterSetProject None ∈ post
    end ∧
    (* the binding of the new project: its registration with the interpreter
       and with the project, one stored teardown callback, the subscription
       to its monitor creations and its monitors' listeners *)
    match proj with
    | None => bevs = [] ∧ setProject proj s = mid
    | Some p =>
        bevs = [EvInterpreterSetProject (Some p); EvProjectRegister p] ∧
        project (setProject proj s) = Some p ∧
        unregisterPreviousProject (setProject proj s) = Some (p, nextId mid) ∧
        createListeners (setProject proj s) = [(p, nextId mid)] ∧
        ∀ l, l ∈ updateListeners (setProject proj s) →
             l.1 ∈ monitorsIn s p ∧ l.2 = nextId mid
    end ∧
    (* over the whole history, at most one teardown callback is pending *)
    one_teardown_at_a_time (trace (setProject proj s)) ∧
    pendingTeardowns (trace (setProject proj s)) = (if proj is Some _ then 1 else 0)%Z.

(** C1. In every state that calls and events can lead the runtime to, and
    for every argument, [setProject] first runs the previous project's whole
    teardown (the scheduling loop is stopped, the view of every tracked
    monitor is removed, the pen layer is cleared, the project is unregistered,
    its event scope is aborted, the interpreter is told) and only then binds
    the new project and registers its monitors; through the whole history at
    most one project's teardown callback is pending at any time. *)
Theorem setProject_teardown_first (s : State) (proj : option ProjectId) :
  reachable s → teardown_then_bind s proj.
Proof.
  intros Hr. pose proof (reachable_Inv s Hr) as HI.
  pose proof (reachable_Pending s Hr) as HP.
  destruct (Pending_sound _ (setProject_Pending proj s HI HP)) as [Hone Hcount].
  destruct (teardownProject_spec s HI) as (HI1 & Hub & Htd & Hn & Hr1 & Hst1 & Hh1 & _).
  exists (teardownProject s).
  assert (Htr : ∃ tevs, trace (teardownProject s) = trace s ++ tevs ∧
            match unregisterPreviousProject s with
            | None => tevs = []
            | Some (p0, c0) =>
                ∃ pre post,
                  tevs = pre ++ EvProjectUnregister p0 :: post ∧
                  Forall quiet pre ∧ Forall quiet post ∧
                  (∀ t, steppingInterval s = Some t → EvClearInterval t ∈ pre) ∧
                  (∀ m v a, monitorViews s !! m = Some (v, a) → EvViewRemove v ∈ pre) ∧
                  (∀ r, renderer s = Some r → penLayers s r = true →
                     EvPenLayerClear r ∈ pre) ∧
                  EvInterpreterSetProject None ∈ post
            end).
  { unfold teardownProject.
    destruct (unregisterPreviousProject s) as [[p0 c0]|] eqn:Hun.
    - rewrite unregisterProject_rest.
      destruct (unregisterRest_trace p0 c0 s)
        as (pre & post & Ht & Hpre & Hpost & Hclr & Hviews & Hpen & Hisp).
      exists (pre ++ EvProjectUnregister p0 :: post). split; [done|].
      exists pre, post. repeat (split; [done|]). split; [|done].
      intros m v a Hv. apply (Hviews m v a); [|done].
      destruct (inv_views_tracked _ HI m _ Hv) as (p & Hp & Hin).
      rewrite (inv_bound _ HI), Hun in Hp. by simplify_eq/=.
    - exists []. by rewrite app_nil_r. }
  destruct Htr as (tevs & Htevs & Hshape).
  exists tevs.
  exists (match proj with
          | Some p => [EvInterpreterSetProject (Some p); EvProjectRegister p]
          | None => []
          end).
  destruct Hub as (Hp1 & Hun1 & Hv1 & Hu1 & Hc1).
  split; [done|]. split.
  { unfold setProject. cbv zeta. destruct proj as [p|].
    - by destruct (bindProject_fields p _ HI1 (conj Hp1 (conj Hun1 (conj Hv1 (conj Hu1 Hc1)))))
        as (_&_&_&_&_&_&_&_&_&_&_&_&_&->).
    - simpl. by rewrite app_nil_r. }
  repeat (split; [done|]). split.
  { destruct (unregisterPreviousProject s) as [[p0 c0]|] eqn:Hun; [|done].
    destruct (Htd p0 c0 eq_refl) as [Ht Hab].
    split; [by rewrite (inv_bound _ HI), Hun|]. by repeat (split; [done|]). }
  split.
  { unfold setProject. cbv zeta. destruct proj as [p|].
    - destruct (bindProject_fields p _ HI1 (conj Hp1 (conj Hun1 (conj Hv1 (conj Hu1 Hc1)))))
        as (Hp' & Hun' & Hc' & Hu' & _).
      repeat (split; [done|]). intros [m c]. rewrite Hu', Hst1.
      destruct (stage s); [|by intros ?%not_elem_of_nil].
      intros (e & [= -> ->] & He)%list_elem_of_fmap. split; [|done].
      cbn [fst]. unfold monitorsIn. rewrite <- Hh1. by apply list_elem_of_fmap_2.
    - split; [done|]. destruct (teardownProject s). simpl in *. by subst. }
  split; [done|].
  rewrite Hcount. unfold setProject. cbv zeta. destruct proj as [p|].
  - by destruct (bindProject_fields p _ HI1 (conj Hp1 (conj Hun1 (conj Hv1 (conj Hu1 Hc1)))))
      as (_ & -> & _).
  - simpl. by rewrite Hun1.
Qed.

(** *** C10: updates handled while nothing is attached *)

Lemma unregisterProject_views p c s m :
  m ∈ monitorsIn s p → monitorViews (unregisterProject p c s) !! m = None.
Proof.
  intros Hm. rewrite unregisterProject_rest. unfold unregisterRest. cbv zeta.
  destruct (stop_fields s) as (_ & Hb & _).
  destruct Hb as (_ & _ & _ & _ & _ & _ & _ & _ & Hh & _).
  destruct (removeAll_spec (monitorsOf (projectHeap (stop s) p)) (stop s)) as [_ Hv].
  set (s3 := foldl _ (stop s) _) in *. clearbody s3.
  change (monitorViews (set_project None ?x)) with (monitorViews x).
  change (monitorViews (emit ?e ?x)) with (monitorViews x).
  rewrite abort_views.
  change (monitorViews (emit ?e ?x)) with (monitorViews x).
  assert (H4 : ∀ x, monitorViews (match renderer x with
                      | Some r => if penLayers x r then emit (EvPenLayerClear r) x else x
                      | None => x
                      end) = monitorViews x).
  { intros x. destruct (renderer x) as [r|]; [destruct (penLayers x r)|]; done. }
  rewrite H4, Hv. rewrite decide_True; [done|]. unfold monitorsIn in Hm. by rewrite Hh.
Qed.

(** C10. If no project is set or no display surface is attached when a
    monitor's update notification is handled, [handleMonitorUpdated] changes
    nothing at all: no view is made, and a view the monitor has stays tracked
    with its listener scope as it was, also when the monitor is no longer
    visible.  Such a view is removed, and its scope cancelled, by a later
    update of the invisible monitor that is handled with both attached, and
    it is removed when the project it belongs to is unregistered. *)
Theorem update_without_surface_ignored (m : Monitor) (s : State) :
  project s = None ∨ stage s = None →
  handleMonitorUpdated m s = s ∧
  (∀ v a, monitorViews s !! m = Some (v, a) →
     monitorViews (handleMonitorUpdated m s) !! m = Some (v, a) ∧
     (a ∈ aborted (handleMonitorUpdated m s) ↔ a ∈ aborted s) ∧
     sliderListeners (handleMonitorUpdated m s) = sliderListeners s) ∧
  (∀ s' v a, is_Some (project s') → is_Some (stage s') →
     visible (monitorHeap s' m) = false → monitorViews s' !! m = Some (v, a) →
     monitorViews (handleMonitorUpdated m s') !! m = None ∧
     a ∈ aborted (handleMonitorUpdated m s')) ∧
  (∀ s' p c, m ∈ monitorsIn s' p → monitorViews (unregisterProject p c s') !! m = None).
Proof.
  intros Hnone.
  assert (Heq : handleMonitorUpdated m s = s).
  { unfold handleMonitorUpdated. destruct (project s), (stage s), Hnone; congruence. }
  split; [done|]. split; [by rewrite Heq|]. split.
  - intros s' v a [p Hp] [st Hst] Hvis Hv. unfold handleMonitorUpdated.
    rewrite Hp, Hst, Hvis. simpl. split.
    + by rewrite removeMonitorView_views, lookup_delete_eq.
    + unfold removeMonitorView. rewrite Hv. simpl. apply abort_aborted.
  - intros s' p c. apply unregisterProject_views.
Qed.

(** *** C9: the monitors present when a project is bound *)




(** *** C4: a monitor shown, hidden and shown again *)

Definition is_view_create (e : Event) : bool :=
  match e with EvCreateMonitorView _ _ => true | _ => false end.

Definition is_view_remove (e : Event) : bool :=
  match e with EvViewRemove _ => true | _ => false end.

Definition setVisible (b : bool) (d : MonitorData) : MonitorData :=
  mkMonitor b (position d) (target d) (colorCategory d) (monitorSliderHandler d).

(** The monitor's [visible] flag becomes [b], and the update notification
    that follows is handled. *)
Definition notify (m : Monitor) (b : bool) (s : State) : State :=
  handleMonitorUpdated m
    (set_monitorHeap (<[m := setVisible b (monitorHeap s m)]> (monitorHeap s)) s).

(** The claim as written, for monitor [m] starting without a view in state
    [s]: shown, hidden, shown again, with what each notification records
    ([e1], [e2], [e3]) and leaves behind. *)
Definition view_lifecycle (m : Monitor) (s : State) : Prop :=
  let s1 := notify m true s in
  let s2 := notify m false s1 in
  let s3 := notify m true s2 in
  ∃ e1 e2 e3 v1 a1 v2 a2,
    trace s1 = trace s ++ e1 ∧ trace s2 = trace s1 ++ e2 ∧ trace s3 = trace s2 ++ e3 ∧
    (* shown: exactly one view is created, and tracked *)
    count is_view_create e1 = 1 ∧ count is_view_remove e1 = 0 ∧
    monitorViews s1 !! m = Some (v1, a1) ∧
    (v1, a1) ∈ sliderListeners s1 ∧ (a1 ∉ aborted s1) ∧
    (* hidden: exactly that view is removed, its listener scope is aborted,
       its entry is dropped and no listener of it is left *)
    e2 = [EvViewRemove v1; EvAbort a1] ∧
    monitorViews s2 !! m = None ∧ a1 ∈ aborted s2 ∧
    (∀ l, l ∈ sliderListeners s2 → l.1 ≠ v1 ∧ l.2 ≠ a1) ∧
    (* shown again: exactly one new view is created, and tracked *)
    count is_view_create e3 = 1 ∧ count is_view_remove e3 = 0 ∧
    monitorViews s3 !! m = Some (v2, a2) ∧ v2 ≠ v1 ∧
    (v2, a2) ∈ sliderListeners s3 ∧ a2 ∉ aborted s3.

Lemma renderView_spec p m view s :
  let s' := renderView p m view s in
  project s' = project s ∧ stage s' = stage s ∧
  monitorViews s' = monitorViews s ∧ sliderListeners s' = sliderListeners s ∧
  aborted s' = aborted s ∧ nextId s' = nextId s ∧
  ∃ evs, trace s' = trace s ++ evs ∧
         count is_view_create evs = 0 ∧ count is_view_remove evs = 0.
Proof.
  unfold renderView. cbv zeta.
  destruct (position _); destruct (colorCategory _);
    (do 6 (split; [reflexivity|]));
    cbn [trace emit set_trace monitor_update_position set_monitorHeap];
    rewrite <- ?app_assoc; (eexists; split; [reflexivity|split; reflexivity]).
Qed.

Lemma notify_show m s p st :
  project s = Some p → stage s = Some st → monitorViews s !! m = None →
  S (nextId s) ∉ aborted s →
  let s1 := notify m true s in
  project s1 = Some p ∧ stage s1 = Some st ∧
  monitorViews s1 = <[m := (nextId s, S (nextId s))]> (monitorViews s) ∧
  sliderListeners s1 = sliderListeners s ++ [(nextId s, S (nextId s))] ∧
  aborted s1 = aborted s ∧ nextId s1 = S (S (nextId s)) ∧
  ∃ evs, trace s1 = trace s ++ EvCreateMonitorView st (nextId s) :: evs ∧
         count is_view_create evs = 0 ∧ count is_view_remove evs = 0.
Proof.
  intros Hp Hst Hv Hfresh. unfold notify, handleMonitorUpdated. cbv zeta.
  cbn [project stage monitorHeap set_monitorHeap]. rewrite Hp, Hst.
  rewrite fn_lookup_insert. cbn [visible setVisible negb].
  unfold fetchOrCreateView. cbn [monitorViews set_monitorHeap]. rewrite Hv.
  cbn [alloc]. unfold addListener. cbn [snd aborted set_monitorViews set_nextId emit
    set_trace set_monitorHeap sliderListeners nextId].
  rewrite decide_False by done.
  match goal with |- context [renderView p m ?v ?x] =>
    destruct (renderView_spec p m v x)
      as (Hp' & Hst' & Hv' & Hsl' & Ha' & Hn' & [evs (Ht' & Hc & Hr)])
  end.
  rewrite Hp', Hst', Hv', Hsl', Ha', Hn', Ht'. cbn.
  repeat (split; [done|]). exists evs. by rewrite <- app_assoc.
Qed.

Lemma notify_hide m s p st v a :
  project s = Some p → stage s = Some st → monitorViews s !! m = Some (v, a) →
  a ∉ aborted s →
  let s2 := notify m false s in
  project s2 = Some p ∧ stage s2 = Some st ∧
  monitorViews s2 = delete m (monitorViews s) ∧
  sliderListeners s2 = without a (sliderListeners s) ∧
  aborted s2 = {[a]} ∪ aborted s ∧ nextId s2 = nextId s ∧
  trace s2 = trace s ++ [EvViewRemove v; EvAbort a].
Proof.
  intros Hp Hst Hv Hfresh. unfold notify, handleMonitorUpdated. cbv zeta.
  cbn [project stage monitorHeap set_monitorHeap]. rewrite Hp, Hst.
  rewrite fn_lookup_insert. cbn [visible setVisible negb].
  unfold removeMonitorView. cbn [monitorViews set_monitorHeap]. rewrite Hv.
  unfold abort. cbn [aborted emit set_trace set_monitorHeap].
  rewrite decide_False by done. cbn. repeat (split; [done|]).
  by rewrite <- app_assoc.
Qed.

(** C4, amended. While a project is bound and a display surface is attached,
    a monitor without a view that is shown, hidden and shown again, with the
    update notification handled after each change, gets exactly one view
    created, then exactly that view removed (its listener scope aborted, its
    entry dropped from the tracking map, no listener of it left), then exactly
    one new view created; after each notification the monitor has a view
    if and only if it is visible. *)
Theorem view_lifecycle_with_surface (m : Monitor) (s : State) :
  reachable s → is_Some (project s) → is_Some (stage s) →
  monitorViews s !! m = None →
  view_lifecycle m s.
Proof.
  intros Hr [p Hp] [st Hst] Hv. pose proof (reachable_Inv s Hr) as HI.
  assert (Hf1 : S (nextId s) ∉ aborted s).
  { intros H. apply (inv_aborted_old _ HI) in H. lia. }
  unfold view_lifecycle. cbv zeta.
  destruct (notify_show m s p st Hp Hst Hv Hf1)
    as (Hp1 & Hst1 & Hv1 & Hsl1 & Ha1 & Hn1 & [e1 (Ht1 & Hc1 & Hr1)]).
  set (s1 := notify m true s) in *. clearbody s1.
  assert (Hm1 : monitorViews s1 !! m = Some (nextId s, S (nextId s)))
    by (by rewrite Hv1, lookup_insert_eq).
  assert (Hf1' : S (nextId s) ∉ aborted s1) by (by rewrite Ha1).
  destruct (notify_hide m s1 p st _ _ Hp1 Hst1 Hm1 Hf1')
    as (Hp2 & Hst2 & Hv2 & Hsl2 & Ha2 & Hn2 & Ht2).
  set (s2 := notify m false s1) in *. clearbody s2.
  assert (Hm2 : monitorViews s2 !! m = None) by (by rewrite Hv2, lookup_delete_eq).
  assert (Hf2 : S (nextId s2) ∉ aborted s2).
  { rewrite Ha2, Ha1, Hn2, Hn1.
    intros [E%elem_of_singleton|H]%elem_of_union; [lia|].
    apply (inv_aborted_old _ HI) in H. lia. }
  destruct (notify_show m s2 p st Hp2 Hst2 Hm2 Hf2)
    as (Hp3 & Hst3 & Hv3 & Hsl3 & Ha3 & Hn3 & [e3 (Ht3 & Hc3 & Hr3)]).
  set (s3 := notify m true s2) in *. clearbody s3.
  exists (EvCreateMonitorView st (nextId s) :: e1), [EvViewRemove (nextId s); EvAbort (S (nextId s))],
         (EvCreateMonitorView st (nextId s2) :: e3),
         (nextId s), (S (nextId s)), (nextId s2), (S (nextId s2)).
  split; [done|]. split; [done|]. split; [done|].
  split; [change (EvCreateMonitorView ?a ?b :: ?l) with ([EvCreateMonitorView a b] ++ l);
          rewrite count_app, Hc1; reflexivity|].
  split; [change (EvCreateMonitorView ?a ?b :: ?l) with ([EvCreateMonitorView a b] ++ l);
          rewrite count_app, Hr1; reflexivity|].
  split; [done|].
  split; [rewrite Hsl1; apply elem_of_app; right; left|].
  split; [done|]. split; [done|]. split; [done|].
  split; [rewrite Ha2; apply elem_of_union; left; by apply elem_of_singleton|].
  split.
  { intros l. rewrite Hsl2, Hsl1. intros [Hne Hl]%elem_of_without. split; [|done].
    apply elem_of_app in Hl as [Hl|Hl%list_elem_of_singleton].
    - destruct (inv_slider_old _ HI l Hl). lia.
    - subst l. by destruct Hne. }
  split; [change (EvCreateMonitorView ?a ?b :: ?l) with ([EvCreateMonitorView a b] ++ l);
          rewrite count_app, Hc3; reflexivity|].
  split; [change (EvCreateMonitorView ?a ?b :: ?l) with ([EvCreateMonitorView a b] ++ l);
          rewrite count_app, Hr3; reflexivity|].
  split; [by rewrite Hv3, lookup_insert_eq|].
  split; [rewrite Hn2, Hn1; lia|].
  split; [rewrite Hsl3; apply elem_of_app; right; left|].
  by rewrite Ha3.
Qed.

(** *** Concrete runs *)

(** Project 1 has two monitors and a stage target; project 2 has one monitor
    and no stage target. *)
Definition demoProjects (p : ProjectId) : ProjectData :=
  match p with
  | 1 => mkProject [mkEntry 10 100; mkEntry 11 101] (Some 5) [5; 6]
  | 2 => mkProject [mkEntry 20 200] None [6]
  | _ => mkProject [] None []
  end.

Definition demoMonitors (m : Monitor) : MonitorData :=
  mkMonitor true None None (Some "data"%string) false.

Definition demoKeys (k : string) : option string :=
  if decide (k = "a"%string) then Some "a"%string
  else if decide (k = "ArrowUp"%string) then Some "up arrow"%string
  else None.

Definition fresh : State :=
  initial demoProjects demoMonitors (λ _, None) (λ _ _, (0%float, 0%float)) (λ _, true).

(** A stage is attached and project 1 is bound. *)
Definition bound : State :=
  run demoKeys [CallAttachStage (Some 7); CallSetProject (Some 1)] fresh.

(** Project 1 is running on a stage and monitor 10 is on screen. *)
Definition playing : State :=
  run demoKeys [CallAttachStage (Some 7); CallSetProject (Some 1);
                MonitorUpdates 10 (demoMonitors 10); CallStart] fresh.

(** As [bound], but the stage has been detached again. *)
Definition detached : State :=
  run demoKeys [CallAttachStage (Some 7); CallSetProject (Some 1);
                CallAttachStage None] fresh.

(** Monitor 10 was put on screen, then the stage was detached. *)
Definition shownThenDetached : State :=
  run demoKeys [CallAttachStage (Some 7); CallSetProject (Some 1);
                MonitorUpdates 10 (demoMonitors 10); CallAttachStage None] fresh.

(** Project 2, which has no stage target, is bound. *)
Definition stageless : State :=
  run demoKeys [CallSetProject (Some 2)] fresh.

(** The key "a" is held down on an attached stage. *)
Definition holding : State :=
  run demoKeys [CallAttachStage (Some 7); KeyDown 7 "a"%string] fresh.

Lemma reachable_run ops : reachable (run demoKeys ops fresh).
Proof. by exists demoKeys, ops, demoProjects, demoMonitors, (λ _, None), (λ _ _, (0%float, 0%float)), (λ _, true). Qed.

Example playing_state :
  project playing = Some 1 ∧ stage playing = Some 7 ∧
  monitorViews playing !! 10 = Some (3, 4) ∧ steppingInterval playing = Some 5 ∧
  trace playing =
    [EvRendererCreate 0 7; EvInterpreterSetRenderer (Some 0);
     EvInterpreterSetProject (Some 1); EvProjectRegister 1;
     EvCreateMonitorView 7 3; EvViewUpdate 3 10; EvViewUpdate 3 10;
     EvViewSetColor 3 "data"%string;
     EvSetInterval 5; EvStepThreads; EvLaunch 100 5; EvLaunch 101 5; EvDraw 0 1].
Proof. vm_compute. repeat split. Qed.

Example rebinding_playing :
  trace (setProject (Some 2) playing) =
  trace playing ++
    [EvClearInterval 5; EvViewRemove 3; EvAbort 4; EvPenLayerClear 0;
     EvProjectUnregister 1; EvAbort 2; EvInterpreterSetProject None;
     EvInterpreterSetProject (Some 2); EvProjectRegister 2].
Proof. vm_compute. reflexivity. Qed.

(** *** The theorems at concrete states *)

Lemma setProject_teardown_first_playing :
  reachable playing ∧ teardown_then_bind playing (Some 2).
Proof.
  split; [apply reachable_run|].
  apply (setProject_teardown_first playing (Some 2)). apply reachable_run.
Defined.

Example bound_state :
  project bound = Some 1 ∧ stage bound = Some 7 ∧ steppingInterval bound = None ∧
  monitorViews bound !! 10 = None.
Proof. vm_compute. repeat split. Qed.

Example playing_running : steppingInterval playing = Some 5.
Proof. vm_compute. reflexivity. Qed.

Lemma start_stop_idempotent_bound :
  steppingInterval bound = None ∧ is_Some (steppingInterval playing) ∧
  start playing = (playing, Returned) ∧
  start (start bound).1 = ((start bound).1, Returned) ∧
  stop bound = bound.
Proof.
  destruct bound_state as (_ & _ & Hstopped & _).
  assert (Hrunning : is_Some (steppingInterval playing))
    by (exists 5; exact playing_running).
  split; [done|]. split; [done|].
  split; [by apply (start_stop_idempotent playing)|].
  destruct (start_stop_idempotent bound) as (_ & Hstart & Hstop).
  split; [|by apply Hstop].
  by destruct (Hstart Hstopped) as (t & armed & evs & _ & _ & _ & _ & _ & _ & _ & H).
Defined.

Example stageless_state :
  project fresh = None ∧ project stageless = Some 2 ∧
  stageOf (projectHeap stageless 2) = None.
Proof. vm_compute. repeat split. Qed.

Lemma tick_preconditions_throw_demo :
  project fresh = None ∧ project stageless = Some 2 ∧
  stageOf (projectHeap stageless 2) = None ∧
  step fresh = (fresh, Threw CannotStepWithoutProject) ∧
  stepMonitors stageless = (stageless, Threw ProjectHasNoStage) ∧
  step stageless = (emit EvStepThreads stageless, Threw ProjectHasNoStage).
Proof.
  destruct stageless_state as (H1 & H2 & H3).
  split; [done|]. split; [done|]. split; [done|].
  destruct (tick_preconditions_throw fresh) as [Hfresh _].
  destruct (tick_preconditions_throw stageless) as [_ Hstageless].
  split; [by apply Hfresh|]. by apply (Hstageless 2).
Defined.

(** C8, as written: a recognized key, pressed and released, leaves the keys
    held as they were before the press. *)
Definition press_release_restores (domToScratchKey : string → option string)
    (k : string) (s : State) : Prop :=
  ∀ key, domToScratchKey k = Some key →
         keysDown (keyup domToScratchKey k (keydown domToScratchKey k s)) = keysDown s.

Example demoKeys_a : demoKeys "a"%string = Some "a"%string.
Proof. vm_compute. reflexivity. Qed.

Example demoKeys_F5 : demoKeys "F5"%string = None.
Proof. vm_compute. reflexivity. Qed.

Example holding_keys : keysDown holding = {["a"%string]} ∪ ∅.
Proof. reflexivity. Qed.

(** While "a" is held down, the browser repeats its key-down event; that
    event followed by the key-up event leaves nothing held, and not the "a"
    that was held before. *)
Lemma press_release_of_held_key :
  demoKeys "a"%string = Some "a"%string ∧
  "a"%string ∈ keysDown holding ∧
  ¬ press_release_restores demoKeys "a"%string holding.
Proof.
  split; [exact demoKeys_a|].
  assert (Hheld : "a"%string ∈ keysDown holding).
  { rewrite holding_keys. set_solver. }
  split; [done|]. intros H. specialize (H "a"%string demoKeys_a).
  rewrite (press_release_keys demoKeys _ "a"%string) in H by exact demoKeys_a.
  set_solver.
Qed.

Lemma key_round_trip_fresh :
  demoKeys "a"%string = Some "a"%string ∧ ("a"%string ∉ keysDown fresh) ∧
  demoKeys "F5"%string = None ∧
  keysDown (keyup demoKeys "a"%string (keydown demoKeys "a"%string fresh))
  = keysDown fresh ∧
  keydown demoKeys "F5"%string fresh = fresh ∧ keyup demoKeys "F5"%string fresh = fresh.
Proof.
  assert (Hnot : "a"%string ∉ keysDown fresh) by apply not_elem_of_empty.
  split; [exact demoKeys_a|]. split; [done|]. split; [exact demoKeys_F5|].
  destruct (key_round_trip demoKeys "a"%string fresh) as [Ha _].
  destruct (key_round_trip demoKeys "F5"%string fresh) as [_ Hf5].
  split; [exact (Ha "a"%string demoKeys_a Hnot)|exact (Hf5 demoKeys_F5)].
Defined.





Example detached_state :
  project detached = Some 1 ∧ stage detached = None ∧
  monitorViews detached !! 10 = None ∧
  updateListeners detached = [(10, 2); (11, 2)].
Proof. vm_compute. repeat split. Qed.

Lemma notify_without_surface m b s :
  stage s = None → trace (notify m b s) = trace s.
Proof.
  intros Hst. unfold notify, handleMonitorUpdated.
  cbn [project stage set_monitorHeap]. rewrite Hst. by destruct (project s).
Qed.

(** With the stage detached, the update listener of monitor 10 is still
    registered, but showing, hiding and showing the monitor makes no view. *)
Lemma no_surface_no_view :
  reachable detached ∧ is_Some (project detached) ∧ stage detached = None ∧
  monitorViews detached !! 10 = None ∧ (10, 2) ∈ updateListeners detached ∧
  ¬ view_lifecycle 10 detached.
Proof.
  destruct detached_state as (Hp & Hst & Hv & Hu).
  split; [apply reachable_run|]. split; [by eexists|]. split; [done|].
  split; [done|]. split; [rewrite Hu; left|].
  unfold view_lifecycle. cbv zeta.
  intros (e1 & e2 & e3 & v1 & a1 & v2 & a2 & Ht1 & _ & _ & Hc1 & _).
  pose proof (notify_without_surface 10 true detached Hst) as Hsame.
  rewrite Hsame in Ht1.
  assert (e1 = []) as -> by (apply (app_inv_head (trace detached)); by rewrite app_nil_r).
  discriminate Hc1.
Qed.

Lemma view_lifecycle_bound :
  reachable bound ∧ is_Some (project bound) ∧ is_Some (stage bound) ∧
  monitorViews bound !! 10 = None ∧ view_lifecycle 10 bound.
Proof.
  destruct bound_state as (Hp & Hst & _ & Hv).
  assert (Hp' : is_Some (project bound)) by (by eexists).
  assert (Hst' : is_Some (stage bound)) by (by eexists).
  split; [apply reachable_run|]. split; [done|]. split; [done|]. split; [done|].
  exact (view_lifecycle_with_surface 10 bound (reachable_run _) Hp' Hst' Hv).
Defined.

Example shownThenDetached_state :
  project shownThenDetached = Some 1 ∧ stage shownThenDetached = None ∧
  monitorViews shownThenDetached !! 10 = Some (3, 4).
Proof. vm_compute. repeat split. Qed.

Lemma update_without_surface_ignored_demo :
  stage shownThenDetached = None ∧
  monitorViews shownThenDetached !! 10 = Some (3, 4) ∧
  handleMonitorUpdated 10 shownThenDetached = shownThenDetached.
Proof.
  destruct shownThenDetached_state as (_ & Hst & Hv).
  split; [done|]. split; [done|].
  by destruct (update_without_surface_ignored 10 shownThenDetached (or_intror Hst))
    as [H _].
Defined.

(** *** Pointer presses *)

(** The ['pointerdown'] listener.  [pick] stands for [renderer.pick]; the
    result is the state and the target whose [click()] is called, if any. *)
Definition pointerdown
    (pick : RendererId → list Target → float → float → option Target) (s : State)
  : State * option Target :=
  let s1 := set_mouseDown true s in
  match project s1, renderer s1 with
  | Some p, Some r =>
      let '(x, y) := mousePosition s1 in
      (* If no target is clicked, always count the stage as being clicked *)
      (s1, match pick r (targetsOf (projectHeap s1 p)) x y with
           | Some clicked => Some clicked
           | None => stageOf (projectHeap s1 p)
           end)
  | _, _ => (s1, None)
  end.

(** What the host does to the runtime, pointer presses included; a press
    reaches the listener only while the listener is registered on the stage
    that is pressed. *)
Inductive Act :=
| Does (o : Op)
| PointerDown (st : StageId).

Section Host.

Variable domToScratchKey : string → option string.
Variable pick : RendererId → list Target → float → float → option Target.

Definition perform (a : Act) (s : State) : State :=
  match a with
  | Does o => apply domToScratchKey o s
  | PointerDown st => if listening st s then (pointerdown pick s).1 else s
  end.

Definition performs (acts : list Act) (s : State) : State :=
  foldl (λ acc a, perform a acc) s acts.

End Host.

(** The states some sequence of calls and events, presses included, leads a
    newly constructed runtime to. *)
Definition attainable (s : State) : Prop :=
  ∃ domToScratchKey pick acts ph mh vb vl pl,
    s = performs domToScratchKey pick acts (initial ph mh vb vl pl).

Lemma pointerdown_state pick s : (pointerdown pick s).1 = set_mouseDown true s.
Proof.
  unfold pointerdown. cbn [project renderer set_mouseDown mousePosition].
  destruct (project s), (renderer s); try done. by destruct (mousePosition s).
Qed.

Lemma perform_Inv dk pick a s : Inv s → Inv (perform dk pick a s).
Proof.
  intros HI. destruct a as [o|st]; simpl; [by apply apply_Inv|].
  destruct (listening st s); [|done]. rewrite pointerdown_state.
  eapply Inv_frame; [|exact HI]. by repeat split.
Qed.

Lemma attainable_Inv s : attainable s → Inv s.
Proof.
  intros (dk & pick & acts & ph & mh & vb & vl & pl & ->).
  unfold performs. apply AnyAbortSignal.foldl_invariant; [apply Inv_initial|].
  intros acc a. apply perform_Inv.
Qed.

Lemma reachable_attainable s : reachable s → attainable s.
Proof.
  intros (dk & ops & ph & mh & vb & vl & pl & ->).
  exists dk, (λ _ _ _ _, None), (Does <$> ops), ph, mh, vb, vl, pl.
  unfold performs, run. generalize (initial ph mh vb vl pl).
  induction ops as [|o ops IH]; intros s; [done|]. simpl. apply IH.
Qed.

(** *** The stage binding *)

(** The controller of the input listeners that the stored stage teardown
    will abort. *)
Definition stageSignal (s : State) : option Signal :=
  match unsetPreviousStage s with
  | Some (_, ls) => ls
  | None => None
  end.

(** Renderer, stage, stored teardown and input listeners go together: either
    all are set, with one group of listeners, registered for the attached
    stage on a signal that has not fired, or none is.  The listeners' signal
    is neither a view's nor the project's, and no two monitors share a
    view. *)
Record Tidy (s : State) : Prop := mkTidy {
  stage_bound :
    match unsetPreviousStage s with
    | Some (r, ls) =>
        renderer s = Some r ∧
        ∃ st c, stage s = Some st ∧ ls = Some c ∧
                inputListeners s = [(st, c)] ∧ c ∉ aborted s
    | None => renderer s = None ∧ stage s = None ∧ inputListeners s = []
    end;
  stage_apart_views : ∀ m v a c,
    monitorViews s !! m = Some (v, a) → stageSignal s = Some c → a ≠ c;
  stage_apart_project : ∀ p c0 c,
    unregisterPreviousProject s = Some (p, c0) → stageSignal s = Some c → c0 ≠ c;
  views_apart : ∀ m1 m2 v a1 a2,
    monitorViews s !! m1 = Some (v, a1) → monitorViews s !! m2 = Some (v, a2) → m1 = m2
}.

(** The fields [Tidy] reads. *)
Definition same_stage (s s' : State) : Prop :=
  unsetPreviousStage s' = unsetPreviousStage s ∧ renderer s' = renderer s ∧
  stage s' = stage s ∧ inputListeners s' = inputListeners s ∧
  aborted s' = aborted s ∧ monitorViews s' = monitorViews s ∧
  unregisterPreviousProject s' = unregisterPreviousProject s.

Lemma Tidy_frame s s' : same_stage s s' → Tidy s → Tidy s'.
Proof.
  intros (Hus & Hr & Hst & Hil & Ha & Hv & Hur) [Hb Hav Hap Hvv].
  split; unfold stageSignal in *; rewrite ?Hus, ?Hr, ?Hst, ?Hil, ?Ha, ?Hv, ?Hur; done.
Qed.

Lemma same_stage_refl s : same_stage s s.
Proof. by repeat split. Qed.

Lemma same_stage_trans s1 s2 s3 : same_stage s1 s2 → same_stage s2 s3 → same_stage s1 s3.
Proof. intros (?&?&?&?&?&?&?) (?&?&?&?&?&?&?). repeat split; congruence. Qed.

Lemma same_stage_emits evs s : same_stage s (emits evs s).
Proof. by repeat split. Qed.

Lemma same_stage_foldl {A} (f : State → A → State) (l : list A) s :
  (∀ acc x, same_stage acc (f acc x)) → same_stage s (foldl f s l).
Proof.
  intros Hf. revert s. induction l as [|x l IH]; intros s; simpl; [apply same_stage_refl|].
  eapply same_stage_trans; [apply Hf|apply IH].
Qed.

Lemma Tidy_initial ph mh vb vl pl : Tidy (initial ph mh vb vl pl).
Proof. split; simpl; done. Qed.

Lemma without_other {A} (a c : Signal) (x : A) :
  a ≠ c → without a [(x, c)] = [(x, c)].
Proof. intros H. unfold without. rewrite filter_cons, decide_True by (simpl; congruence). done. Qed.

(** Any signal but the stage's may fire. *)
Lemma Tidy_abort a s :
  Tidy s → (∀ c, stageSignal s = Some c → a ≠ c) → Tidy (abort a s).
Proof.
  intros [Hb Hav Hap Hvv] Hne. unfold abort. case_decide as Hin; [by split|].
  split; unfold stageSignal in *; simpl.
  - destruct (unsetPreviousStage s) as [[r ls]|]; [|by destruct Hb as (-> & -> & ->)].
    destruct Hb as (Hr & st & c & Hst & -> & Hil & Hc). split; [done|].
    exists st, c. rewrite Hil. specialize (Hne c eq_refl).
    split; [done|]. split; [done|]. split; [by apply without_other|]. set_solver.
  - done.
  - done.
  - done.
Qed.

Lemma Tidy_removeMonitorView m s : Tidy s → Tidy (removeMonitorView m s).
Proof.
  intros HS. unfold removeMonitorView.
  destruct (monitorViews s !! m) as [[v a]|] eqn:Hm; [|done].
  assert (HS1 : Tidy (abort a (emit (EvViewRemove v) s))).
  { apply Tidy_abort; [by eapply Tidy_frame; [apply (same_stage_emits [_])|]|].
    intros c Hc. by eapply (stage_apart_views _ HS). }
  assert (Hv1 : monitorViews (abort a (emit (EvViewRemove v) s)) = monitorViews s)
    by (by rewrite abort_views).
  destruct HS1 as [Hb Hav Hap Hvv]. split; unfold stageSignal in *; simpl; try done.
  - intros m' v' a' c [_ H]%lookup_delete_Some. rewrite Hv1 in *. eauto.
  - intros m1 m2 v' a1 a2 [_ H1]%lookup_delete_Some [_ H2]%lookup_delete_Some.
    rewrite Hv1 in *. eauto.
Qed.

Lemma fetchOrCreateView_Tidy st m s :
  Inv s → Tidy s → Tidy (fetchOrCreateView st m s).2.
Proof.
  intros HI [Hb Hav Hap Hvv]. unfold fetchOrCreateView.
  destruct (monitorViews s !! m) as [[view ab0]|] eqn:Hv; [done|].
  cbn. split; unfold stageSignal in *; simpl; try done.
  - intros m' v a c [[-> [= <- <-]]|[_ H]]%lookup_insert_Some Hc; [|eauto].
    destruct (unsetPreviousStage s) as [[r ls]|] eqn:Hus; [|done]. simpl in Hc. subst ls.
    pose proof (inv_unset_old _ HI r c Hus). lia.
  - intros m1 m2 v a1 a2 H1 H2.
    apply lookup_insert_Some in H1 as [[<- E1]|[_ H1]];
      apply lookup_insert_Some in H2 as [[<- E2]|[_ H2]]; simplify_eq; try done.
    + destruct (inv_views_old _ HI _ _ _ H2). lia.
    + destruct (inv_views_old _ HI _ _ _ H1). lia.
    + eauto.
Qed.

Lemma renderView_same_stage p m view s : same_stage s (renderView p m view s).
Proof.
  unfold renderView. cbv zeta.
  destruct (position _); destruct (colorCategory _); by repeat split.
Qed.

Lemma handleMonitorUpdated_Tidy m s :
  Inv s → Tidy s → Tidy (handleMonitorUpdated m s).
Proof.
  intros HI HS. unfold handleMonitorUpdated.
  destruct (project s) as [p|]; [|done]. destruct (stage s) as [st|]; [|done].
  destruct (negb (visible (monitorHeap s m))); [by apply Tidy_removeMonitorView|].
  pose proof (fetchOrCreateView_Tidy st m s HI HS) as HS'.
  destruct (fetchOrCreateView st m s) as [view s1]. simpl in HS'.
  eapply Tidy_frame; [apply renderView_same_stage|done].
Qed.

Lemma handleMonitorCreated_same_stage c m s : same_stage s (handleMonitorCreated c m s).
Proof. unfold handleMonitorCreated. destruct (stage s); by repeat split. Qed.

Lemma stop_same_stage s : same_stage s (stop s).
Proof. unfold stop. destruct (steppingInterval s); by repeat split. Qed.

Lemma step_same_stage s : same_stage s (step s).1.
Proof. destruct (step_summary s) as (evs & -> & _). apply same_stage_emits. Qed.

Lemma start_same_stage s : same_stage s (start s).1.
Proof.
  unfold start. destruct (steppingInterval s); [apply same_stage_refl|]. cbn.
  eapply same_stage_trans; [|apply step_same_stage]. by repeat split.
Qed.

Lemma unregisterRest_Tidy p0 c0 s :
  Tidy s → unregisterPreviousProject s = Some (p0, c0) →
  Tidy (unregisterRest p0 c0 s).
Proof.
  intros HS Hun. unfold unregisterRest. cbv zeta.
  pose proof (Tidy_frame _ _ (stop_same_stage s) HS) as HS2.
  assert (Hs2 : stageSignal (stop s) = stageSignal s)
    by (unfold stageSignal; by destruct (stop_same_stage s) as (-> & _)).
  set (s2 := stop s) in *. clearbody s2.
  assert (HS3 : Tidy (foldl (λ acc e, removeMonitorView (monitor e) acc) s2
                            (monitorsOf (projectHeap s2 p0))))
    by (apply AnyAbortSignal.foldl_invariant;
          [done|intros; by apply Tidy_removeMonitorView]).
  destruct (removeAll_spec (monitorsOf (projectHeap s2 p0)) s2) as [Hsame3 _].
  assert (Hs3 : stageSignal (foldl (λ acc e, removeMonitorView (monitor e) acc) s2
                               (monitorsOf (projectHeap s2 p0))) = stageSignal s).
  { unfold stageSignal in *. by destruct Hsame3 as (_ & _ & _ & _ & _ & -> & _). }
  set (s3 := foldl _ s2 _) in *. clearbody s3.
  set (s4 := match renderer s3 with
             | Some r => if penLayers s3 r then emit (EvPenLayerClear r) s3 else s3
             | None => s3
             end).
  assert (H4 : same_stage s3 s4).
  { unfold s4. destruct (renderer s3) as [r|]; [destruct (penLayers s3 r)|];
      by repeat split. }
  pose proof (Tidy_frame _ _ H4 HS3) as HS4.
  assert (Hs4 : stageSignal s4 = stageSignal s)
    by (unfold stageSignal in *; by destruct H4 as (-> & _)).
  clearbody s4.
  eapply Tidy_frame; [apply (same_stage_emits [_])|].
  apply Tidy_abort; [by eapply Tidy_frame; [apply (same_stage_emits [_])|]|].
  intros c Hc. change (stageSignal (emit ?e ?x)) with (stageSignal x) in Hc.
  rewrite Hs4 in Hc. by eapply (stage_apart_project _ HS).
Qed.

Lemma Tidy_unbind x :
  Tidy x → Tidy (set_unregisterPreviousProject None (set_project None x)).
Proof. intros [Hb Hav Hap Hvv]. split; unfold stageSignal in *; simpl; done. Qed.

Lemma teardownProject_Tidy s : Tidy s → Tidy (teardownProject s).
Proof.
  intros HS. unfold teardownProject.
  destruct (unregisterPreviousProject s) as [[p0 c0]|] eqn:Hun; [|done].
  rewrite unregisterProject_rest. by apply Tidy_unbind, unregisterRest_Tidy.
Qed.

Lemma setProject_Tidy proj s : Inv s → Tidy s → Tidy (setProject proj s).
Proof.
  intros HI HS. unfold setProject. cbv zeta.
  destruct (teardownProject_spec s HI) as (HI1 & Hub & _).
  pose proof (teardownProject_Tidy s HS) as HS1.
  set (s1 := teardownProject s) in *. clearbody s1.
  destruct proj as [p|]; [|by eapply Tidy_frame; [|exact HS1]].
  destruct (bindProject_fields p s1 HI1 Hub)
    as (_ & Hun & _ & _ & Hv & Ha & _ & _ & Hus & _ & Hst & Hr & _).
  assert (Hil : inputListeners (bindProject p (set_project (Some p) s1)) = inputListeners s1).
  { unfold bindProject, subscribeProject. cbn [alloc]. rewrite replay_created.
    by case_decide. }
  destruct HS1 as [Hb Hav Hap Hvv].
  split; unfold stageSignal in *; rewrite ?Hun, ?Hv, ?Ha, ?Hus, ?Hst, ?Hr, ?Hil.
  - done.
  - intros m v a c. by rewrite lookup_empty.
  - intros p' c0 c [= <- <-] Hc.
    destruct (unsetPreviousStage s1) as [[r ls]|] eqn:Hus1; [|done]. simpl in Hc. subst ls.
    pose proof (inv_unset_old _ HI1 r c Hus1). lia.
  - intros m1 m2 v a1 a2. by rewrite lookup_empty.
Qed.

(** What the stored stage teardown leaves: nothing of the stage. *)
Lemma unsetStage_fields r ls s :
  Tidy s → unsetPreviousStage s = Some (r, ls) →
  let s' := unsetStage r ls s in
  renderer s' = None ∧ stage s' = None ∧ inputListeners s' = [] ∧
  monitorViews s' = monitorViews s ∧
  unregisterPreviousProject s' = unregisterPreviousProject s ∧
  nextId s' = nextId s ∧ (∀ c, c ∈ aborted s' → c ∈ aborted s ∨ ls = Some c).
Proof.
  intros [Hb _ _ _] Hus. rewrite Hus in Hb.
  destruct Hb as (Hr & st & c & Hst & -> & Hil & Hc).
  unfold unsetStage. cbv zeta. unfold abort. cbn. rewrite decide_False by done.
  cbn. rewrite Hil. unfold without. rewrite filter_cons, decide_False by (simpl; tauto).
  repeat split; try done. intros c'. set_solver.
Qed.

Lemma attachStage_Tidy stg s : Inv s → Tidy s → Tidy (attachStage stg s).
Proof.
  intros HI HS. unfold attachStage.
  set (s1 := match unsetPreviousStage s with
             | Some (r, ls) => set_unsetPreviousStage None (unsetStage r ls s)
             | None => s
             end).
  assert (H1 : unsetPreviousStage s1 = None ∧ renderer s1 = None ∧ stage s1 = None ∧
               inputListeners s1 = [] ∧ nextId s1 = nextId s ∧
               (∀ c, c ∈ aborted s1 → c < nextId s) ∧
               monitorViews s1 = monitorViews s ∧
               (∀ p c, unregisterPreviousProject s1 = Some (p, c) → c < nextId s)).
  { unfold s1. destruct (unsetPreviousStage s) as [[r ls]|] eqn:Hus.
    - destruct (unsetStage_fields r ls s HS Hus) as (Hr & Hst & Hil & Hv & Hur & Hn & Ha).
      cbn. rewrite Hur. repeat split; try done.
      + intros c [Hc| ->]%Ha; [by apply (inv_aborted_old _ HI)|].
        by apply (inv_unset_old _ HI r c).
      + apply (inv_unreg_old _ HI).
    - destruct HS as [Hb _ _ _]. rewrite Hus in Hb. destruct Hb as (Hr & Hst & Hil).
      repeat split; try done.
      + apply (inv_aborted_old _ HI).
      + apply (inv_unreg_old _ HI). }
  destruct H1 as (Hus1 & Hr1 & Hst1 & Hil1 & Hn1 & Ha1 & Hv1 & Hp1). clearbody s1.
  destruct stg as [st|].
  - unfold setupEventListeners. cbn. unfold addListener. cbn.
    rewrite Hil1, Hn1.
    assert (Hfresh : S (nextId s) ∉ aborted s1).
    { intros H. apply Ha1 in H. lia. }
    rewrite decide_False by done.
    split; unfold stageSignal; cbn; rewrite ?Hv1.
    + split; [done|]. by exists st, (S (nextId s)).
    + intros m v a c Hm [= <-]. destruct (inv_views_old _ HI m v a Hm). lia.
    + intros p c0 c Hp [= <-]. apply Hp1 in Hp. lia.
    + apply (views_apart _ HS).
  - split; unfold stageSignal; rewrite ?Hus1, ?Hv1; try done. apply (views_apart _ HS).
Qed.

Lemma apply_Tidy dk o s : Inv s → Tidy s → Tidy (apply dk o s).
Proof.
  intros HI HS. destruct o; simpl.
  - by apply setProject_Tidy.
  - by apply attachStage_Tidy.
  - eapply Tidy_frame; [apply start_same_stage|done].
  - eapply Tidy_frame; [apply stop_same_stage|done].
  - by apply setProject_Tidy.
  - case_decide; [|done]. eapply Tidy_frame; [apply step_same_stage|done].
  - unfold projectCreatesMonitor, dispatchCreate.
    eapply Tidy_frame; [apply same_stage_foldl|].
    + intros acc l. case_decide; [apply handleMonitorCreated_same_stage|apply same_stage_refl].
    + eapply Tidy_frame; [|exact HS]. by repeat split.
  - unfold monitorUpdates.
    assert (H : ∀ l s0, Inv s0 → Tidy s0 →
      Tidy (foldl (λ acc l, if decide (l.1 = m ∧ l ∈ updateListeners acc)
                               then handleMonitorUpdated m acc else acc) s0 l)).
    { induction l as [|[m' c] l IH]; intros s0 HI0 HS0; simpl; [done|].
      case_decide as Hl; [|by apply IH]. simpl in Hl. destruct Hl as [-> Hl].
      apply IH.
      - apply handleMonitorUpdated_Inv; [done|].
        intros p Hp. destruct (inv_update_listeners _ HI0 _ _ Hl) as (p' & Hu & Hin).
        rewrite (inv_bound _ HI0), Hu in Hp. by simplify_eq/=.
      - by apply handleMonitorUpdated_Tidy. }
    apply H.
    + eapply Inv_frame; [|exact HI]. by repeat split.
    + eapply Tidy_frame; [|exact HS]. by repeat split.
  - destruct (listening st s); [|done]. unfold keydown.
    destruct (dk k); [|done]. eapply Tidy_frame; [|exact HS]. by repeat split.
  - eapply Tidy_frame; [apply same_stage_foldl|exact HS].
    intros acc _. unfold keyup. destruct (dk k); by repeat split.
  - eapply Tidy_frame; [apply same_stage_foldl|exact HS].
    intros acc _. by repeat split.
  - eapply Tidy_frame; [apply same_stage_foldl|exact HS].
    intros acc _. by repeat split.
Qed.

Lemma perform_Tidy dk pick a s : Inv s → Tidy s → Tidy (perform dk pick a s).
Proof.
  intros HI HS. destruct a as [o|st]; simpl; [by apply apply_Tidy|].
  destruct (listening st s); [|done]. rewrite pointerdown_state.
  eapply Tidy_frame; [|exact HS]. by repeat split.
Qed.

Lemma attainable_Tidy s : attainable s → Tidy s.
Proof.
  intros (dk & pick & acts & ph & mh & vb & vl & pl & ->).
  assert (H : ∀ s0, Inv s0 → Tidy s0 → Tidy (performs dk pick acts s0)).
  { induction acts as [|a acts IH]; intros s0 HI HS; [done|].
    apply IH; [by apply perform_Inv|by apply perform_Tidy]. }
  apply H; [apply Inv_initial|apply Tidy_initial].
Qed.

(** *** The calls into the collaborators, as protocols

    An account reads a trace from left to right and keeps a state; it gives
    up at an event that is not allowed in the state it has reached. *)

Section Accounting.

Context {Q : Type} (account : Q → Event → option Q).

Fixpoint accounts (q : Q) (evs : list Event) : option Q :=
  match evs with
  | [] => Some q
  | e :: evs => account q e ≫= λ q', accounts q' evs
  end.

Lemma accounts_app q l1 l2 :
  accounts q (l1 ++ l2) = accounts q l1 ≫= λ q', accounts q' l2.
Proof.
  revert q. induction l1 as [|e l1 IH]; intros q; simpl; [done|].
  destruct (account q e) as [q'|]; simpl; [apply IH|done].
Qed.

(** An accepted trace is accepted event by event. *)
Lemma accounts_at q pre e post q' :
  accounts q (pre ++ e :: post) = Some q' →
  ∃ q1 q2, accounts q pre = Some q1 ∧ account q1 e = Some q2 ∧ accounts q2 post = Some q'.
Proof.
  rewrite accounts_app. destruct (accounts q pre) as [q1|]; [|done]. simpl.
  destruct (account q1 e) as [q2|] eqn:He; [|done]. simpl. intros H. by exists q1, q2.
Qed.

End Accounting.

(** The renderer: the live renderer with the stage it was made for, and the
    renderer the interpreter holds.  A renderer is made only when none is
    live; the interpreter is given only the live renderer; a renderer is
    destroyed only while live and once the interpreter has let go of it; only
    the live renderer draws or has its pen layer cleared; a monitor view is
    made only by the stage of the live renderer. *)
Definition rendererAccount (q : option (RendererId * StageId) * option RendererId)
    (e : Event) : option (option (RendererId * StageId) * option RendererId) :=
  let '(live, held) := q in
  match e with
  | EvRendererCreate r st => if live is None then Some (Some (r, st), held) else None
  | EvInterpreterSetRenderer (Some r) =>
      if decide (fst <$> live = Some r) then Some (live, Some r) else None
  | EvInterpreterSetRenderer None => Some (live, None)
  | EvRendererDestroy r =>
      if decide (fst <$> live = Some r ∧ held = None) then Some (None, None) else None
  | EvDraw r _ | EvPenLayerClear r =>
      if decide (fst <$> live = Some r) then Some q else None
  | EvCreateMonitorView st _ =>
      if decide (snd <$> live = Some st) then Some q else None
  | _ => Some q
  end.

(** The scheduling loop: the active timer and the registered project.  A
    timer is set only when none is active, and only the active one is
    cleared; a project is registered only when none is, and unregistered only
    while registered and with the timer cleared; threads are stepped, monitor
    scripts launched and frames drawn only while a timer is active and a
    project is registered, and it is that project's targets that are drawn. *)
Definition loopAccount (q : option TimerId * option ProjectId) (e : Event)
  : option (option TimerId * option ProjectId) :=
  let '(timer, proj) := q in
  match e with
  | EvSetInterval t => if timer is None then Some (Some t, proj) else None
  | EvClearInterval t => if decide (timer = Some t) then Some (None, proj) else None
  | EvProjectRegister p => if proj is None then Some (timer, Some p) else None
  | EvProjectUnregister p =>
      if decide (proj = Some p ∧ timer = None) then Some (timer, None) else None
  | EvStepThreads | EvLaunch _ _ =>
      if decide (is_Some timer ∧ is_Some proj) then Some q else None
  | EvDraw _ p => if decide (is_Some timer ∧ proj = Some p) then Some q else None
  | _ => Some q
  end.

(** The monitor views: those made and not yet removed.  A view is made once,
    removed only while it exists, and updated or coloured only while it
    exists. *)
Definition viewAccount (q : gset ViewId) (e : Event) : option (gset ViewId) :=
  match e with
  | EvCreateMonitorView _ v => if decide (v ∈ q) then None else Some ({[v]} ∪ q)
  | EvViewRemove v => if decide (v ∈ q) then Some (q ∖ {[v]}) else None
  | EvViewUpdate v _ | EvViewSetColor v _ => if decide (v ∈ q) then Some q else None
  | _ => Some q
  end.

(** What each account should have arrived at, read off the runtime. *)
Definition rendererOf (s : State) : option (RendererId * StageId) * option RendererId :=
  (match renderer s, stage s with
   | Some r, Some st => Some (r, st)
   | _, _ => None
   end, renderer s).

Definition loopOf (s : State) : option TimerId * option ProjectId :=
  (steppingInterval s, fst <$> unregisterPreviousProject s).

Definition viewsOf (s : State) : gset ViewId :=
  map_img (fst <$> monitorViews s).

(** The three accounts side by side. *)
Definition Ledger : Type :=
  (option (RendererId * StageId) * option RendererId) *
  (option TimerId * option ProjectId) * gset ViewId.

Definition ledgerAccount (q : Ledger) (e : Event) : option Ledger :=
  let '(r, l, v) := q in
  r' ← rendererAccount r e; l' ← loopAccount l e; v' ← viewAccount v e;
  Some (r', l', v').

Definition ledgerOf (s : State) : Ledger := (rendererOf s, loopOf s, viewsOf s).

Lemma ledger_split evs : ∀ r l v r' l' v',
  accounts ledgerAccount (r, l, v) evs = Some (r', l', v') →
  accounts rendererAccount r evs = Some r' ∧ accounts loopAccount l evs = Some l' ∧
  accounts viewAccount v evs = Some v'.
Proof.
  induction evs as [|e evs IH]; intros r l v r' l' v'; simpl.
  - by intros [= -> -> ->].
  - destruct (rendererAccount r e) as [r1|]; [|done]. simpl.
    destruct (loopAccount l e) as [l1|]; [|done]. simpl.
    destruct (viewAccount v e) as [v1|]; [|done]. simpl. apply IH.
Qed.

(** Events no account looks at. *)
Definition unaccounted (e : Event) : bool :=
  match e with
  | EvInterpreterSetProject _ | EvAbort _ | EvPreventDefault | EvStartHats _ => true
  | _ => false
  end.

Lemma ledgerAccount_unaccounted q e : unaccounted e = true → ledgerAccount q e = Some q.
Proof. destruct q as [[[live held] [timer proj]] v]. by destruct e. Qed.

(** [s'] comes after [s], and the ledger of [s], continued over the events
    recorded in between, is the ledger of [s']. *)
Definition books (s s' : State) : Prop :=
  ∃ evs, trace s' = trace s ++ evs ∧
         accounts ledgerAccount (ledgerOf s) evs = Some (ledgerOf s').

Lemma books_refl s : books s s.
Proof. exists []. by rewrite app_nil_r. Qed.

Lemma books_trans s1 s2 s3 : books s1 s2 → books s2 s3 → books s1 s3.
Proof.
  intros (e1 & H1 & A1) (e2 & H2 & A2). exists (e1 ++ e2).
  split; [by rewrite H2, H1, app_assoc|]. by rewrite accounts_app, A1.
Qed.

Lemma books_same s s' : trace s' = trace s → ledgerOf s' = ledgerOf s → books s s'.
Proof. intros Ht Hl. exists []. rewrite app_nil_r, Hl. done. Qed.

Lemma books_emit e s q :
  ledgerAccount (ledgerOf s) e = Some q → ∀ s', trace s' = trace s ++ [e] →
  ledgerOf s' = q → books s s'.
Proof.
  intros He s' Ht Hq. exists [e]. split; [done|]. cbn [accounts]. rewrite He. simpl.
  by rewrite Hq.
Qed.

Lemma books_unaccounted e s : unaccounted e = true → books s (emit e s).
Proof.
  intros He. eapply books_emit; [by apply ledgerAccount_unaccounted|done|done].
Qed.

Lemma books_foldl {A} (P : State → Prop) (f : State → A → State) (l : list A) s :
  (∀ acc x, P acc → P (f acc x) ∧ books acc (f acc x)) → P s →
  P (foldl f s l) ∧ books s (foldl f s l).
Proof.
  intros Hf. revert s. induction l as [|x l IH]; intros s HP; simpl.
  - split; [done|apply books_refl].
  - destruct (Hf s x HP) as [HP' Hb]. destruct (IH _ HP') as [HP'' Hb'].
    split; [done|by eapply books_trans].
Qed.

Lemma ledgerOf_abort a s : ledgerOf (abort a s) = ledgerOf s.
Proof. unfold abort. by case_decide. Qed.

Lemma books_abort a s : books s (abort a s).
Proof.
  unfold abort. case_decide; [apply books_refl|].
  eapply books_emit; [by apply (ledgerAccount_unaccounted _ (EvAbort a))|done|done].
Qed.

Lemma elem_of_viewsOf v s :
  v ∈ viewsOf s ↔ ∃ m a, monitorViews s !! m = Some (v, a).
Proof.
  unfold viewsOf. rewrite elem_of_map_img. split.
  - intros (m & Hm). rewrite lookup_fmap in Hm.
    destruct (monitorViews s !! m) as [[v' a]|] eqn:E; simplify_eq/=. by exists m, a.
  - intros (m & a & Hm). exists m. by rewrite lookup_fmap, Hm.
Qed.

Lemma viewsOf_delete m v a s s' :
  Tidy s → monitorViews s !! m = Some (v, a) →
  monitorViews s' = delete m (monitorViews s) → viewsOf s' = viewsOf s ∖ {[v]}.
Proof.
  intros HT Hm Hv. apply set_eq. intros x.
  rewrite elem_of_difference, !elem_of_viewsOf, elem_of_singleton, Hv. split.
  - intros (m' & a' & [Hne H]%lookup_delete_Some). split; [by exists m', a'|].
    intros ->. destruct Hne. by apply (views_apart _ HT m m' v a a').
  - intros [(m' & a' & H) Hne]. exists m', a'. apply lookup_delete_Some. split; [|done].
    intros <-. rewrite Hm in H. by simplify_eq.
Qed.

Lemma viewsOf_insert m v a s s' :
  monitorViews s !! m = None →
  monitorViews s' = <[m := (v, a)]> (monitorViews s) → viewsOf s' = {[v]} ∪ viewsOf s.
Proof.
  intros Hm Hv. apply set_eq. intros x.
  rewrite elem_of_union, !elem_of_viewsOf, elem_of_singleton, Hv. split.
  - intros (m' & a' & [[-> [= -> ->]]|[Hne H]]%lookup_insert_Some); [by left|].
    right. by exists m', a'.
  - intros [->|(m' & a' & H)].
    + exists m, a. by rewrite lookup_insert_eq.
    + exists m', a'. apply lookup_insert_Some. right. split; [|done].
      intros <-. congruence.
Qed.

Lemma viewsOf_same s s' : monitorViews s' = monitorViews s → viewsOf s' = viewsOf s.
Proof. unfold viewsOf. by intros ->. Qed.

Lemma ledgerOf_eq s s' V :
  renderer s' = renderer s → stage s' = stage s →
  steppingInterval s' = steppingInterval s →
  unregisterPreviousProject s' = unregisterPreviousProject s →
  viewsOf s' = V → ledgerOf s' = (rendererOf s, loopOf s, V).
Proof. intros Hr Hst Ht Hu <-. unfold ledgerOf, rendererOf, loopOf. by rewrite Hr, Hst, Ht, Hu. Qed.

Lemma same_stage_ledger s s' :
  same_stage s s' → steppingInterval s' = steppingInterval s → ledgerOf s' = ledgerOf s.
Proof.
  intros (_ & Hr & Hst & _ & _ & Hv & Hu) Ht.
  by apply ledgerOf_eq; [..|apply viewsOf_same].
Qed.

#[local] Arguments viewsOf : simpl never.

Ltac book :=
  cbn [accounts ledgerAccount rendererAccount loopAccount viewAccount
       mbind option_bind fmap option_fmap option_map fst snd].

Lemma books_removeMonitorView m s : Tidy s → books s (removeMonitorView m s).
Proof.
  intros HT. destruct (monitorViews s !! m) as [[v a]|] eqn:Hm.
  - exists (EvViewRemove v :: (if decide (a ∈ aborted s) then [] else [EvAbort a])).
    split; [by rewrite removeMonitorView_trace, Hm|].
    destruct (same_runtime_removeMonitorView m s) as (_ & Hr & Hst & Ht & Hu & _).
    assert (Hl : ledgerOf (removeMonitorView m s)
                 = (rendererOf s, loopOf s, viewsOf s ∖ {[v]})).
    { apply ledgerOf_eq; try done.
      eapply viewsOf_delete; [done|done|apply removeMonitorView_views]. }
    rewrite Hl. unfold ledgerOf.
    destruct (rendererOf s) as [live held], (loopOf s) as [timer proj]. book.
    rewrite (decide_True (P := v ∈ viewsOf s)) by (apply elem_of_viewsOf; eauto). book.
    by case_decide.
  - unfold removeMonitorView. rewrite Hm. apply books_refl.
Qed.

Lemma books_removeAll (l : list MonitorEntry) s :
  Tidy s →
  Tidy (foldl (λ acc e, removeMonitorView (monitor e) acc) s l) ∧
  books s (foldl (λ acc e, removeMonitorView (monitor e) acc) s l).
Proof.
  apply (books_foldl Tidy). intros acc e HT.
  split; [by apply Tidy_removeMonitorView|by apply books_removeMonitorView].
Qed.

(** With a stage attached the renderer is live, on that stage. *)
Lemma Tidy_live s st :
  Tidy s → stage s = Some st → ∃ r, renderer s = Some r ∧ (rendererOf s).1 = Some (r, st).
Proof.
  intros [Hb _ _ _] Hst. unfold rendererOf. rewrite Hst.
  destruct (unsetPreviousStage s) as [[r ls]|].
  - destruct Hb as (Hr & _). exists r. by rewrite Hr.
  - destruct Hb as (_ & Hst' & _). congruence.
Qed.

Lemma Tidy_live_renderer s r :
  Tidy s → renderer s = Some r → ∃ st, stage s = Some st ∧ (rendererOf s).1 = Some (r, st).
Proof.
  intros [Hb _ _ _] Hr. unfold rendererOf. rewrite Hr.
  destruct (unsetPreviousStage s) as [[r' ls]|].
  - destruct Hb as (_ & st & c & Hst & _). exists st. by rewrite Hst.
  - destruct Hb as (Hr' & _). congruence.
Qed.

Lemma books_fetchOrCreateView st m s :
  Inv s → Tidy s → stage s = Some st → books s (fetchOrCreateView st m s).2.
Proof.
  intros HI HT Hst. unfold fetchOrCreateView.
  destruct (monitorViews s !! m) as [[view ab0]|] eqn:Hv; [apply books_refl|].
  cbn. match goal with |- books s ?x => set (s' := x) end.
  assert (Hl : ledgerOf s' = (rendererOf s, loopOf s, {[nextId s]} ∪ viewsOf s)).
  { apply ledgerOf_eq; try done. by eapply viewsOf_insert. }
  exists [EvCreateMonitorView st (nextId s)]. split; [done|]. rewrite Hl.
  destruct (Tidy_live s st HT Hst) as (r & Hr & Hlive).
  unfold ledgerOf.
  destruct (rendererOf s) as [live held], (loopOf s) as [timer proj]. simpl in Hlive.
  subst live. book. rewrite (decide_True (P := Some st = Some st)) by done. book.
  rewrite (decide_False (P := nextId s ∈ viewsOf s)); [done|].
  intros (m' & a' & H)%elem_of_viewsOf. destruct (inv_views_old _ HI _ _ _ H). lia.
Qed.

Lemma books_renderView p m view a s :
  monitorViews s !! m = Some (view, a) → books s (renderView p m view s).
Proof.
  intros Hm.
  assert (Hin : view ∈ viewsOf s) by (apply elem_of_viewsOf; eauto).
  assert (Hup : ∀ x, ledgerOf x = ledgerOf s → books x (emit (EvViewUpdate view m) x)).
  { intros x Hx.
    apply (books_emit (EvViewUpdate view m) x (ledgerOf s)); [|done|by rewrite <- Hx].
    rewrite Hx. unfold ledgerOf.
    destruct (rendererOf s) as [live held], (loopOf s) as [timer proj]. book.
    by rewrite decide_True. }
  assert (Hcol : ∀ x c, ledgerOf x = ledgerOf s → books x (emit (EvViewSetColor view c) x)).
  { intros x c Hx.
    apply (books_emit (EvViewSetColor view c) x (ledgerOf s)); [|done|by rewrite <- Hx].
    rewrite Hx. unfold ledgerOf.
    destruct (rendererOf s) as [live held], (loopOf s) as [timer proj]. book.
    by rewrite decide_True. }
  unfold renderView. cbv zeta.
  set (s2 := emit (EvViewUpdate view m) s).
  assert (H2 : books s s2) by (by apply Hup).
  set (s3 := match position (monitorHeap s2 m) with
             | Some _ => s2
             | None => emit (EvViewUpdate view m)
                         (monitor_update_position m (viewLayout s2 view (monitorRects p m s2)) s2)
             end).
  assert (H3 : books s s3 ∧ ledgerOf s3 = ledgerOf s).
  { unfold s3. destruct (position (monitorHeap s2 m)); [by split|].
    split; [|done]. eapply books_trans; [exact H2|].
    eapply (books_trans _ (monitor_update_position m _ s2)); [by apply books_same|].
    by apply Hup. }
  destruct H3 as [H3 Hl3]. clearbody s3.
  destruct (colorCategory (monitorHeap s3 m)) as [c|]; [|done].
  eapply books_trans; [exact H3|]. by apply Hcol.
Qed.

Lemma books_handleMonitorUpdated m s :
  Inv s → Tidy s → books s (handleMonitorUpdated m s).
Proof.
  intros HI HT. unfold handleMonitorUpdated.
  destruct (project s) as [p|]; [|apply books_refl].
  destruct (stage s) as [st|] eqn:Hst; [|apply books_refl].
  destruct (negb (visible (monitorHeap s m))); [by apply books_removeMonitorView|].
  pose proof (books_fetchOrCreateView st m s HI HT Hst) as Hb.
  assert (Hv : ∃ a, monitorViews (fetchOrCreateView st m s).2 !! m
                    = Some ((fetchOrCreateView st m s).1, a)).
  { unfold fetchOrCreateView. destruct (monitorViews s !! m) as [[view ab0]|] eqn:Hv.
    - by exists ab0.
    - cbn. exists (S (nextId s)). by rewrite lookup_insert_eq. }
  destruct (fetchOrCreateView st m s) as [view s1]. simpl in *. destruct Hv as [a Hv].
  eapply books_trans; [exact Hb|by eapply books_renderView].
Qed.

Lemma books_handleMonitorCreated c m s : books s (handleMonitorCreated c m s).
Proof.
  apply books_same; [apply handleMonitorCreated_trace|].
  apply same_stage_ledger; [apply handleMonitorCreated_same_stage|].
  unfold handleMonitorCreated. by destruct (stage s).
Qed.

Lemma books_stop s : books s (stop s) ∧ steppingInterval (stop s) = None.
Proof.
  unfold stop. destruct (steppingInterval s) as [t|] eqn:Ht; [|split; [apply books_refl|done]].
  split; [|done].
  apply (books_emit (EvClearInterval t) s (rendererOf s, (None, (loopOf s).2), viewsOf s));
    [|done|done].
  unfold ledgerOf, loopOf. rewrite Ht.
  destruct (rendererOf s) as [live held]. book. by rewrite decide_True.
Qed.

Lemma accounts_kept q evs :
  Forall (λ e, ledgerAccount q e = Some q) evs → accounts ledgerAccount q evs = Some q.
Proof. induction 1 as [|e evs He _ IH]; [done|]. cbn [accounts]. by rewrite He. Qed.

(** A tick, while a timer is active. *)
Lemma books_step s :
  Inv s → Tidy s → is_Some (steppingInterval s) → books s (step s).1.
Proof.
  intros HI HT Htimer. pose proof (step_events s) as H.
  destruct (project s) as [p|] eqn:Hp; [|rewrite H; apply books_refl].
  assert (Hproj : (loopOf s).2 = Some p).
  { unfold loopOf. simpl. by rewrite <- (inv_bound _ HI). }
  assert (Hloop : ∀ e, is_step_threads e = true ∨ is_launch e = true →
                       ledgerAccount (ledgerOf s) e = Some (ledgerOf s)).
  { intros e He. unfold ledgerOf, loopOf in *. simpl in Hproj.
    destruct (rendererOf s) as [live held]. rewrite Hproj.
    destruct e; simpl in He; try (by destruct He); book;
      rewrite decide_True by (split; [done|by eexists]); done. }
  assert (Hevs : ∀ evs, step s = (emits evs s, Returned) ∨
                        step s = (emits evs s, Threw ProjectHasNoStage) →
                 Forall (λ e, ledgerAccount (ledgerOf s) e = Some (ledgerOf s)) evs →
                 books s (step s).1).
  { intros evs [->| ->] Hall; exists evs; (split; [done|]); by apply accounts_kept. }
  destruct (stageOf (projectHeap s p)) as [stg|].
  - eapply Hevs; [by left|]. constructor; [apply Hloop; by left|].
    apply Forall_app. split.
    + eapply Forall_impl; [apply Forall_launches|]. intros e He. apply Hloop. by right.
    + destruct (renderer s) as [r|] eqn:Hr; [|done]. constructor; [|done].
      destruct (Tidy_live_renderer s r HT Hr) as (st & Hst & Hlive).
      unfold ledgerOf, loopOf in *. simpl in Hproj.
      destruct (rendererOf s) as [live held]. simpl in Hlive. subst live.
      rewrite Hproj. book. rewrite decide_True by done. book.
      by rewrite decide_True.
  - eapply Hevs; [by right|]. constructor; [|done]. apply Hloop. by left.
Qed.

Lemma books_start s : Inv s → Tidy s → books s (start s).1.
Proof.
  intros HI HT. unfold start.
  destruct (steppingInterval s) as [t|] eqn:Ht; [apply books_refl|]. cbn [alloc].
  set (armed := set_steppingInterval (Some (nextId s))
                  (emit (EvSetInterval (nextId s)) (set_nextId (S (nextId s)) s))).
  eapply (books_trans _ armed).
  - apply (books_emit (EvSetInterval (nextId s)) s
             (rendererOf s, (Some (nextId s), (loopOf s).2), viewsOf s)); [|done|done].
    unfold ledgerOf, loopOf. rewrite Ht. by destruct (rendererOf s) as [live held].
  - apply books_step.
    + eapply Inv_frame; [|exact HI]. repeat split; simpl; try done. lia.
    + eapply Tidy_frame; [|exact HT]. by repeat split.
    + by eexists.
Qed.

Lemma abort_trace a s :
  trace (abort a s) = trace s ++ (if decide (a ∈ aborted s) then [] else [EvAbort a]).
Proof. unfold abort. case_decide; [by rewrite app_nil_r|done]. Qed.

Lemma books_teardownProject s : Inv s → Tidy s → books s (teardownProject s).
Proof.
  intros HI HT. unfold teardownProject.
  destruct (unregisterPreviousProject s) as [[p0 c0]|] eqn:Hun; [|apply books_refl].
  rewrite unregisterProject_rest. unfold unregisterRest. cbv zeta.
  destruct (books_stop s) as [Hb2 Ht2].
  pose proof (Tidy_frame _ _ (stop_same_stage s) HT) as HT2.
  assert (Hun2 : unregisterPreviousProject (stop s) = Some (p0, c0))
    by (destruct (stop_same_stage s) as (_ & _ & _ & _ & _ & _ & ->); done).
  set (s2 := stop s) in *. clearbody s2.
  destruct (books_removeAll (monitorsOf (projectHeap s2 p0)) s2 HT2) as [HT3 Hb3].
  destruct (removeAll_spec (monitorsOf (projectHeap s2 p0)) s2) as [Hsame3 _].
  destruct Hsame3 as (_ & _ & _ & Ht3 & Hun3 & _).
  rewrite Ht2 in Ht3. rewrite Hun2 in Hun3.
  set (s3 := foldl _ s2 _) in *. clearbody s3.
  set (s4 := match renderer s3 with
             | Some r => if penLayers s3 r then emit (EvPenLayerClear r) s3 else s3
             | None => s3
             end).
  assert (H4 : books s3 s4 ∧ ledgerOf s4 = ledgerOf s3 ∧
               monitorViews s4 = monitorViews s3 ∧ renderer s4 = renderer s3 ∧
               stage s4 = stage s3 ∧ steppingInterval s4 = steppingInterval s3).
  { unfold s4. destruct (renderer s3) as [r|] eqn:Hr; [|split; [apply books_refl|done]].
    destruct (penLayers s3 r); [|split; [apply books_refl|done]].
    split; [|done]. apply (books_emit (EvPenLayerClear r) s3 (ledgerOf s3)); [|done|done].
    destruct (Tidy_live_renderer s3 r HT3 Hr) as (st & Hst & Hlive).
    unfold ledgerOf. destruct (rendererOf s3) as [live held], (loopOf s3) as [timer proj].
    simpl in Hlive. subst live. book. by rewrite decide_True. }
  destruct H4 as (Hb4 & Hl4 & Hv4 & Hr4 & Hst4 & Ht4). clearbody s4.
  eapply books_trans; [exact Hb2|]. eapply books_trans; [exact Hb3|].
  eapply books_trans; [exact Hb4|].
  exists (EvProjectUnregister p0 ::
          (if decide (c0 ∈ aborted s4) then [] else [EvAbort c0]) ++
          [EvInterpreterSetProject None]).
  split.
  { cbn [trace set_unregisterPreviousProject set_project emit set_trace].
    rewrite abort_trace. cbn [trace aborted emit set_trace].
    by rewrite <- !app_assoc. }
  assert (Hl : ledgerOf (set_unregisterPreviousProject None (set_project None
                 (emit (EvInterpreterSetProject None)
                    (abort c0 (emit (EvProjectUnregister p0) s4)))))
               = (rendererOf s3, (None, None), viewsOf s3)).
  { unfold ledgerOf, rendererOf, loopOf.
    cbn [renderer stage steppingInterval unregisterPreviousProject
         set_unregisterPreviousProject set_project emit set_trace].
    destruct (same_runtime_abort c0 (emit (EvProjectUnregister p0) s4))
      as (_ & -> & -> & -> & _).
    cbn [renderer stage steppingInterval emit set_trace]. rewrite Hr4, Hst4.
    rewrite Ht4, Ht3. f_equal. apply viewsOf_same.
    cbn [monitorViews set_unregisterPreviousProject set_project emit set_trace].
    by rewrite abort_views. }
  rewrite Hl, Hl4. unfold ledgerOf, loopOf. rewrite Ht3, Hun3.
  destruct (rendererOf s3) as [live held]. cbn [accounts]. book.
  rewrite (decide_True (P := Some p0 = Some p0 ∧ None = None)) by done. book.
  apply accounts_kept. apply Forall_app. split; [|by repeat constructor].
  case_decide; by repeat constructor.
Qed.

Lemma books_setProject proj s : Inv s → Tidy s → books s (setProject proj s).
Proof.
  intros HI HT. unfold setProject. cbv zeta.
  destruct (teardownProject_spec s HI) as (HI1 & Hub & _).
  eapply books_trans; [by apply books_teardownProject|].
  set (s1 := teardownProject s) in *. clearbody s1.
  destruct proj as [p|]; [|by apply books_same].
  destruct (bindProject_fields p s1 HI1 Hub)
    as (_ & Hun & _ & _ & Hv & _ & _ & _ & _ & _ & Hst & Hr & Ht & Htr).
  destruct Hub as (_ & Hun1 & Hv1 & _).
  exists [EvInterpreterSetProject (Some p); EvProjectRegister p]. split; [done|].
  assert (Hl : ledgerOf (bindProject p (set_project (Some p) s1))
               = (rendererOf s1, (steppingInterval s1, Some p), viewsOf s1)).
  { unfold ledgerOf, rendererOf, loopOf. rewrite Hr, Hst, Ht, Hun. simpl.
    f_equal. apply viewsOf_same. by rewrite Hv, Hv1. }
  rewrite Hl. unfold ledgerOf, loopOf. rewrite Hun1.
  by destruct (rendererOf s1) as [live held].
Qed.

Lemma books_attachStage stg s : Inv s → Tidy s → books s (attachStage stg s).
Proof.
  intros HI HT. unfold attachStage.
  set (s1 := match unsetPreviousStage s with
             | Some (r, ls) => set_unsetPreviousStage None (unsetStage r ls s)
             | None => s
             end).
  assert (H1 : books s s1 ∧ ledgerOf s1 = ((None, None), loopOf s, viewsOf s) ∧
               nextId s1 = nextId s ∧ inputListeners s1 = [] ∧
               (∀ c, c ∈ aborted s1 → c < nextId s)).
  { unfold s1. destruct HT as [Hb _ _ _].
    destruct (unsetPreviousStage s) as [[r ls]|] eqn:Hus.
    - destruct Hb as (Hr & st & c & Hst & -> & Hil & Hc).
      assert (Hl : ledgerOf (set_unsetPreviousStage None (unsetStage r (Some c) s))
                   = ((None, None), loopOf s, viewsOf s)).
      { unfold unsetStage, abort. cbn. by rewrite decide_False by done. }
      split; [|split; [done|split; [|split]]].
      + exists [EvInterpreterSetRenderer None; EvRendererDestroy r; EvAbort c].
        split.
        * unfold unsetStage. cbv zeta.
          cbn [trace set_unsetPreviousStage]. rewrite abort_trace.
          cbn [trace aborted emit set_trace set_stage set_renderer].
          rewrite decide_False by done. by rewrite <- !app_assoc.
        * rewrite Hl. unfold ledgerOf, rendererOf. rewrite Hr, Hst.
          destruct (loopOf s) as [timer proj]. book. by rewrite decide_True.
      + unfold unsetStage, abort. cbn. by rewrite decide_False by done.
      + unfold unsetStage, abort. cbn. rewrite decide_False by done. cbn.
        rewrite Hil. unfold without. by rewrite filter_cons, decide_False by (simpl; tauto).
      + unfold unsetStage, abort. cbn. rewrite decide_False by done. cbn.
        intros c' [E%elem_of_singleton|H]%elem_of_union.
        * subst c'. by apply (inv_unset_old _ HI r c).
        * by apply (inv_aborted_old _ HI).
    - destruct Hb as (Hr & Hst & Hil). split; [apply books_refl|].
      split; [|split; [done|split; [done|apply (inv_aborted_old _ HI)]]].
      unfold ledgerOf, rendererOf. by rewrite Hr. }
  destruct H1 as (Hb1 & Hl1 & Hn1 & Hil1 & Ha1). clearbody s1.
  destruct stg as [st|]; [|done].
  eapply books_trans; [exact Hb1|].
  unfold setupEventListeners. cbn.
  match goal with |- books s1 ?x => set (s' := x) end.
  assert (Hl : ledgerOf s' = ((Some (nextId s1, st), Some (nextId s1)), loopOf s1, viewsOf s1))
    by done.
  exists [EvRendererCreate (nextId s1) st; EvInterpreterSetRenderer (Some (nextId s1))].
  split; [cbn; by rewrite <- app_assoc|].
  assert (Hr1 : rendererOf s1 = (None, None)) by (unfold ledgerOf in Hl1; congruence).
  rewrite Hl. unfold ledgerOf. rewrite Hr1.
  destruct (loopOf s1) as [timer proj]. book. by rewrite decide_True.
Qed.

Lemma books_each {A} (f : State → A → State) (l : list A) s :
  (∀ acc x, books acc (f acc x)) → books s (foldl f s l).
Proof.
  intros Hf. revert s. induction l as [|x l IH]; intros s; simpl; [apply books_refl|].
  eapply books_trans; [apply Hf|apply IH].
Qed.

Lemma books_dispatchUpdate m s : Inv s → Tidy s → books s (dispatchUpdate m s).
Proof.
  unfold dispatchUpdate. generalize (updateListeners s). intros l. revert s.
  induction l as [|[m' c] l IH]; intros s HI HT; simpl; [apply books_refl|].
  case_decide as Hl; [|by apply IH]. simpl in Hl. destruct Hl as [-> Hl].
  eapply books_trans; [by apply books_handleMonitorUpdated|]. apply IH.
  - apply handleMonitorUpdated_Inv; [done|].
    intros p Hp. destruct (inv_update_listeners _ HI _ _ Hl) as (p' & Hu & Hin).
    rewrite (inv_bound _ HI), Hu in Hp. by simplify_eq/=.
  - by apply handleMonitorUpdated_Tidy.
Qed.

Lemma books_apply dk o s : Inv s → Tidy s → books s (apply dk o s).
Proof.
  intros HI HT. destruct o; simpl.
  - by apply books_setProject.
  - by apply books_attachStage.
  - by apply books_start.
  - apply books_stop.
  - by apply books_setProject.
  - case_decide as Ht; [|apply books_refl]. apply books_step; [done|done|by eexists].
  - unfold projectCreatesMonitor, dispatchCreate. cbv zeta.
    match goal with |- books s (foldl _ ?x _) => apply (books_trans _ x) end;
      [by apply books_same|].
    apply books_each. intros acc l.
    case_decide; [apply books_handleMonitorCreated|apply books_refl].
  - unfold monitorUpdates.
    match goal with |- books s (dispatchUpdate _ ?x) => apply (books_trans _ x) end;
      [by apply books_same|].
    apply books_dispatchUpdate.
    + eapply Inv_frame; [|exact HI]. by repeat split.
    + eapply Tidy_frame; [|exact HT]. by repeat split.
  - destruct (listening st s); [|apply books_refl]. unfold keydown.
    destruct (dk k) as [key|]; [|apply books_refl].
    exists [EvPreventDefault; EvStartHats key].
    split; [cbn; by rewrite <- app_assoc|].
    change (ledgerOf (emit _ (set_keysDown _ (emit _ s)))) with (ledgerOf s).
    apply accounts_kept. repeat constructor; by apply ledgerAccount_unaccounted.
  - apply books_each. intros acc _.
    unfold keyup. destruct (dk k); [by apply books_same|apply books_refl].
  - apply books_each. intros acc _. by apply books_same.
  - apply books_each. intros acc _. by apply books_same.
Qed.

Lemma books_perform dk pick a s : Inv s → Tidy s → books s (perform dk pick a s).
Proof.
  intros HI HT. destruct a as [o|st]; simpl; [by apply books_apply|].
  destruct (listening st s); [|apply books_refl]. rewrite pointerdown_state.
  by apply books_same.
Qed.

(** The ledger of a trace read from the start. *)
Definition Booked (s : State) : Prop :=
  accounts ledgerAccount ((None, None), (None, None), ∅) (trace s) = Some (ledgerOf s).

Lemma Booked_books s s' : Booked s → books s s' → Booked s'.
Proof. intros HB (evs & Ht & Ha). unfold Booked in *. by rewrite Ht, accounts_app, HB. Qed.

Lemma viewsOf_initial ph mh vb vl pl : viewsOf (initial ph mh vb vl pl) = ∅.
Proof. apply set_eq. intros v. rewrite elem_of_viewsOf. set_solver. Qed.

Lemma attainable_Booked s : attainable s → Booked s.
Proof.
  intros (dk & pick & acts & ph & mh & vb & vl & pl & ->).
  assert (H : ∀ s0, Inv s0 → Tidy s0 → Booked s0 → Booked (performs dk pick acts s0)).
  { induction acts as [|a acts IH]; intros s0 HI HT HB; [done|].
    apply IH; [by apply perform_Inv|by apply perform_Tidy|].
    eapply Booked_books; [exact HB|by apply books_perform]. }
  apply H; [apply Inv_initial|apply Tidy_initial|].
  unfold Booked, ledgerOf. by rewrite viewsOf_initial.
Qed.

Lemma attainable_accounts s :
  attainable s →
  accounts rendererAccount (None, None) (trace s) = Some (rendererOf s) ∧
  accounts loopAccount (None, None) (trace s) = Some (loopOf s) ∧
  accounts viewAccount ∅ (trace s) = Some (viewsOf s).
Proof. intros H. apply ledger_split. by apply attainable_Booked. Qed.

(** *** The protocols hold in every attainable state *)

(** X6. Whatever the host has done, the calls recorded so far respect the
    renderer's protocol: a renderer is made only when none is live; the
    interpreter is given only the live renderer, and is told to let go of it
    before it is destroyed; only the live renderer is destroyed, draws, or has
    its pen layer cleared; monitor views are made only by the stage the live
    renderer was made for.  The live renderer at the end is [this.renderer],
    made for [this.stage], and it is the one the interpreter holds. *)
Theorem renderer_protocol (s : State) :
  attainable s →
  accounts rendererAccount (None, None) (trace s) = Some (rendererOf s).
Proof. intros H. by destruct (attainable_accounts s H) as (? & _). Qed.


(** X8. Whatever the host has done, the calls recorded so far respect the
    views' protocol: no view is made twice, a view is removed only while it
    exists (so never twice), and it is updated or coloured only between its
    making and its removal.  The views that exist at the end are exactly those
    in [this.monitorViews]. *)
Theorem view_protocol (s : State) :
  attainable s →
  accounts viewAccount ∅ (trace s) = Some (viewsOf s).
Proof. intros H. by destruct (attainable_accounts s H) as (_ & _ & ?). Qed.

(** X9. In every attainable state the stage is either attached or not, as
    a whole: either [unsetPreviousStage], [renderer] and [stage] are all null
    and no input listener is registered, or all three are set, the stored
    teardown is for that renderer, and exactly one group of input listeners is
    registered, for that stage, on a controller that has not been aborted.
    (So [setupEventListeners] never leaves through its [!this.renderer]
    exit.) *)
Theorem stage_bound_together (s : State) :
  attainable s →
  (unsetPreviousStage s = None ∧ renderer s = None ∧ stage s = None ∧
   inputListeners s = []) ∨
  (∃ r st c, unsetPreviousStage s = Some (r, Some c) ∧ renderer s = Some r ∧
             stage s = Some st ∧ inputListeners s = [(st, c)] ∧ c ∉ aborted s).
Proof.
  intros H. pose proof (attainable_Inv s H) as HI.
  destruct (attainable_Tidy s H) as [Hb _ _ _].
  destruct (unsetPreviousStage s) as [[r ls]|]; [right|by left].
  destruct Hb as (Hr & st & c & Hst & -> & Hil & Hc). by exists r, st, c.
Qed.

(** Events of the keyboard and the pointer. *)
Definition is_input (a : Act) : bool :=
  match a with
  | Does (KeyDown _ _) | Does (KeyUp _) | Does (PointerMove _ _) | Does PointerUp
  | PointerDown _ => true
  | _ => false
  end.

Lemma attachStage_None_fields s :
  Tidy s →
  let s' := attachStage None s in
  unsetPreviousStage s' = None ∧ renderer s' = None ∧ stage s' = None ∧
  inputListeners s' = [] ∧
  keysDown s' = keysDown s ∧ mouseDown s' = mouseDown s ∧
  mousePosition s' = mousePosition s ∧ monitorViews s' = monitorViews s ∧
  trace s' = trace s ++ match unsetPreviousStage s with
                        | Some (r, Some c) =>
                            [EvInterpreterSetRenderer None; EvRendererDestroy r; EvAbort c]
                        | _ => []
                        end.
Proof.
  intros [Hb _ _ _]. unfold attachStage. cbv zeta.
  destruct (unsetPreviousStage s) as [[r ls]|] eqn:Hus.
  - destruct Hb as (Hr & st & c & Hst & -> & Hil & Hc).
    unfold unsetStage, abort. cbn. rewrite decide_False by done. cbn.
    rewrite Hil. unfold without. rewrite filter_cons, decide_False by (simpl; tauto).
    repeat split; try done. by rewrite <- !app_assoc.
  - destruct Hb as (Hr & Hst & Hil). repeat split; try done. by rewrite app_nil_r.
Qed.

(** X10. Once the stage is detached ([attachStage(null)]) nothing of it
    is left: no renderer, no stage, no input listener, so that no key or
    pointer event changes anything any more.  What the keyboard and the
    pointer had set stays as it was: a key that is down at that moment stays
    in [keysDown].  If a stage was attached, the interpreter is told, the
    renderer destroyed and the listeners' controller aborted, in this
    order. *)
Theorem detached_stage_hears_nothing (s : State) :
  attainable s →
  let s' := attachStage None s in
  renderer s' = None ∧ stage s' = None ∧ inputListeners s' = [] ∧
  keysDown s' = keysDown s ∧ mouseDown s' = mouseDown s ∧
  mousePosition s' = mousePosition s ∧
  (∀ r c, unsetPreviousStage s = Some (r, Some c) →
     trace s' = trace s ++ [EvInterpreterSetRenderer None; EvRendererDestroy r; EvAbort c]) ∧
  (∀ dk pick a, is_input a = true → perform dk pick a s' = s').
Proof.
  intros H. pose proof (attainable_Tidy s H) as HT.
  destruct (attachStage_None_fields s HT) as (_ & Hr & Hst & Hil & Hk & Hm & Hp & _ & Ht).
  cbv zeta in *. repeat (split; [done|]). split.
  - intros r c Hus. by rewrite Ht, Hus.
  - set (s' := attachStage None s) in *. clearbody s'.
    intros dk pick [[]|st] Ha; try done; simpl; unfold listening; rewrite Hil; done.
Qed.

Lemma count_cons P e l : count P (e :: l) = (if P e then 1 else 0) + count P l.
Proof.
  unfold count. rewrite filter_cons.
  destruct (decide (P e = true)) as [->|Hn]; simpl; [done|]. by destruct (P e).
Qed.

Lemma renderView_first p m view s :
  ∃ evs, trace (renderView p m view s) = trace s ++ EvViewUpdate view m :: evs ∧
         count is_view_create evs = 0 ∧ count is_view_remove evs = 0.
Proof.
  unfold renderView. cbv zeta.
  destruct (position _); destruct (colorCategory _);
    cbn [trace emit set_trace monitor_update_position set_monitorHeap];
    rewrite <- ?app_assoc; (eexists; split; [reflexivity|split; reflexivity]).
Qed.

(** An update of a visible monitor that has a view: the view is rendered
    again, none is made or removed. *)
Lemma notify_again m s p st v a :
  project s = Some p → stage s = Some st → monitorViews s !! m = Some (v, a) →
  let s1 := notify m true s in
  project s1 = Some p ∧ stage s1 = Some st ∧ monitorViews s1 = monitorViews s ∧
  sliderListeners s1 = sliderListeners s ∧ aborted s1 = aborted s ∧
  nextId s1 = nextId s ∧
  ∃ evs, trace s1 = trace s ++ EvViewUpdate v m :: evs ∧
         count is_view_create evs = 0 ∧ count is_view_remove evs = 0.
Proof.
  intros Hp Hst Hv. unfold notify, handleMonitorUpdated. cbv zeta.
  cbn [project stage monitorHeap set_monitorHeap]. rewrite Hp, Hst.
  rewrite fn_lookup_insert. cbn [visible setVisible negb].
  unfold fetchOrCreateView. cbn [monitorViews set_monitorHeap]. rewrite Hv.
  match goal with |- context [renderView p m v ?x] =>
    destruct (renderView_spec p m v x) as (Hp' & Hst' & Hv' & Hsl' & Ha' & Hn' & _);
    destruct (renderView_first p m v x) as (evs & Ht & Hc & Hr)
  end.
  rewrite Hp', Hst', Hv', Hsl', Ha', Hn'. repeat (split; [done|]). by exists evs.
Qed.

(** X11. While a project is bound and a stage is attached, any number of
    update notifications for a visible monitor that had no view make exactly
    one view, the first time, and render that same view afterwards: one
    [createMonitorView], no [remove], one slider listener. *)
Theorem repeated_updates_reuse_the_view (m : Monitor) (n : nat) (s : State) :
  attainable s → is_Some (project s) → is_Some (stage s) →
  monitorViews s !! m = None →
  let s' := Nat.iter (S n) (notify m true) s in
  monitorViews s' = <[m := (nextId s, S (nextId s))]> (monitorViews s) ∧
  sliderListeners s' = sliderListeners s ++ [(nextId s, S (nextId s))] ∧
  ∃ evs, trace s' = trace s ++ evs ∧
         count is_view_create evs = 1 ∧ count is_view_remove evs = 0.
Proof.
  intros H [p Hp] [st Hst] Hv. pose proof (attainable_Inv s H) as HI.
  assert (Hf : S (nextId s) ∉ aborted s).
  { intros Hin. apply (inv_aborted_old _ HI) in Hin. lia. }
  assert (Hn : ∀ n, let s' := Nat.iter (S n) (notify m true) s in
    project s' = Some p ∧ stage s' = Some st ∧
    monitorViews s' = <[m := (nextId s, S (nextId s))]> (monitorViews s) ∧
    sliderListeners s' = sliderListeners s ++ [(nextId s, S (nextId s))] ∧
    ∃ evs, trace s' = trace s ++ evs ∧
           count is_view_create evs = 1 ∧ count is_view_remove evs = 0).
  { clear n. induction n as [|n IH]; cbv zeta.
    - cbn [Nat.iter nat_rect].
      destruct (notify_show m s p st Hp Hst Hv Hf)
        as (Hp1 & Hst1 & Hv1 & Hsl1 & _ & _ & evs & Ht & Hc & Hr).
      repeat (split; [done|]).
      exists (EvCreateMonitorView st (nextId s) :: evs). split; [done|].
      rewrite !count_cons, Hc, Hr. done.
    - destruct IH as (Hp1 & Hst1 & Hv1 & Hsl1 & evs & Ht & Hc & Hr).
      change (Nat.iter (S (S n)) (notify m true) s)
        with (notify m true (Nat.iter (S n) (notify m true) s)).
      set (s1 := Nat.iter (S n) (notify m true) s) in *. clearbody s1.
      assert (Hm1 : monitorViews s1 !! m = Some (nextId s, S (nextId s)))
        by (by rewrite Hv1, lookup_insert_eq).
      destruct (notify_again m s1 p st _ _ Hp1 Hst1 Hm1)
        as (Hp2 & Hst2 & Hv2 & Hsl2 & _ & _ & evs2 & Ht2 & Hc2 & Hr2).
      split; [done|]. split; [done|]. split; [congruence|]. split; [congruence|].
      exists (evs ++ EvViewUpdate (nextId s) m :: evs2).
      split; [by rewrite Ht2, Ht, <- app_assoc|].
      rewrite !count_app, !count_cons, Hc, Hr, Hc2, Hr2. done. }
  destruct (Hn n) as (_ & _ & H1 & H2 & H3). done.
Qed.

(** X12. Attaching another stage, or detaching the stage, removes no
    monitor view: the views made on the previous stage stay tracked, their
    listener scopes are not aborted, and after another stage is attached an
    update of a visible monitor renders the view it had, and makes none on the
    new stage. *)
Theorem views_outlive_their_stage (stg : option StageId) (m : Monitor) (v : ViewId)
    (a : Signal) (s : State) :
  attainable s → is_Some (project s) → monitorViews s !! m = Some (v, a) →
  a ∉ aborted s →
  let s1 := attachStage stg s in
  monitorViews s1 = monitorViews s ∧ (a ∉ aborted s1) ∧
  (∃ evs, trace s1 = trace s ++ evs ∧ count is_view_remove evs = 0) ∧
  (is_Some stg →
     monitorViews (notify m true s1) = monitorViews s ∧
     ∃ evs, trace (notify m true s1) = trace s1 ++ EvViewUpdate v m :: evs ∧
            count is_view_create evs = 0 ∧ count is_view_remove evs = 0).
Proof.
  intros H [p Hp] Hv Ha. pose proof (attainable_Inv s H) as HI.
  pose proof (attainable_Tidy s H) as HT. cbv zeta.
  assert (H1 : monitorViews (attachStage stg s) = monitorViews s ∧
               (a ∉ aborted (attachStage stg s)) ∧
               project (attachStage stg s) = Some p ∧
               stage (attachStage stg s) = stg ∧
               ∃ evs, trace (attachStage stg s) = trace s ++ evs ∧
                      count is_view_remove evs = 0).
  { unfold attachStage.
    set (s1 := match unsetPreviousStage s with
               | Some (r, ls) => set_unsetPreviousStage None (unsetStage r ls s)
               | None => s
               end).
    assert (E : s1 = attachStage None s) by done.
    destruct (attachStage_None_fields s HT) as (_ & _ & Hst1 & _ & _ & _ & _ & Hv1 & Ht1).
    cbv zeta in Hst1, Hv1, Ht1. rewrite <- E in Hst1, Hv1, Ht1.
    assert (Hp1 : project s1 = Some p).
    { unfold s1. destruct (unsetPreviousStage s) as [[r [c|]]|]; try done.
      unfold unsetStage, abort. cbn. by case_decide. }
    assert (Ha1 : a ∉ aborted s1).
    { unfold s1. destruct (unsetPreviousStage s) as [[r [c|]]|] eqn:Hus; try done.
      unfold unsetStage, abort. cbn. case_decide; [done|]. cbn.
      assert (a ≠ c).
      { apply (stage_apart_views _ HT m v a c Hv). unfold stageSignal. by rewrite Hus. }
      set_solver. }
    assert (Hq1 : ∃ evs, trace s1 = trace s ++ evs ∧ count is_view_remove evs = 0).
    { rewrite Ht1. eexists; split; [reflexivity|].
      by destruct (unsetPreviousStage s) as [[r [c|]]|]. }
    clearbody s1. destruct stg as [st|]; [|done].
    unfold setupEventListeners. cbn. repeat (split; [done|]).
    destruct Hq1 as (evs & -> & Hc).
    exists (evs ++ [EvRendererCreate (nextId s1) st;
                    EvInterpreterSetRenderer (Some (nextId s1))]).
    split; [by rewrite <- !app_assoc|]. by rewrite count_app, Hc. }
  destruct H1 as (Hv1 & Ha1 & Hp1 & Hst1 & Hq1).
  repeat (split; [done|]). intros [st ->].
  assert (Hm1 : monitorViews (attachStage (Some st) s) !! m = Some (v, a)) by (by rewrite Hv1).
  destruct (notify_again m _ p st v a Hp1 Hst1 Hm1)
    as (_ & _ & Hv2 & _ & _ & _ & evs & Ht & Hc & Hr).
  split; [congruence|]. by exists evs.
Qed.

(** X13. [destroy()] releases the project and nothing else.  Afterwards no
    project is bound, no teardown is stored, no view is tracked and no monitor
    listener is registered; a second [destroy()] changes nothing.  The loop is
    stopped if a project was bound; if none was, [destroy()] changes nothing at
    all, so a timer started without a project keeps running.  The stage stays
    attached: renderer, stage, stored stage teardown and input listeners are as
    before. *)
Theorem destroy_releases_the_project_only (s : State) :
  attainable s →
  let s' := destroy s in
  project s' = None ∧ unregisterPreviousProject s' = None ∧ monitorViews s' = ∅ ∧
  createListeners s' = [] ∧ updateListeners s' = [] ∧
  (is_Some (project s) → steppingInterval s' = None) ∧
  (project s = None → s' = s) ∧
  destroy s' = s' ∧
  renderer s' = renderer s ∧ stage s' = stage s ∧
  unsetPreviousStage s' = unsetPreviousStage s ∧ inputListeners s' = inputListeners s.
Proof.
  intros H. pose proof (attainable_Inv s H) as HI.
  pose proof (attainable_Tidy s H) as HT.
  pose proof (setProject_Tidy None s HI HT) as HT'.
  unfold destroy in *. unfold setProject in *. cbv zeta in *.
  destruct (teardownProject_spec s HI)
    as (HI1 & (Hp1 & Hun1 & Hv1 & Hu1 & Hc1) & Htd & _ & Hr1 & Hst1 & _ & Hus1).
  assert (Hfix : ∀ x, project x = None → set_project None x = x)
    by (intros [] E; simpl in E; by subst).
  rewrite (Hfix _ Hp1) in *.
  split; [done|]. split; [done|]. split; [done|]. split; [done|]. split; [done|].
  split.
  { intros [p Hp]. rewrite (inv_bound _ HI) in Hp.
    destruct (unregisterPreviousProject s) as [[p0 c0]|] eqn:Hun; [|done].
    by destruct (Htd p0 c0 eq_refl). }
  split.
  { intros Hp. rewrite (inv_bound _ HI) in Hp. unfold teardownProject.
    by destruct (unregisterPreviousProject s). }
  split.
  { unfold teardownProject at 1. rewrite Hun1. by apply Hfix. }
  split; [done|]. split; [done|]. split; [done|].
  destruct HT as [Hb _ _ _], HT' as [Hb' _ _ _]. rewrite Hus1, Hst1 in Hb'.
  destruct (unsetPreviousStage s) as [[r ls]|].
  - destruct Hb as (_ & st & c & Hst & -> & -> & _).
    destruct Hb' as (_ & st' & c' & Hst' & [= <-] & -> & _). congruence.
  - destruct Hb as (_ & _ & ->). by destruct Hb' as (_ & _ & ->).
Qed.

(** X14. A press on the stage, in any attainable state in which the
    ['pointerdown'] listener is registered for that stage: the renderer is
    there (the listener's [!this.renderer] exit is never taken); [mouseDown]
    becomes true; if a project is bound, the target the renderer picks at the
    last pointer position is clicked, or the project's stage target if it
    picks none; if no project is bound nothing is clicked.  The release sets
    [mouseDown] back, and clicks nothing. *)
Theorem press_clicks_picked_target_or_stage
    (pick : RendererId → list Target → float → float → option Target)
    (st : StageId) (s : State) :
  attainable s → listening st s = true →
  ∃ r, renderer s = Some r ∧ stage s = Some st ∧
       (pointerdown pick s).1 = set_mouseDown true s ∧
       (pointerdown pick s).2
       = (p ← project s;
          match pick r (targetsOf (projectHeap s p))
                       (mousePosition s).1 (mousePosition s).2 with
          | Some clicked => Some clicked
          | None => stageOf (projectHeap s p)
          end) ∧
       mouseDown (pointerup (pointerdown pick s).1) = false.
Proof.
  intros H Hl. destruct (attainable_Tidy s H) as [Hb _ _ _].
  unfold listening in Hl. apply bool_decide_eq_true in Hl.
  destruct (unsetPreviousStage s) as [[r ls]|].
  - destruct Hb as (Hr & st' & c & Hst & _ & Hil & _). rewrite Hil in Hl.
    apply list_elem_of_singleton in Hl. simpl in Hl. subst st'.
    exists r. split; [done|]. split; [done|]. split; [apply pointerdown_state|].
    split; [|by rewrite pointerdown_state].
    unfold pointerdown. cbn [project renderer set_mouseDown mousePosition projectHeap].
    rewrite Hr. destruct (project s) as [p|]; [|done]. by destruct (mousePosition s).
  - destruct Hb as (_ & _ & Hil). rewrite Hil in Hl. by apply not_elem_of_nil in Hl.
Qed.

(** X15. [stepMonitors], for a bound project with a stage target: it
    returns, changes nothing but the record of calls, and launches the value
    script of every visible monitor of the project, once, in the order of the
    collection, on the monitor's own target or else on the stage target; no
    script is launched for a monitor that is not visible. *)
Theorem stepMonitors_launches_visible (s : State) (p : ProjectId) (stg : Target) :
  project s = Some p → stageOf (projectHeap s p) = Some stg →
  stepMonitors s = (emits (launches s p stg) s, Returned) ∧
  launches s p stg
  = (λ e, EvLaunch (updateMonitorBlock e)
                   (default stg (target (monitorHeap s (monitor e)))))
    <$> filter (λ e, visible (monitorHeap s (monitor e)) = true)
               (monitorsOf (projectHeap s p)).
Proof.
  intros Hp Hs. split; [by apply stepMonitors_bound|].
  unfold launches. induction (monitorsOf (projectHeap s p)) as [|e l IH]; [done|].
  cbn [omap list_omap]. rewrite filter_cons.
  destruct (visible (monitorHeap s (monitor e))) eqn:Hv.
  - rewrite decide_True by done. rewrite fmap_cons. by f_equal.
  - by rewrite decide_False by done.
Qed.

(** *** The properties at concrete states *)

Lemma attainable_run ops : attainable (run demoKeys ops fresh).
Proof. apply reachable_attainable, reachable_run. Qed.

Example playing_ledger :
  rendererOf playing = (Some (0, 7), Some 0) ∧ loopOf playing = (Some 5, Some 1) ∧
  stageOf (projectHeap playing 1) = Some 5 ∧ listening 7 playing = true ∧
  bool_decide (4 ∈ aborted playing) = false ∧
  unsetPreviousStage playing = Some (0, Some 1) ∧ inputListeners playing = [(7, 1)].
Proof. vm_compute. repeat split. Qed.

Lemma renderer_protocol_playing :
  attainable playing ∧
  accounts rendererAccount (None, None) (trace playing) = Some (rendererOf playing).
Proof.
  split; [apply attainable_run|]. apply (renderer_protocol playing), attainable_run.
Defined.


Lemma view_protocol_playing :
  attainable playing ∧
  accounts viewAccount ∅ (trace playing) = Some (viewsOf playing).
Proof.
  split; [apply attainable_run|]. apply (view_protocol playing), attainable_run.
Defined.

Lemma stage_bound_together_playing :
  attainable playing ∧
  ((unsetPreviousStage playing = None ∧ renderer playing = None ∧ stage playing = None ∧
    inputListeners playing = []) ∨
   (∃ r st c, unsetPreviousStage playing = Some (r, Some c) ∧ renderer playing = Some r ∧
              stage playing = Some st ∧ inputListeners playing = [(st, c)] ∧
              c ∉ aborted playing)).
Proof.
  split; [apply attainable_run|]. apply (stage_bound_together playing), attainable_run.
Defined.

Lemma detached_stage_hears_nothing_holding :
  attainable holding ∧
  inputListeners (attachStage None holding) = [] ∧
  keysDown (attachStage None holding) = keysDown holding ∧
  perform demoKeys (λ _ _ _ _, None) (Does (KeyUp "a"%string)) (attachStage None holding)
  = attachStage None holding.
Proof.
  split; [apply attainable_run|].
  destruct (detached_stage_hears_nothing holding (attainable_run _))
    as (_ & _ & Hil & Hk & _ & _ & _ & Hin).
  split; [exact Hil|]. split; [exact Hk|].
  exact (Hin demoKeys (λ _ _ _ _, None) (Does (KeyUp "a"%string)) eq_refl).
Defined.

Lemma repeated_updates_reuse_the_view_bound :
  attainable bound ∧ is_Some (project bound) ∧ is_Some (stage bound) ∧
  monitorViews bound !! 10 = None ∧
  ∃ evs, trace (Nat.iter 3 (notify 10 true) bound) = trace bound ++ evs ∧
         count is_view_create evs = 1 ∧ count is_view_remove evs = 0.
Proof.
  destruct bound_state as (Hp & Hst & _ & Hv).
  assert (Hp' : is_Some (project bound)) by (by eexists).
  assert (Hst' : is_Some (stage bound)) by (by eexists).
  split; [apply attainable_run|]. split; [done|]. split; [done|]. split; [done|].
  by destruct (repeated_updates_reuse_the_view 10 2 bound (attainable_run _) Hp' Hst' Hv)
    as (_ & _ & H).
Defined.

Lemma views_outlive_their_stage_playing :
  attainable playing ∧ monitorViews playing !! 10 = Some (3, 4) ∧
  monitorViews (attachStage (Some 8) playing) = monitorViews playing ∧
  monitorViews (notify 10 true (attachStage (Some 8) playing)) = monitorViews playing.
Proof.
  destruct playing_state as (Hp & _ & Hv & _).
  destruct playing_ledger as (_ & _ & _ & _ & Ha & _).
  assert (Hp' : is_Some (project playing)) by (by eexists).
  assert (Ha' : 4 ∉ aborted playing) by exact (proj1 (bool_decide_eq_false _) Ha).
  split; [apply attainable_run|]. split; [done|].
  destruct (views_outlive_their_stage (Some 8) 10 3 4 playing (attainable_run _) Hp' Hv Ha')
    as (H1 & _ & _ & H2).
  split; [exact H1|]. destruct H2 as [H2 _]; [by eexists|exact H2].
Defined.

Lemma destroy_releases_the_project_only_playing :
  attainable playing ∧ is_Some (project playing) ∧
  project (destroy playing) = None ∧ steppingInterval (destroy playing) = None ∧
  renderer (destroy playing) = renderer playing ∧
  inputListeners (destroy playing) = inputListeners playing.
Proof.
  destruct playing_state as (Hp & _).
  assert (Hp' : is_Some (project playing)) by (by eexists).
  split; [apply attainable_run|]. split; [done|].
  destruct (destroy_releases_the_project_only playing (attainable_run _))
    as (H1 & _ & _ & _ & _ & H2 & _ & _ & H3 & _ & _ & H4).
  split; [exact H1|]. split; [exact (H2 Hp')|]. split; [exact H3|exact H4].
Defined.

Lemma press_clicks_picked_target_or_stage_playing :
  attainable playing ∧ listening 7 playing = true ∧
  ∃ r, renderer playing = Some r ∧ stage playing = Some 7 ∧
       (pointerdown (λ _ _ _ _, None) playing).1 = set_mouseDown true playing.
Proof.
  destruct playing_ledger as (_ & _ & _ & Hl & _).
  split; [apply attainable_run|]. split; [done|].
  destruct (press_clicks_picked_target_or_stage (λ _ _ _ _, None) 7 playing
              (attainable_run _) Hl) as (r & Hr & Hst & H1 & _).
  exists r. split; [exact Hr|]. split; [exact Hst|exact H1].
Defined.

Lemma stepMonitors_launches_visible_playing :
  project playing = Some 1 ∧ stageOf (projectHeap playing 1) = Some 5 ∧
  stepMonitors playing = (emits (launches playing 1 5) playing, Returned).
Proof.
  destruct playing_state as (Hp & _).
  destruct playing_ledger as (_ & _ & Hs & _).
  split; [done|]. split; [done|].
  by destruct (stepMonitors_launches_visible playing 1 5 Hp Hs) as [H _].
Defined.

End Runtime.

(** ** The shader program wrapper *)

Module Shader.

Abbreviation ShaderId := nat.
Abbreviation ProgramId := nat.
Abbreviation UniformLocation := nat.

Definition newline : string := String (Ascii.ascii_of_nat 10) EmptyString.

(** [const VERSION = '#version 300 es\n'] *)
Definition VERSION : string := ("#version 300 es" +:+ newline)%string.

(** [const PRECISION = 'precision highp float;\n'] *)
Definition PRECISION : string := ("precision highp float;" +:+ newline)%string.

(** [gl.VERTEX_SHADER], [gl.FRAGMENT_SHADER] *)
Inductive ShaderType := VERTEX_SHADER | FRAGMENT_SHADER.

(** What the WebGL context answers to the calls of this file.  Objects and
    info logs may be null; [getActiveAttrib] and [getActiveUniform] are read
    for their [name]. *)
Record Context := mkContext {
  glCreateShader : ShaderType → option ShaderId;
  glCompileStatus : ShaderId → bool;            (* getShaderParameter(s, COMPILE_STATUS) *)
  glShaderInfoLog : ShaderId → option string;
  glCreateProgram : option ProgramId;
  glLinkStatus : ProgramId → bool;              (* getProgramParameter(p, LINK_STATUS) *)
  glProgramInfoLog : ProgramId → option string;
  glActiveAttributes : ProgramId → nat;         (* getProgramParameter(p, ACTIVE_ATTRIBUTES) *)
  glActiveAttrib : ProgramId → nat → option string;
  glAttribLocation : ProgramId → string → Z;
  glActiveUniforms : ProgramId → nat;           (* getProgramParameter(p, ACTIVE_UNIFORMS) *)
  glActiveUniform : ProgramId → nat → option string;
  glUniformLocation : ProgramId → string → option UniformLocation
}.

(** The calls that change the context, as they are made. *)
Inductive Call :=
| CreateShader (type : ShaderType)
| ShaderSource (shader : ShaderId) (source : string)
| CompileShader (shader : ShaderId)
| CreateProgram
| AttachShader (program : ProgramId) (shader : ShaderId)
| LinkProgram (program : ProgramId).

Inductive Error :=
| CouldNotCreateShader                       (* 'Could not create WebGL shader' *)
| CouldNotCompile (info : option string)     (* 'Could not compile WebGL program. \n' + info *)
| CouldNotCreateProgram                      (* 'Could not create WebGL program' *)
| TypeError.                                 (* [.name] of null *)

(** [String(info)] in a concatenation: null reads "null". *)
Definition message (e : Error) : string :=
  match e with
  | CouldNotCreateShader => "Could not create WebGL shader"
  | CouldNotCompile info =>
      ("Could not compile WebGL program. " +:+ newline) +:+ default "null" info
  | CouldNotCreateProgram => "Could not create WebGL program"
  | TypeError => "TypeError"
  end%string.

(** The fields of a [Shader]; the two records of locations by their own
    properties. *)
Record Shader := mkShader {
  program : ProgramId;
  attribLocations : gmap string Z;
  uniformLocations : gmap string (option UniformLocation)
}.

(** [private createShader(gl, source, type)]: the calls made, and the shader
    or the error thrown. *)
Definition createShader (gl : Context) (source : string) (type : ShaderType)
  : list Call * (Error + ShaderId) :=
  match glCreateShader gl type with
  | None => ([CreateShader type], inl CouldNotCreateShader)
  | Some shader =>
      let calls := [CreateShader type; ShaderSource shader source; CompileShader shader] in
      if glCompileStatus gl shader then (calls, inr shader)
      else (calls, inl (CouldNotCompile (glShaderInfoLog gl shader)))
  end.

(** [record[name] = value] on an object that started as [{}].  The object
    is kept as its own properties and whether it has lost its prototype.
    Every name but [__proto__] becomes an own property.  [__proto__] reaches
    the setter of [Object.prototype] while the object has a prototype chain:
    no own property is written, a value that is no object is ignored, an
    object becomes the prototype (whose chain ends in [Object.prototype]
    again), and [null] leaves the object without prototype; from then on
    [__proto__] is written as an own property like any other name. *)
Definition assign {A} (null : A → bool) (name : string) (value : A)
    (object : gmap string A * bool) : gmap string A * bool :=
  let '(record, bare) := object in
  if decide (name = "__proto__"%string) then
    if bare then (<[name := value]> record, bare) else (record, null value)
  else (<[name := value]> record, bare).

(** A number is never [null]. *)
Definition neverNull : Z → bool := λ _, false.

(** A uniform location is an object or [null]. *)
Definition isNull (location : option UniformLocation) : bool :=
  match location with None => true | Some _ => false end.

(** One of the two loops of the constructor, over [i = 0 .. count - 1]:
    [info] is [getActiveAttrib] or [getActiveUniform], [location] is
    [getAttribLocation] or [getUniformLocation]. *)
Fixpoint locations {A} (null : A → bool) (info : nat → option string)
    (location : string → A) (i count : nat) (object : gmap string A * bool)
  : Error + (gmap string A * bool) :=
  match count with
  | 0 => inr object
  | S count =>
      match info i with
      | None => inl TypeError
      | Some name =>
          locations null info location (S i) count
                    (assign null name (location name) object)
      end
  end.

(** [constructor(gl, vertSource, fragSource)] *)
Definition new (gl : Context) (vertSource fragSource : string)
  : list Call * (Error + Shader) :=
  match createShader gl ((VERSION +:+ PRECISION) +:+ vertSource) VERTEX_SHADER with
  | (calls1, inl e) => (calls1, inl e)
  | (calls1, inr vertShader) =>
      match createShader gl ((VERSION +:+ PRECISION) +:+ fragSource) FRAGMENT_SHADER with
      | (calls2, inl e) => (calls1 ++ calls2, inl e)
      | (calls2, inr fragShader) =>
          match glCreateProgram gl with
          | None => (calls1 ++ calls2 ++ [CreateProgram], inl CouldNotCreateProgram)
          | Some program =>
              let calls := calls1 ++ calls2 ++
                           [CreateProgram; AttachShader program vertShader;
                            AttachShader program fragShader; LinkProgram program] in
              if negb (glLinkStatus gl program)
              then (calls, inl (CouldNotCompile (glProgramInfoLog gl program)))
              else
                match locations neverNull (glActiveAttrib gl program)
                                (glAttribLocation gl program)
                                0 (glActiveAttributes gl program) (∅, false) with
                | inl e => (calls, inl e)
                | inr (attribs, _) =>
                    match locations isNull (glActiveUniform gl program)
                                    (glUniformLocation gl program)
                                    0 (glActiveUniforms gl program) (∅, false) with
                    | inl e => (calls, inl e)
                    | inr (uniforms, _) =>
                        (calls, inr (mkShader program attribs uniforms))
                    end
                end
          end
      end
  end.

(** *** The loops *)

Lemma named_or_not (info : nat → option string) (name : string) count :
  ∀ i, (∃ j, i ≤ j < i + count ∧ info j = Some name) ∨
       (∀ j, i ≤ j < i + count → info j ≠ Some name).
Proof.
  induction count as [|count IH]; intros i; [right; intros j ?; lia|].
  destruct (decide (info i = Some name)) as [Hi|Hi].
  - left. exists i. split; [lia|done].
  - destruct (IH (S i)) as [(j & Hj & Hname)|Hnone].
    + left. exists j. split; [lia|done].
    + right. intros j Hj. destruct (decide (j = i)) as [->|Hne]; [done|]. apply Hnone. lia.
Qed.

(** What a loop ends with: a [TypeError] at the first index without info;
    otherwise an object in which every name found, but [__proto__], has its
    location, and every other name but [__proto__] is as before.  An object
    with a prototype keeps it, and gets no own [__proto__], unless the
    location of [__proto__] is [null]. *)
Lemma locations_spec {A} (null : A → bool) (info : nat → option string)
    (location : string → A) count :
  ∀ i record bare,
    match locations null info location i count (record, bare) with
    | inl e => e = TypeError ∧ ∃ j, i ≤ j < i + count ∧ info j = None
    | inr (result, bare') =>
        (∀ j, i ≤ j < i + count → is_Some (info j)) ∧
        (∀ name, name ≠ "__proto__"%string →
           (∃ j, i ≤ j < i + count ∧ info j = Some name) →
           result !! name = Some (location name)) ∧
        (∀ name, name ≠ "__proto__"%string →
           (∀ j, i ≤ j < i + count → info j ≠ Some name) →
           result !! name = record !! name) ∧
        (bare = false → null (location "__proto__"%string) = false →
           result !! "__proto__"%string = record !! "__proto__"%string ∧ bare' = false)
    end.
Proof.
  induction count as [|count IH]; intros i record bare; cbn [locations].
  - split; [intros j ?; lia|]. split; [intros name _ (j & ? & _); lia|]. done.
  - destruct (info i) as [name0|] eqn:Hi; [|split; [done|]; exists i; split; [lia|done]].
    destruct (assign null name0 (location name0) (record, bare)) as [record1 bare1] eqn:Has.
    specialize (IH (S i) record1 bare1).
    destruct (locations null info location (S i) count _) as [e|[result bare']].
    { destruct IH as (-> & j & Hj & Hnone). split; [done|]. exists j. split; [lia|done]. }
    destruct IH as (Hall & Hfound & Hother & Hproto).
    assert (Hrest : ∀ name, name ≠ "__proto__"%string → name ≠ name0 →
                            record1 !! name = record !! name).
    { intros name Hn Hne. unfold assign in Has.
      repeat case_decide; try destruct bare; simplify_eq; try done;
        by rewrite lookup_insert_ne. }
    split; [|split; [|split]].
    + intros j Hj. destruct (decide (j = i)) as [->|Hne]; [by rewrite Hi|]. apply Hall. lia.
    + intros name Hn (j & Hj & Hname).
      destruct (named_or_not info name count (S i)) as [Hlater|Hnone]; [by apply Hfound|].
      rewrite Hother by done.
      destruct (decide (j = i)) as [->|Hne]; [|destruct (Hnone j); [lia|done]].
      rewrite Hi in Hname. injection Hname as ->.
      unfold assign in Has. rewrite decide_False in Has by done. simplify_eq.
      by rewrite lookup_insert_eq.
    + intros name Hn Hnone. rewrite Hother; [|done|intros j Hj; apply Hnone; lia].
      apply Hrest; [done|]. intros ->. destruct (Hnone i); [lia|done].
    + intros -> Hnull. unfold assign in Has. case_decide as Hp.
      * subst name0. rewrite Hnull in Has. simplify_eq. by apply Hproto.
      * simplify_eq. destruct Hproto as [-> ->]; [done..|].
        split; [|done]. by rewrite lookup_insert_ne.
Qed.

(** *** The constructor *)

(** The source handed to the context for a shader. *)
Definition withHeader (source : string) : string :=
  ((VERSION +:+ PRECISION) +:+ source)%string.

(** A context on which the constructor goes through: both shaders are made
    and compile, the program is made and links, and every active attribute
    and uniform counted has its info. *)
Definition workable (gl : Context) : Prop :=
  ∃ vs fs p,
    glCreateShader gl VERTEX_SHADER = Some vs ∧ glCompileStatus gl vs = true ∧
    glCreateShader gl FRAGMENT_SHADER = Some fs ∧ glCompileStatus gl fs = true ∧
    glCreateProgram gl = Some p ∧ glLinkStatus gl p = true ∧
    (∀ i, i < glActiveAttributes gl p → is_Some (glActiveAttrib gl p i)) ∧
    (∀ i, i < glActiveUniforms gl p → is_Some (glActiveUniform gl p i)).

Lemma locations_total {A} (null : A → bool) (info : nat → option string)
    (location : string → A) count object :
  (∀ i, i < count → is_Some (info i)) →
  ∃ result, locations null info location 0 count object = inr result.
Proof.
  intros Hall. destruct object as [record bare].
  pose proof (locations_spec null info location count 0 record bare) as H.
  destruct (locations null info location 0 count (record, bare)) as [e|result]; [|by eexists].
  destruct H as (_ & j & Hj & Hnone). destruct (Hall j) as [x Hx]; [lia|congruence].
Qed.

(** X16. [new Shader(gl, vertSource, fragSource)] returns a shader exactly
    on a workable context, and throws otherwise.  When it returns, it has made
    these calls, in this order: the vertex shader is created, given
    [VERSION + PRECISION + vertSource] and compiled; the same for the fragment
    shader; the program is created, both shaders are attached, the program is
    linked; and [this.program] is the program made. *)
Theorem new_returns_iff_workable (gl : Context) (vertSource fragSource : string) :
  ((∃ shader, (new gl vertSource fragSource).2 = inr shader) ↔ workable gl) ∧
  ∀ shader, (new gl vertSource fragSource).2 = inr shader →
    ∃ vs fs,
      glCreateShader gl VERTEX_SHADER = Some vs ∧
      glCreateShader gl FRAGMENT_SHADER = Some fs ∧
      glCreateProgram gl = Some (program shader) ∧
      (new gl vertSource fragSource).1
      = [CreateShader VERTEX_SHADER; ShaderSource vs (withHeader vertSource);
         CompileShader vs;
         CreateShader FRAGMENT_SHADER; ShaderSource fs (withHeader fragSource);
         CompileShader fs;
         CreateProgram; AttachShader (program shader) vs;
         AttachShader (program shader) fs; LinkProgram (program shader)].
Proof.
  unfold new, createShader, workable.
  destruct (glCreateShader gl VERTEX_SHADER) as [vs|] eqn:Hvs.
  2:{ split; [split|]; [intros [sh [=]]|intros (?&?&?&[=]&_)|intros sh [=]]. }
  destruct (glCompileStatus gl vs) eqn:Hvc.
  2:{ split; [split|]; [intros [sh [=]]|intros (?&?&?&[= <-]&?&_); congruence|intros sh [=]]. }
  destruct (glCreateShader gl FRAGMENT_SHADER) as [fs|] eqn:Hfs.
  2:{ split; [split|]; [intros [sh [=]]|intros (?&?&?&_&_&[=]&_)|intros sh [=]]. }
  destruct (glCompileStatus gl fs) eqn:Hfc.
  2:{ split; [split|]; [intros [sh [=]]|intros (?&?&?&_&_&[= <-]&?&_); congruence|
                        intros sh [=]]. }
  destruct (glCreateProgram gl) as [p|] eqn:Hp.
  2:{ split; [split|]; [intros [sh [=]]|intros (?&?&?&_&_&_&_&[=]&_)|intros sh [=]]. }
  destruct (glLinkStatus gl p) eqn:Hl; cbn [negb].
  2:{ split; [split|]; [intros [sh [=]]|intros (?&?&?&_&_&_&_&[= <-]&?&_); congruence|
                        intros sh [=]]. }
  pose proof (locations_spec neverNull (glActiveAttrib gl p) (glAttribLocation gl p)
                (glActiveAttributes gl p) 0 ∅ false) as Ha.
  destruct (locations neverNull (glActiveAttrib gl p) (glAttribLocation gl p) 0 _ (∅, false))
    as [e|[attribs ?]].
  { destruct Ha as (_ & j & Hj & Hnone). split; [split|]; [intros [sh [=]]| |intros sh [=]].
    intros (?&?&?&_&_&_&_&[= <-]&_&Hall&_). destruct (Hall j) as [nm Hnm]; [lia|congruence]. }
  pose proof (locations_spec isNull (glActiveUniform gl p) (glUniformLocation gl p)
                (glActiveUniforms gl p) 0 ∅ false) as Hu.
  destruct (locations isNull (glActiveUniform gl p) (glUniformLocation gl p) 0 _ (∅, false))
    as [e|[uniforms ?]].
  { destruct Hu as (_ & j & Hj & Hnone). split; [split|]; [intros [sh [=]]| |intros sh [=]].
    intros (?&?&?&_&_&_&_&[= <-]&_&_&Hall). destruct (Hall j) as [nm Hnm]; [lia|congruence]. }
  destruct Ha as (Ha & _), Hu as (Hu & _). split; [split|].
  - intros _. exists vs, fs, p. repeat (split; [done|]). split.
    + intros i Hi. apply Ha. lia.
    + intros i Hi. apply Hu. lia.
  - intros _. by eexists.
  - intros sh [= <-]. by exists vs, fs.
Qed.


Lemma new_inr gl vertSource fragSource shader :
  (new gl vertSource fragSource).2 = inr shader →
  (∃ bare,
     locations neverNull (glActiveAttrib gl (program shader))
               (glAttribLocation gl (program shader))
               0 (glActiveAttributes gl (program shader)) (∅, false)
     = inr (attribLocations shader, bare)) ∧
  (∃ bare,
     locations isNull (glActiveUniform gl (program shader))
               (glUniformLocation gl (program shader))
               0 (glActiveUniforms gl (program shader)) (∅, false)
     = inr (uniformLocations shader, bare)).
Proof.
  unfold new, createShader.
  destruct (glCreateShader gl VERTEX_SHADER) as [vs|]; [|done].
  destruct (glCompileStatus gl vs); [|done].
  destruct (glCreateShader gl FRAGMENT_SHADER) as [fs|]; [|done].
  destruct (glCompileStatus gl fs); [|done].
  destruct (glCreateProgram gl) as [p|]; [|done].
  destruct (negb (glLinkStatus gl p)); [done|].
  destruct (locations neverNull (glActiveAttrib gl p) _ 0 _ _) as [e|[attribs b1]] eqn:Ha;
    [done|].
  destruct (locations isNull (glActiveUniform gl p) _ 0 _ _) as [e|[uniforms b2]] eqn:Hu;
    [done|].
  intros [= <-]. cbn. split; by eexists.
Qed.

Lemma locations_lookup {A} (null : A → bool) (info : nat → option string)
    (location : string → A) count result bare name (loc : A) :
  locations null info location 0 count (∅, false) = inr (result, bare) →
  name ≠ "__proto__"%string →
  result !! name = Some loc ↔ (∃ i, i < count ∧ info i = Some name) ∧ loc = location name.
Proof.
  intros Hrun Hn. pose proof (locations_spec null info location count 0 ∅ false) as H.
  rewrite Hrun in H. destruct H as (_ & Hfound & Hother & _). split.
  - intros Hl. destruct (named_or_not info name count 0) as [(i & Hi & Hname)|Hnone].
    + rewrite Hfound in Hl; [|done|by exists i]. injection Hl as <-.
      split; [|done]. exists i. split; [lia|done].
    + rewrite Hother in Hl by done. by rewrite lookup_empty in Hl.
  - intros ((i & Hi & Hname) & ->). apply Hfound; [done|]. exists i. split; [lia|done].
Qed.

Lemma locations_proto {A} (null : A → bool) (info : nat → option string)
    (location : string → A) count result bare :
  locations null info location 0 count (∅, false) = inr (result, bare) →
  null (location "__proto__"%string) = false →
  result !! "__proto__"%string = None.
Proof.
  intros Hrun Hnull. pose proof (locations_spec null info location count 0 ∅ false) as H.
  rewrite Hrun in H. destruct H as (_ & _ & _ & Hproto).
  destruct Hproto as [-> _]; [done..|]. apply lookup_empty.
Qed.

(** X18. In a shader that the constructor returns, [attribLocations] has,
    as own properties, exactly the names of the program's active attributes
    (those of index below [ACTIVE_ATTRIBUTES]) other than [__proto__], each
    with the location the context gives for that name, also when a name is
    listed twice.  [uniformLocations] has, for every name other than
    [__proto__], an own property exactly when the name is one of the active
    uniforms, with the location the context gives, which may be null; and
    it has no own [__proto__] when the context gives [__proto__] a location
    that is not null. *)
Theorem new_records_every_active_name (gl : Context) (vertSource fragSource : string)
    (shader : Shader) :
  (new gl vertSource fragSource).2 = inr shader →
  let p := program shader in
  (∀ name loc,
     attribLocations shader !! name = Some loc ↔
     name ≠ "__proto__"%string ∧
     (∃ i, i < glActiveAttributes gl p ∧ glActiveAttrib gl p i = Some name) ∧
     loc = glAttribLocation gl p name) ∧
  (∀ name loc,
     name ≠ "__proto__"%string →
     uniformLocations shader !! name = Some loc ↔
     (∃ i, i < glActiveUniforms gl p ∧ glActiveUniform gl p i = Some name) ∧
     loc = glUniformLocation gl p name) ∧
  (is_Some (glUniformLocation gl p "__proto__"%string) →
   uniformLocations shader !! "__proto__"%string = None).
Proof.
  intros [[b1 Ha] [b2 Hu]]%new_inr p. split; [|split].
  - intros name loc. destruct (decide (name = "__proto__"%string)) as [->|Hn].
    + rewrite (locations_proto _ _ _ _ _ _ Ha) by done. split; [done|]. by intros [? _].
    + rewrite (locations_lookup _ _ _ _ _ _ name loc Ha Hn). tauto.
  - intros name loc Hn. by apply (locations_lookup _ _ _ _ _ _ name loc Hu).
  - intros [l Hl]. apply (locations_proto _ _ _ _ _ _ Hu). subst p. by rewrite Hl.
Qed.

(** *** A context that works *)

(** Shaders [1] and [2], program [3], with the attributes [a_position] and
    [a_texCoord] and the uniform [u_transform], whose location the context
    does not give. *)
Definition demoContext : Context :=
  mkContext
    (λ type, match type with VERTEX_SHADER => Some 1 | FRAGMENT_SHADER => Some 2 end)
    (λ _, true) (λ _, None) (Some 3) (λ _, true) (λ _, None)
    (λ _, 2) (λ _ i, match i with
                      | 0 => Some "a_position"%string
                      | _ => Some "a_texCoord"%string
                      end)
    (λ _ name, if decide (name = "a_position"%string) then 0%Z else 1%Z)
    (λ _, 1) (λ _ _, Some "u_transform"%string)
    (λ _ _, None).

Definition demoShader : Shader :=
  mkShader 3 (<["a_texCoord"%string := 1%Z]> (<["a_position"%string := 0%Z]> ∅))
             (<["u_transform"%string := None]> ∅).

Example demoContext_new :
  (new demoContext "void main() {}" "void main() {}").2 = inr demoShader.
Proof. vm_compute. reflexivity. Qed.

Lemma new_records_every_active_name_demo :
  (new demoContext "void main() {}" "void main() {}").2 = inr demoShader ∧
  (attribLocations demoShader !! "a_texCoord"%string = Some 1%Z ↔
   "a_texCoord"%string ≠ "__proto__"%string ∧
   (∃ i, i < 2 ∧ glActiveAttrib demoContext 3 i = Some "a_texCoord"%string) ∧
   1%Z = glAttribLocation demoContext 3 "a_texCoord"%string).
Proof.
  split; [exact demoContext_new|].
  destruct (new_records_every_active_name demoContext "void main() {}" "void main() {}"
              demoShader demoContext_new) as [Ha _].
  exact (Ha "a_texCoord"%string 1%Z).
Defined.

(** A context that lists a uniform [__proto__] twice, with no location: the
    first assignment takes the prototype away, the second one writes an own
    property. *)
Definition oddContext : Context :=
  mkContext
    (λ type, match type with VERTEX_SHADER => Some 1 | FRAGMENT_SHADER => Some 2 end)
    (λ _, true) (λ _, None) (Some 3) (λ _, true) (λ _, None)
    (λ _, 0) (λ _ _, None) (λ _ _, 0%Z)
    (λ _, 2) (λ _ _, Some "__proto__"%string)
    (λ _ _, None).

Example oddContext_new :
  (new oddContext "" "").2 = inr (mkShader 3 ∅ (<["__proto__"%string := None]> ∅)).
Proof. vm_compute. reflexivity. Qed.

End Shader.
